(** * HTTL-S (statejs.js): reactive state, template substitution, loops,
      conditionals and the re-render dispatcher

    A shallow embedding of [src/statejs.js].  The file holds two copies of
    the library: the older one (lines 1-859) and the current one (lines
    860-1862).  Unless a definition says otherwise it embeds the current
    copy; the older [setState] is embedded next to the current one because
    the two differ.

    Part I gives the definitions, component by component, in the order of
    the source.  Part II states and proves the properties. *)

From Stdlib Require Import ZArith List String Ascii Lia Bool.
From stdpp Require Import base gmap sets list strings pretty.

Open Scope string_scope.
Set Warnings "-register-all".

(* ====================================================================== *)
(** * Part I.  The embedding                                               *)
(* ====================================================================== *)

(** ** Results of fallible code

    A JavaScript call either returns or throws. *)

Inductive outcome (E A : Type) : Type :=
| Ok (a : A)
| Throw (e : E).
Arguments Ok {E A} a.
Arguments Throw {E A} e.

Definition is_ok {E A} (r : outcome E A) : bool :=
  match r with Ok _ => true | Throw _ => false end.

(* ---------------------------------------------------------------------- *)
(** ** STATE WATCHING (statejs.js 938-1103)                                *)
(* ---------------------------------------------------------------------- *)

Module Reactive.

(** *** Values, functions and objects *)

(** Function objects.  [FUser u] is a function written by the page,
    [FTrigger n] the closure [() => cb(propName, _value)] that the [n]-th
    call of [watch] creates. *)
Inductive fn := FUser (u : nat) | FTrigger (n : nat).

#[global] Instance fn_eq_dec : EqDecision fn.
Proof. solve_decision. Defined.

#[global] Instance fn_countable : Countable fn.
Proof.
  refine (inj_countable'
            (λ f, match f with FUser u => inl u | FTrigger n => inr n end)
            (λ x, match x with inl u => FUser u | inr n => FTrigger n end) _).
  by intros [].
Defined.

(** Whatever has object identity and answers ['object'] to [typeof]: an
    ordinary object or array (by address) or a Proxy (by its number). *)
Inductive ref := RObj (a : nat) | RProxy (p : nat).

#[global] Instance ref_eq_dec : EqDecision ref.
Proof. solve_decision. Defined.

#[global] Instance ref_countable : Countable ref.
Proof.
  refine (inj_countable'
            (λ r, match r with RObj a => inl a | RProxy p => inr p end)
            (λ x, match x with inl a => RObj a | inr p => RProxy p end) _).
  by intros [].
Defined.

(** JavaScript values.  Numbers are the integer-valued ones. *)
Inductive value :=
| VUndef
| VNull
| VBool (b : bool)
| VNum (n : Z)
| VStr (s : string)
| VObj (a : nat)
| VProxy (p : nat)
| VFun (f : fn).

#[global] Instance value_eq_dec : EqDecision value.
Proof. solve_decision. Defined.

(** [typeof v === 'object' && v !== null] *)
Definition as_ref (v : value) : option ref :=
  match v with
  | VObj a => Some (RObj a)
  | VProxy p => Some (RProxy p)
  | _ => None
  end.

Definition of_ref (r : ref) : value :=
  match r with RObj a => VObj a | RProxy p => VProxy p end.

(** Property keys: an array index, or any other name (["length"] is
    [KStr "length"]). *)
Inductive key := KIdx (i : nat) | KStr (s : string).

#[global] Instance key_eq_dec : EqDecision key.
Proof. solve_decision. Defined.

#[global] Instance key_countable : Countable key.
Proof.
  refine (inj_countable'
            (λ k, match k with KIdx i => inl i | KStr s => inr s end)
            (λ x, match x with inl i => KIdx i | inr s => KStr s end) _).
  by intros [].
Defined.

Definition is_length (k : key) : bool :=
  match k with KStr s => String.eqb s "length" | KIdx _ => false end.

(** An ordinary object: own writable data properties.  An array keeps its
    [length] beside its elements, as the host does. *)
Record obj := mkObj {
  is_array : bool;
  props : gmap key value;
  arr_len : nat
}.

Inductive error :=
| SelfMutation (prop : option string)
    (* Error: Watcher for "<prop>" mutated its own state. *)
| NotAFunction      (* TypeError of createDeepProxy and watch *)
| CannotRedefine (name : string)
    (* the host's TypeError: Cannot redefine property: <name> *)
| CannotDelete (k : key)
    (* the TypeError of a delete in strict code that was answered false *)
| InvalidArrayLength (* the host's RangeError *)
| NotAnObject       (* the host's TypeError on undefined, null, or no object *)
| UserError (n : nat) (* an exception the page's own code throws *)
| OutOfFuel.        (* a chain of proxies longer than the bound given *)

#[global] Instance error_eq_dec : EqDecision error.
Proof. solve_decision. Defined.

Abbreviation result := (outcome error).

(** *** Ordinary objects: what Reflect.get / set / deleteProperty do on a
        target that is no Proxy

    The targets are plain objects and arrays as the page writes them in
    literals: every property is an own writable data property and
    nothing is frozen.  The prototype chain is not searched, so the names
    the prototypes answer to ([toString], [__proto__], ...) are outside
    this description. *)

Definition ordinary_get (o : obj) (k : key) : value :=
  if is_array o && is_length k then VNum (Z.of_nat (arr_len o))
  else default VUndef (props o !! k).

(** The value written to an array's [length], when the host accepts it.
    Of the values the host converts to a number, the numbers, booleans
    and [null] are read here; a string is not. *)
Definition to_length (v : value) : option nat :=
  match v with
  | VNum n => if (0 <=? n)%Z && (n <? 4294967296)%Z then Some (Z.to_nat n) else None
  | VBool b => Some (if b then 1 else 0)
  | VNull => Some 0
  | _ => None
  end.

Definition below (n : nat) (kv : key * value) : Prop :=
  match kv.1 with KIdx i => i < n | KStr _ => True end.

#[global] Instance below_dec n kv : Decision (below n kv).
Proof. unfold below. destruct (kv.1); apply _. Defined.

Definition ordinary_set (o : obj) (k : key) (v : value) : result obj :=
  if is_array o then
    match k with
    | KIdx i => Ok (mkObj true (<[k := v]> (props o)) (Nat.max (arr_len o) (S i)))
    | KStr _ =>
        if is_length k then
          match to_length v with
          | Some n => Ok (mkObj true (filter (below n) (props o)) n)
          | None => Throw InvalidArrayLength
          end
        else Ok (mkObj true (<[k := v]> (props o)) (arr_len o))
    end
  else Ok (mkObj false (<[k := v]> (props o)) (arr_len o)).

Definition ordinary_delete (o : obj) (k : key) : obj * bool :=
  if is_array o && is_length k then (o, false)
  else (mkObj (is_array o) (delete k (props o)) (arr_len o), true).

(** *** The store *)

(** What [watch] leaves behind for its [n]-th call: the name, the page's
    callback, and the variable [_value] the closures share. *)
Record trigger := mkTrigger {
  t_prop : string;
  t_cb : fn;
  t_value : value
}.

(** A property of [window]: a data property made by an assignment, or the
    accessor pair installed by the [n]-th call of [watch], both
    configurable; or a property that cannot be redefined, as a global
    declared with [var] or [function] is, or one the host defines so (it
    is taken as writable data, as a declared global is). *)
Inductive wprop := WData (v : value) | WAccessor (n : nat) | WFixed (v : value).

Inductive event :=
| EvWarn (name : string)              (* console.warn: "<name>" already exists on window *)
| EvCall (f : fn) (args : list value)  (* the function [f] is entered *)
| EvUncaught (e : error).              (* an exception leaves a microtask *)

Record state := mkState {
  heap : gmap nat obj;
  next_addr : nat;
  proxies : gmap nat (ref * fn);        (* each Proxy: its target and the callback its handler closes over *)
  next_pid : nat;
  proxyCache : gmap ref (gmap fn nat);  (* WeakMap<Object, WeakMap<Function, Proxy>> *)
  scheduledCallbacks : gset fn;         (* WeakSet<Function> *)
  microtasks : list fn;                 (* the host's microtask queue: one closure per scheduled cb *)
  activeWatcher : option fn;
  watchedVars : gset string;
  triggers : gmap nat trigger;
  next_watch : nat;
  window : gmap string wprop;
  log : list event
}.

Definition init : state :=
  mkState ∅ 0 ∅ 0 ∅ ∅ [] None ∅ ∅ 0 ∅ [].

Definition set_heap (h : gmap nat obj) (na : nat) (s : state) : state :=
  mkState h na (proxies s) (next_pid s) (proxyCache s) (scheduledCallbacks s)
          (microtasks s) (activeWatcher s) (watchedVars s) (triggers s)
          (next_watch s) (window s) (log s).

Definition set_proxies (ps : gmap nat (ref * fn)) (np : nat)
    (c : gmap ref (gmap fn nat)) (s : state) : state :=
  mkState (heap s) (next_addr s) ps np c (scheduledCallbacks s)
          (microtasks s) (activeWatcher s) (watchedVars s) (triggers s)
          (next_watch s) (window s) (log s).

Definition set_schedule (sc : gset fn) (q : list fn) (s : state) : state :=
  mkState (heap s) (next_addr s) (proxies s) (next_pid s) (proxyCache s) sc q
          (activeWatcher s) (watchedVars s) (triggers s)
          (next_watch s) (window s) (log s).

Definition set_activeWatcher (a : option fn) (s : state) : state :=
  mkState (heap s) (next_addr s) (proxies s) (next_pid s) (proxyCache s)
          (scheduledCallbacks s) (microtasks s) a (watchedVars s) (triggers s)
          (next_watch s) (window s) (log s).

Definition set_watch (wv : gset string) (ts : gmap nat trigger) (nw : nat)
    (w : gmap string wprop) (s : state) : state :=
  mkState (heap s) (next_addr s) (proxies s) (next_pid s) (proxyCache s)
          (scheduledCallbacks s) (microtasks s) (activeWatcher s) wv ts nw w (log s).

Definition emit (e : event) (s : state) : state :=
  mkState (heap s) (next_addr s) (proxies s) (next_pid s) (proxyCache s)
          (scheduledCallbacks s) (microtasks s) (activeWatcher s) (watchedVars s)
          (triggers s) (next_watch s) (window s) (log s ++ [e]).

(** [_value = v] inside the closures of the [n]-th [watch]. *)
Definition set_value (n : nat) (v : value) (s : state) : state :=
  match triggers s !! n with
  | Some t =>
      set_watch (watchedVars s)
                (<[n := mkTrigger (t_prop t) (t_cb t) v]> (triggers s))
                (next_watch s) (window s) s
  | None => s
  end.

(** [callback.__watchedProp] *)
Definition watchedProp (s : state) (cb : fn) : option string :=
  match cb with
  | FTrigger n => t_prop <$> triggers s !! n
  | FUser _ => None
  end.

(** *** scheduleCallback (statejs.js 956-969)

    The closure handed to [queueMicrotask] is [run_microtask] below; the
    queue holds the [cb] it closes over. *)
Definition scheduleCallback (cb : fn) (s : state) : state :=
  if decide (cb ∈ scheduledCallbacks s) then s
  else set_schedule ({[cb]} ∪ scheduledCallbacks s) (microtasks s ++ [cb]) s.

(** *** createDeepProxy (statejs.js 980-1045) *)

Definition cache_lookup (s : state) (r : ref) (cb : fn) : option nat :=
  proxyCache s !! r ≫= λ callbackMap, callbackMap !! cb.

Definition createDeepProxy (target callback : value) (s : state)
  : state * result value :=
  match as_ref target with
  | None => (s, Ok target)
  | Some r =>
      match callback with
      | VFun cb =>
          match cache_lookup s r cb with
          | Some p => (s, Ok (VProxy p))
          | None =>
              let p := next_pid s in
              let callbackMap := default ∅ (proxyCache s !! r) in
              (set_proxies (<[p := (r, cb)]> (proxies s)) (S p)
                           (<[r := <[cb := p]> callbackMap]> (proxyCache s)) s,
               Ok (VProxy p))
          end
      | _ => (s, Throw NotAFunction)
      end
  end.

(** [Array.isArray] looks through Proxies. *)
Fixpoint isArray (fuel : nat) (s : state) (r : ref) : bool :=
  match r with
  | RObj a => match heap s !! a with Some o => is_array o | None => false end
  | RProxy p =>
      match fuel with
      | 0 => false
      | S fuel' =>
          match proxies s !! p with
          | Some (tgt, _) => isArray fuel' s tgt
          | None => false
          end
      end
  end.

(** [Reflect.get(obj, prop, receiver)]; on a Proxy it runs the handler's
    [get] (statejs.js 998-1005). *)
Fixpoint reflect_get (fuel : nat) (r : ref) (k : key) (s : state)
  : state * result value :=
  match r with
  | RObj a =>
      match heap s !! a with
      | Some o => (s, Ok (ordinary_get o k))
      | None => (s, Throw NotAnObject)
      end
  | RProxy p =>
      match fuel with
      | 0 => (s, Throw OutOfFuel)
      | S fuel' =>
          match proxies s !! p with
          | None => (s, Throw NotAnObject)
          | Some (obj, callback) =>
              match reflect_get fuel' obj k s with
              | (s1, Ok v) =>
                  match as_ref v with
                  | Some _ => createDeepProxy v (VFun callback) s1
                  | None => (s1, Ok v)
                  end
              | (s1, Throw e) => (s1, Throw e)
              end
          end
      end
  end.

(** [Reflect.set(obj, prop, value, receiver)]; on a Proxy it runs the
    handler's [set] (statejs.js 1006-1022). *)
Fixpoint reflect_set (fuel : nat) (r : ref) (k : key) (v : value) (s : state)
  : state * result bool :=
  match r with
  | RObj a =>
      match heap s !! a with
      | Some o =>
          match ordinary_set o k v with
          | Ok o' => (set_heap (<[a := o']> (heap s)) (next_addr s) s, Ok true)
          | Throw e => (s, Throw e)
          end
      | None => (s, Throw NotAnObject)
      end
  | RProxy p =>
      match fuel with
      | 0 => (s, Throw OutOfFuel)
      | S fuel' =>
          match proxies s !! p with
          | None => (s, Throw NotAnObject)
          | Some (obj, callback) =>
              if decide (activeWatcher s = Some callback) then
                (s, Throw (SelfMutation (watchedProp s callback)))
              else if isArray fuel' s obj && is_length k then
                reflect_set fuel' obj k v s
              else
                match reflect_set fuel' obj k v s with
                | (s1, Ok result) => (scheduleCallback callback s1, Ok result)
                | (s1, Throw e) => (s1, Throw e)
                end
          end
      end
  end.

(** [Reflect.deleteProperty(obj, prop)]; on a Proxy it runs the handler's
    [deleteProperty] (statejs.js 1023-1035). *)
Fixpoint reflect_delete (fuel : nat) (r : ref) (k : key) (s : state)
  : state * result bool :=
  match r with
  | RObj a =>
      match heap s !! a with
      | Some o =>
          let '(o', b) := ordinary_delete o k in
          (set_heap (<[a := o']> (heap s)) (next_addr s) s, Ok b)
      | None => (s, Throw NotAnObject)
      end
  | RProxy p =>
      match fuel with
      | 0 => (s, Throw OutOfFuel)
      | S fuel' =>
          match proxies s !! p with
          | None => (s, Throw NotAnObject)
          | Some (obj, callback) =>
              if decide (activeWatcher s = Some callback) then
                (s, Throw (SelfMutation (watchedProp s callback)))
              else
                match reflect_delete fuel' obj k s with
                | (s1, Ok result) => (scheduleCallback callback s1, Ok result)
                | (s1, Throw e) => (s1, Throw e)
                end
          end
      end
  end.

(** A Proxy's target was made before it, so a chain that starts at Proxy
    [p] has at most [S p] links. *)
Definition depth (r : ref) : nat :=
  match r with RObj _ => 0 | RProxy p => S p end.

(** *** watch (statejs.js 1053-1103) *)

Definition watch (propName : string) (cb defaultValue : value) (s : state)
  : state * result value :=
  match cb with
  | VFun f =>
      let s := if decide (is_Some (window s !! propName))
               then emit (EvWarn propName) s else s in
      let n := next_watch s in
      (* let _value; const trigger = () => cb(propName, _value); *)
      let s := set_watch (watchedVars s)
                         (<[n := mkTrigger propName f VUndef]> (triggers s))
                         (S n) (window s) s in
      let '(s, r) :=
        match as_ref defaultValue with
        | Some _ => createDeepProxy defaultValue (VFun (FTrigger n)) s
        | None => (s, Ok defaultValue)
        end in
      match r with
      | Ok v =>
          let s := set_value n v s in
          match window s !! propName with
          | Some (WFixed _) =>
              (* Object.defineProperty(window, propName, { ..., configurable: true })
                 on a property that is not configurable *)
              (s, Throw (CannotRedefine propName))
          | _ =>
              (* Object.defineProperty(window, propName, { get, set, ... });
                 watchedVars.add(propName); *)
              (set_watch ({[propName]} ∪ watchedVars s) (triggers s) (next_watch s)
                         (<[propName := WAccessor n]> (window s)) s,
               Ok VUndef)
          end
      | Throw e => (s, Throw e)
      end
  | _ => (s, Throw NotAFunction)
  end.

(** The accessor of the [n]-th [watch]: [get() { return _value; }] *)
Definition accessor_get (n : nat) (s : state) : value :=
  default VUndef (t_value <$> triggers s !! n).

(** and [set(value) { ... }] (statejs.js 1081-1097). *)
Definition accessor_set (n : nat) (v : value) (s : state)
  : state * result value :=
  let trigger := FTrigger n in
  if decide (activeWatcher s = Some trigger) then
    (s, Throw (SelfMutation (watchedProp s trigger)))
  else
    let '(s, r) :=
      match as_ref v with
      | Some _ => createDeepProxy v (VFun trigger) s
      | None => (s, Ok v)
      end in
    match r with
    | Ok v' => (scheduleCallback trigger (set_value n v' s), Ok v)
    | Throw e => (s, Throw e)
    end.

(** *** What the page's code can do to the library *)

Inductive op :=
| OpAlloc (o : obj)                        (* an object or array literal *)
| OpGet (target : value) (k : key)         (* target[k] *)
| OpSet (target : value) (k : key) (v : value)   (* target[k] = v *)
| OpDelete (target : value) (k : key)      (* delete target[k] *)
| OpWindowGet (name : string)              (* window[name], or the bare name *)
| OpWindowSet (name : string) (v : value)  (* window[name] = v *)
| OpWatch (propName : string) (cb defaultValue : value)
| OpCreateDeepProxy (target callback : value)
| OpScheduleCallback (cb : fn).

Definition js_get (target : value) (k : key) (s : state) : state * result value :=
  match as_ref target with
  | Some r => reflect_get (depth r) r k s
  | None =>
      match target with
      | VUndef | VNull => (s, Throw NotAnObject)
      | _ => (s, Ok VUndef)
      end
  end.

Definition js_set (target : value) (k : key) (v : value) (s : state)
  : state * result value :=
  match as_ref target with
  | Some r =>
      match reflect_set (depth r) r k v s with
      | (s1, Ok _) => (s1, Ok v)
      | (s1, Throw e) => (s1, Throw e)
      end
  | None =>
      match target with
      | VUndef | VNull => (s, Throw NotAnObject)
      | _ => (s, Ok v)
      end
  end.

(** [delete target[k]] as sloppy code has it: the answer of the trap is
    the value of the expression. *)
Definition js_delete (target : value) (k : key) (s : state)
  : state * result value :=
  match as_ref target with
  | Some r =>
      match reflect_delete (depth r) r k s with
      | (s1, Ok b) => (s1, Ok (VBool b))
      | (s1, Throw e) => (s1, Throw e)
      end
  | None =>
      match target with
      | VUndef | VNull => (s, Throw NotAnObject)
      | _ => (s, Ok (VBool true))
      end
  end.

Definition window_get (name : string) (s : state) : value :=
  match window s !! name with
  | Some (WData v) | Some (WFixed v) => v
  | Some (WAccessor n) => accessor_get n s
  | None => VUndef
  end.

Definition window_set (name : string) (v : value) (s : state)
  : state * result value :=
  match window s !! name with
  | Some (WAccessor n) => accessor_set n v s
  | Some (WFixed _) =>
      (set_watch (watchedVars s) (triggers s) (next_watch s)
                 (<[name := WFixed v]> (window s)) s, Ok v)
  | _ => (set_watch (watchedVars s) (triggers s) (next_watch s)
                    (<[name := WData v]> (window s)) s, Ok v)
  end.

Definition exec_op (o : op) (s : state) : state * result value :=
  match o with
  | OpAlloc ob =>
      let a := next_addr s in
      (set_heap (<[a := ob]> (heap s)) (S a) s, Ok (VObj a))
  | OpGet target k => js_get target k s
  | OpSet target k v => js_set target k v s
  | OpDelete target k => js_delete target k s
  | OpWindowGet name => (s, Ok (window_get name s))
  | OpWindowSet name v => window_set name v s
  | OpWatch propName cb defaultValue => watch propName cb defaultValue s
  | OpCreateDeepProxy target callback => createDeepProxy target callback s
  | OpScheduleCallback cb => (scheduleCallback cb s, Ok VUndef)
  end.

(** Code of the page: it performs an operation and goes on with what came
    back, a value or an exception (which it may catch or let escape). *)
Inductive prog :=
| Ret
| Raise (e : error)
| Do (o : op) (k : result value → prog).

Fixpoint run_prog (c : prog) (s : state) : state * result unit :=
  match c with
  | Ret => (s, Ok ())
  | Raise e => (s, Throw e)
  | Do o k => let '(s1, r) := exec_op o s in run_prog (k r) s1
  end.

(** The page's code that performs [ops] in order and lets the first
    exception escape. *)
Definition in_order (ops : list op) : prog :=
  foldr (λ o c, Do o (λ r, match r with Ok _ => c | Throw e => Raise e end)) Ret ops.

(** [delete target[k]] in strict code: when the answer is [false] the
    operator throws, after the trap has run. *)
Definition strict_delete (target : value) (k : key) : prog :=
  Do (OpDelete target k)
     (λ r, match r with
           | Ok (VBool false) => Raise (CannotDelete k)
           | Ok _ => Ret
           | Throw e => Raise e
           end).

(** [w[k1][k2]...[kn]]: the property path [path] read off [w]. *)
Fixpoint get_path (w : value) (path : list key) (s : state) : state * result value :=
  match path with
  | [] => (s, Ok w)
  | k :: rest =>
      match js_get w k s with
      | (s1, Ok v) => get_path v rest s1
      | (s1, Throw e) => (s1, Throw e)
      end
  end.

Section Callbacks.

(** The functions of the page: what function [u] does when called. *)
Variable body : nat → list value → prog.

(** Calling a function object.  A function of the page runs its code; a
    trigger [() => cb(propName, _value)] reads [_value] as it is now and
    calls its [cb].  Every entry is recorded. *)
Fixpoint call (fuel : nat) (f : fn) (args : list value) (s : state)
  : state * result unit :=
  let s := emit (EvCall f args) s in
  match f with
  | FUser u => run_prog (body u args) s
  | FTrigger n =>
      match fuel with
      | 0 => (s, Throw OutOfFuel)
      | S fuel' =>
          match triggers s !! n with
          | Some t => call fuel' (t_cb t) [VStr (t_prop t); t_value t] s
          | None => (s, Throw NotAFunction)
          end
      end
  end.

(** The closure [scheduleCallback] queues (statejs.js 960-968). *)
Definition run_microtask (cb : fn) (s : state) : state * result unit :=
  let s := set_schedule (scheduledCallbacks s ∖ {[cb]}) (microtasks s) s in
  let s := set_activeWatcher (Some cb) s in
  let '(s, r) := call (S (next_watch s)) cb [] s in   (* try { cb(); } *)
  (set_activeWatcher None s, r).          (* finally { activeWatcher = null; } *)

(** The host runs the queue to its end after each synchronous unit; an
    exception that leaves a microtask is reported and the next one runs. *)
Fixpoint drain (fuel : nat) (s : state) : option state :=
  match microtasks s with
  | [] => Some s
  | cb :: rest =>
      match fuel with
      | 0 => None
      | S fuel' =>
          let '(s1, r) :=
            run_microtask cb (set_schedule (scheduledCallbacks s) rest s) in
          drain fuel'
                (match r with Ok _ => s1 | Throw e => emit (EvUncaught e) s1 end)
      end
  end.

(** One synchronous execution unit followed by its microtasks. *)
Definition tick (fuel : nat) (c : prog) (s : state) : option state :=
  let '(s1, r) := run_prog c s in
  drain fuel (match r with Ok _ => s1 | Throw e => emit (EvUncaught e) s1 end).

End Callbacks.

End Reactive.

(* ---------------------------------------------------------------------- *)
(** ** The host language, as far as the rendering code relies on it        *)
(* ---------------------------------------------------------------------- *)

Module Js.

(** What the page's expressions evaluate to, read as data.  Objects and
    arrays carry an identity, which is all [===] looks at.  [JBare] stands
    for an object with no [toString] and no [valueOf] (such as
    [Object.create(null)]): converting it to a string or a number throws.
    Numbers are the integers and NaN: no fractions and no infinities. *)
Inductive jsval :=
| JUndef
| JNull
| JBool (b : bool)
| JNum (n : Z)
| JNaN
| JStr (s : string)
| JArr (id : nat) (xs : list jsval)
| JObj (id : nat) (fields : list (string * jsval))
| JBare (id : nat).

(** An exception, with its [message]. *)
Inductive exn := Exn (message : string).

Definition message (e : exn) : string := match e with Exn m => m end.

Abbreviation result := (outcome exn).

(** Truthiness: [if (v)], [v || w], [Boolean(v)]. *)
Definition truthy (v : jsval) : bool :=
  match v with
  | JUndef | JNull | JNaN => false
  | JBool b => b
  | JNum n => negb (n =? 0)%Z
  | JStr s => negb (String.eqb s "")
  | JArr _ _ | JObj _ _ | JBare _ => true
  end.

(** [v !== undefined && v !== null] *)
Definition defined (v : jsval) : bool :=
  match v with JUndef | JNull => false | _ => true end.

Fixpoint join (sep : string) (l : list string) : string :=
  match l with
  | [] => ""
  | [x] => x
  | x :: l' => x +:+ sep +:+ join sep l'
  end.

Definition cannot_convert : exn := Exn "Cannot convert object to primitive value".

(** [String(v)].  An integer is written with all its digits (the host
    changes to the exponent form from 1e21 on) and an object as
    [Object.prototype.toString] writes it. *)
Fixpoint String_ (v : jsval) : result string :=
  match v with
  | JUndef => Ok "undefined"
  | JNull => Ok "null"
  | JBool b => Ok (if b then "true" else "false")
  | JNum n => Ok (pretty n)
  | JNaN => Ok "NaN"
  | JStr s => Ok s
  | JArr _ xs =>
      (* Array.prototype.join: undefined and null give the empty string *)
      let fix items (xs : list jsval) : result (list string) :=
        match xs with
        | [] => Ok []
        | x :: xs' =>
            match (if defined x then String_ x else Ok "") with
            | Ok s =>
                match items xs' with
                | Ok l => Ok (s :: l)
                | Throw e => Throw e
                end
            | Throw e => Throw e
            end
        end in
      match items xs with
      | Ok l => Ok (join "," l)
      | Throw e => Throw e
      end
  | JObj _ _ => Ok "[object Object]"
  | JBare _ => Throw cannot_convert
  end.

(** White space that [trim], [parseInt] and [Number] skip (the code units
    below 256 among them). *)
Definition is_space (c : ascii) : bool :=
  let n := nat_of_ascii c in
  ((n =? 9) || (n =? 10) || (n =? 11) || (n =? 12) || (n =? 13) || (n =? 32)
   || (n =? 160))%nat.

Fixpoint trimStart (s : string) : string :=
  match s with
  | String c s' => if is_space c then trimStart s' else s
  | EmptyString => EmptyString
  end.

Fixpoint trimEnd (s : string) : string :=
  match s with
  | EmptyString => EmptyString
  | String c s' =>
      match trimEnd s' with
      | EmptyString => if is_space c then EmptyString else String c EmptyString
      | t => String c t
      end
  end.

(** [s.trim()] *)
Definition trim (s : string) : string := trimEnd (trimStart s).

(** The value of a digit in the given radix. *)
Definition digit (radix : Z) (c : ascii) : option Z :=
  let n := Z.of_nat (nat_of_ascii c) in
  let d := if (48 <=? n)%Z && (n <=? 57)%Z then Some (n - 48)%Z
           else if (97 <=? n)%Z && (n <=? 122)%Z then Some (n - 87)%Z
           else if (65 <=? n)%Z && (n <=? 90)%Z then Some (n - 55)%Z
           else None in
  match d with
  | Some v => if (v <? radix)%Z then Some v else None
  | None => None
  end.

(** The longest run of digits at the front of [s]: its value, how many
    digits it has, and what follows it. *)
Fixpoint digits (radix : Z) (acc : Z) (count : nat) (s : string) : Z * nat * string :=
  match s with
  | String c s' =>
      match digit radix c with
      | Some d => digits radix (acc * radix + d)%Z (S count) s'
      | None => (acc, count, s)
      end
  | EmptyString => (acc, count, s)
  end.

Definition strip_sign (s : string) : Z * string :=
  match s with
  | String "-" s' => ((-1)%Z, s')
  | String "+" s' => (1%Z, s')
  | _ => (1%Z, s)
  end.

Definition strip_hex (s : string) : option string :=
  match s with
  | String "0" (String "x" s') | String "0" (String "X" s') => Some s'
  | _ => None
  end.

(** [parseInt(s)] with no radix given; [None] is NaN. *)
Definition parseInt_string (s : string) : option Z :=
  let '(sign, s1) := strip_sign (trimStart s) in
  let '(radix, s2) := match strip_hex s1 with Some s2 => (16%Z, s2) | None => (10%Z, s1) end in
  let '(n, count, _) := digits radix 0 0 s2 in
  match count with
  | 0 => None
  | _ => Some (sign * n)%Z
  end.

(** [parseInt(element.getAttribute(name))]: a missing attribute is [null],
    which reads as the string ["null"]. *)
Definition parseInt (attr : option string) : option Z :=
  parseInt_string (default "null" attr).

(** [Number(s)] for a string: empty is 0, a signed decimal or an unsigned
    hexadecimal integer is its value, anything else NaN (fractions and
    exponents are not read). *)
Definition string_to_number (s : string) : option Z :=
  let t := trim s in
  match t with
  | EmptyString => Some 0%Z
  | _ =>
      match strip_hex t with
      | Some h =>
          let '(n, count, rest) := digits 16 0 0 h in
          match count, rest with
          | S _, EmptyString => Some n
          | _, _ => None
          end
      | None =>
          let '(sign, t1) := strip_sign t in
          let '(n, count, rest) := digits 10 0 0 t1 in
          match count, rest with
          | S _, EmptyString => Some (sign * n)%Z
          | _, _ => None
          end
      end
  end.

(** Primitive values as the conversions see them. *)
Inductive prim :=
| PUndef | PNull | PBool (b : bool) | PNum (n : option Z) | PStr (s : string).

(** [ToPrimitive(v)]: arrays and ordinary objects through their
    [toString]. *)
Definition to_primitive (v : jsval) : result prim :=
  match v with
  | JUndef => Ok PUndef
  | JNull => Ok PNull
  | JBool b => Ok (PBool b)
  | JNum n => Ok (PNum (Some n))
  | JNaN => Ok (PNum None)
  | JStr s => Ok (PStr s)
  | JArr _ _ | JObj _ _ | JBare _ =>
      match String_ v with
      | Ok s => Ok (PStr s)
      | Throw e => Throw e
      end
  end.

(** [ToNumber] of a primitive; [None] is NaN. *)
Definition prim_to_number (p : prim) : option Z :=
  match p with
  | PUndef => None
  | PNull => Some 0%Z
  | PBool b => Some (if b then 1 else 0)%Z
  | PNum n => n
  | PStr s => string_to_number s
  end.

Definition to_number (v : jsval) : result (option Z) :=
  match to_primitive v with
  | Ok p => Ok (prim_to_number p)
  | Throw e => Throw e
  end.

(** Strings compare by code units. *)
Fixpoint string_ltb (a b : string) : bool :=
  match a, b with
  | _, EmptyString => false
  | EmptyString, String _ _ => true
  | String x a', String y b' =>
      if (nat_of_ascii x <? nat_of_ascii y)%nat then true
      else if (nat_of_ascii y <? nat_of_ascii x)%nat then false
      else string_ltb a' b'
  end.

(** The comparison of two primitives; [None] when one side is NaN. *)
Definition prim_lt (x y : prim) : option bool :=
  match x, y with
  | PStr a, PStr b => Some (string_ltb a b)
  | _, _ =>
      match prim_to_number x, prim_to_number y with
      | Some a, Some b => Some (a <? b)%Z
      | _, _ => None
      end
  end.

(** [x < y], [x > y], [x <= y], [x >= y]: the left operand is converted
    first. *)
Definition compare (op : option bool → bool) (swap : bool) (x y : jsval)
  : result bool :=
  match to_primitive x with
  | Ok px =>
      match to_primitive y with
      | Ok py => Ok (op (if swap then prim_lt py px else prim_lt px py))
      | Throw e => Throw e
      end
  | Throw e => Throw e
  end.

Definition lt := compare (λ r, default false r) false.
Definition gt := compare (λ r, default false r) true.
Definition le := compare (λ r, match r with Some b => negb b | None => false end) true.
Definition ge := compare (λ r, match r with Some b => negb b | None => false end) false.

(** [x === y] *)
Definition strict_eq (x y : jsval) : bool :=
  match x, y with
  | JUndef, JUndef | JNull, JNull => true
  | JBool a, JBool b => Bool.eqb a b
  | JNum a, JNum b => (a =? b)%Z
  | JStr a, JStr b => String.eqb a b
  | JArr i _, JArr j _ | JObj i _, JObj j _ | JBare i, JBare j => (i =? j)%nat
  | _, _ => false
  end.

(** [v.length] and [v[i]] for the values a loop may be given.  A string
    is taken to hold characters of one code unit each. *)
Definition length_of (v : jsval) : jsval :=
  match v with
  | JArr _ xs => JNum (Z.of_nat (length xs))
  | JStr s => JNum (Z.of_nat (String.length s))
  | JObj _ fields => default JUndef (snd <$> List.find (λ f, String.eqb (fst f) "length") fields)
  | _ => JUndef
  end.

Definition index (v : jsval) (i : Z) : jsval :=
  if (i <? 0)%Z then JUndef
  else
    match v with
    | JArr _ xs => default JUndef (xs !! Z.to_nat i)
    | JStr s =>
        match String.get (Z.to_nat i) s with
        | Some c => JStr (String c EmptyString)
        | None => JUndef
        end
    | JObj _ fields =>
        default JUndef (snd <$> List.find (λ f, String.eqb (fst f) (pretty i)) fields)
    | _ => JUndef
    end.

(** [Math.min(x, y)]; [None] is NaN. *)
Definition min (x y : jsval) : result (option Z) :=
  match to_number x with
  | Ok a =>
      match to_number y with
      | Ok b =>
          Ok (match a, b with Some a, Some b => Some (Z.min a b) | _, _ => None end)
      | Throw e => Throw e
      end
  | Throw e => Throw e
  end.

End Js.

(* ---------------------------------------------------------------------- *)
(** ** EXPRESSION EVALUATION HELPERS (statejs.js 1104-1169)                *)
(* ---------------------------------------------------------------------- *)

Module Template.
Import Js.

(** The double quote, for the texts that hold one. *)
Definition dq : string := String (ascii_of_nat 34) EmptyString.

(** A scope: parameter names with the values passed for them. *)
Abbreviation scope := (list (string * jsval)).

(** *** createRangeArray (statejs.js 1161-1169)

    A number is an integer or NaN ([None]), added exactly, as the host
    adds safe integers ([Number.isSafeInteger]); every comparison with NaN is
    false and every sum with NaN is NaN. *)
Abbreviation num := (option Z).

Definition num_lt (a b : num) : bool :=
  match a, b with Some x, Some y => (x <? y)%Z | _, _ => false end.

Definition num_le (a b : num) : bool :=
  match a, b with Some x, Some y => (x <=? y)%Z | _, _ => false end.

Definition num_add (a b : num) : num :=
  match a, b with Some x, Some y => Some (x + y)%Z | _, _ => None end.

(** [for (let i = start; i <= end; i += step) result.push(i);] *)
Fixpoint range_up (fuel : nat) (i end_ step : num) (result : list num)
  : option (list num) :=
  if num_le i end_ then
    match fuel with
    | 0 => None
    | S fuel' => range_up fuel' (num_add i step) end_ step (result ++ [i])
    end
  else Some result.

(** [for (let i = start; i >= end; i += step) result.push(i);] *)
Fixpoint range_down (fuel : nat) (i end_ step : num) (result : list num)
  : option (list num) :=
  if num_le end_ i then
    match fuel with
    | 0 => None
    | S fuel' => range_down fuel' (num_add i step) end_ step (result ++ [i])
    end
  else Some result.

(** The function with the number of loop turns it may take; [None] when
    they do not suffice. *)
Definition createRangeArray_within (fuel : nat) (start end_ step : num)
  : option (list num) :=
  let result := [] in
  if num_lt (Some 0%Z) step then range_up fuel start end_ step result
  else if num_lt step (Some 0%Z) then range_down fuel start end_ step result
  else Some result.

(** Turns that always suffice: the step is an integer, so each turn moves
    [i] by one at least. *)
Definition range_turns (start end_ : num) : nat :=
  match start, end_ with
  | Some a, Some b => S (Z.to_nat (Z.abs (b - a)))
  | _, _ => 0
  end.

Definition createRangeArray (start end_ step : num) : list num :=
  default [] (createRangeArray_within (range_turns start end_) start end_ step).

(** *** String.prototype.replace with the two patterns of the library *)

(** [s.replace(/\{\{([\s\S]*?)\}\}/g, f)]: [f] gets the match and the text
    between the braces.  [open] holds that text while a placeholder is
    being read; a placeholder that never closes stays as it is. *)
Fixpoint replace_mustache (f : string → string → string) (open : option string)
    (s : string) : string :=
  match s with
  | EmptyString =>
      match open with
      | None => ""
      | Some e => "{{" +:+ e
      end
  | String c s' =>
      match open with
      | None =>
          match s' with
          | String d s'' =>
              if Ascii.eqb c "{" && Ascii.eqb d "{"
              then replace_mustache f (Some "") s''
              else String c (replace_mustache f None s')
          | EmptyString => String c ""
          end
      | Some e =>
          match s' with
          | String d s'' =>
              if Ascii.eqb c "}" && Ascii.eqb d "}"
              then f ("{{" +:+ e +:+ "}}") e +:+ replace_mustache f None s''
              else replace_mustache f (Some (e +:+ String c "")) s'
          | EmptyString => "{{" +:+ e +:+ String c ""
          end
      end
  end.

(** [s.replace(/\$\{([\s\S]*?)\}/g, f)] *)
Fixpoint replace_dollar (f : string → string → string) (open : option string)
    (s : string) : string :=
  match s with
  | EmptyString =>
      match open with
      | None => ""
      | Some e => "${" +:+ e
      end
  | String c s' =>
      match open with
      | None =>
          match s' with
          | String d s'' =>
              if Ascii.eqb c "$" && Ascii.eqb d "{"
              then replace_dollar f (Some "") s''
              else String c (replace_dollar f None s')
          | EmptyString => String c ""
          end
      | Some e =>
          if Ascii.eqb c "}"
          then f ("${" +:+ e +:+ "}") e +:+ replace_dollar f None s'
          else replace_dollar f (Some (e +:+ String c "")) s'
      end
  end.

(** [s.replace(/pat/g, by)] for a pattern that is plain text.  [skip]
    counts the characters of a match still to pass over. *)
Fixpoint replace_all (pat by_ : string) (skip : nat) (s : string) : string :=
  match s with
  | EmptyString => ""
  | String c s' =>
      match skip with
      | S n => replace_all pat by_ n s'
      | 0 =>
          if String.prefix pat s && negb (String.eqb pat "")
          then by_ +:+ replace_all pat by_ (String.length pat - 1) s'
          else String c (replace_all pat by_ 0 s')
      end
  end.

Section Host.

(** The host's evaluator: [new Function(...keys, `return (${expression})`)]
    called with the values, in the page's global scope.  It returns the
    value or throws (a syntax error, a reference error, whatever the
    expression throws).  It is a function: evaluating changes nothing. *)
Variable host : scope → string → result jsval.

(** The watched variables that are in [window], with [window[varName]]. *)
Variable watched : scope.

(** *** unsafeEval (statejs.js 1114-1132) *)
Definition unsafeEval (expression : string) (context : scope) : jsval :=
  let extra := filter (λ kv, kv.1 ∉ context.*1) watched in
  match host (context ++ extra) expression with
  | Ok v => v
  | Throw e => JUndef       (* catch (e) { console.error(...); return undefined; } *)
  end.

(** *** parseTemplate (statejs.js 1139-1152) *)
Definition parseTemplate (template : string) : string :=
  replace_mustache
    (λ match_ expression,
       let result := unsafeEval (trim expression) [] in
       match (if defined result then String_ result else Ok "") with
       | Ok s => s
       | Throw error => match_   (* catch (error) { ...; return match; } *)
       end)
    None template.

End Host.

End Template.

(* ---------------------------------------------------------------------- *)
(** ** The custom elements (statejs.js 1171-1276 and 1538-1736)            *)
(* ---------------------------------------------------------------------- *)

Module Elements.
Import Js Template.

(** A custom element as its class sees it: the attributes of its tag, the
    field [_originalTemplate] ([None] is [null]) and its content, kept as
    the markup last assigned to [innerHTML] (at first, the markup of the
    page). *)
Record element := mkElement {
  attributes : gmap string string;
  _originalTemplate : option string;
  innerHTML : string
}.

Definition getAttribute (this : element) (name : string) : option string :=
  attributes this !! name.

Definition set_innerHTML (html : string) (this : element) : element :=
  mkElement (attributes this) (_originalTemplate this) html.

Definition set_originalTemplate (t : string) (this : element) : element :=
  mkElement (attributes this) (Some t) (innerHTML this).

(** A string or [null] used as a condition. *)
Definition present (s : option string) : bool :=
  match s with Some t => negb (String.eqb t "") | None => false end.

(** [`${s}`] for a string or [null]. *)
Definition text (s : option string) : string := default "null" s.

(** [a || b] on numbers read by [parseInt]. *)
Definition or_else (a : option Z) (b : Z) : Z :=
  match a with
  | Some n => if (n =? 0)%Z then b else n
  | None => b
  end.

Definition missing_loop_template : string :=
  "❌ for-loop: Missing template with matching loopid".

Definition missing_condition_template : string :=
  "❌ condition-block requires template with matching ifid".

Section Selectors.

(** The host's selector engine on the content of an element:
    [selector_error sel] is the exception [querySelector] throws for a
    selector it cannot parse, whatever the content; [template_in content
    sel] is the [innerHTML] of the first [template] that [sel] matches
    in [content], if there is one. *)
Variable selector_error : string → option exn.
Variable template_in : string → string → option string.

(** [this.querySelector(sel)] followed by [.innerHTML] when it finds a
    node. *)
Definition querySelector_template (this : element) (sel : string)
  : result (option string) :=
  match selector_error sel with
  | Some e => Throw e
  | None => Ok (template_in (innerHTML this) sel)
  end.

(** [_storeTemplate] of [CustomForLoop] (statejs.js 1191-1198) and of
    [ConditionBlock] (1554-1561), which differ in the attribute's name.
    The element comes back as the method left it, also when it throws. *)
Definition storeTemplate (idattr : string) (this : element)
  : element * result unit :=
  if present (_originalTemplate this) then (this, Ok ())
  else
    let id := getAttribute this idattr in
    match querySelector_template this
            ("template[" +:+ idattr +:+ "=" +:+ dq +:+ text id +:+ dq +:+ "]") with
    | Ok (Some template) => (set_originalTemplate template this, Ok ())
    | Ok None => (this, Ok ())
    | Throw e => (this, Throw e)
    end.

End Selectors.

End Elements.

(** *** CustomForLoop (statejs.js 1179-1279) *)
Module CustomForLoop.
Import Js Template Elements.

Section Host.

Variable host : scope → string → result jsval.
Variable watched : scope.
Variable selector_error : string → option exn.
Variable template_in : string → string → option string.

(** [s.replace(new RegExp(`\\b${name}\\b`, 'g'), by)]: the host compiles
    the attribute's text as a regular expression and may refuse it. *)
Variable replace_word : string → string → string → result string.

Definition _storeTemplate : element → element * result unit :=
  storeTemplate selector_error template_in "loopid".

(** What [render] reads before its loop (statejs.js 1212-1235). *)
Record bounds := mkBounds {
  array : jsval;
  start : Z;
  step : Z;
  end_ : jsval;
  valueVar : string;
  indexVar : string
}.

Definition or_text (a : option string) (b : string) : string :=
  if present a then text a else b.

Definition read_bounds (this : element) : result bounds :=
  let array :=
    let arrayAttr := getAttribute this "array" in
    if present arrayAttr then
      let v := unsafeEval host watched (text arrayAttr) [] in
      if truthy v then v else JArr 0 []
    else JArr 0 [] in
  let start := or_else (parseInt (getAttribute this "start")) 0 in
  let step := or_else (parseInt (getAttribute this "step")) 1 in
  let end_ :=
    match getAttribute this "end" with
    | Some e => unsafeEval host watched e []
    | None => length_of array
    end in
  let valueVar := or_text (getAttribute this "valueVar") "value" in
  let indexVar := or_text (getAttribute this "indexVar") "index" in
  (* Create range if no array *)
  match (if strict_eq (length_of array) (JNum 0) then gt end_ (JNum start)
         else Ok false) with
  | Ok true =>
      match to_number end_ with
      | Ok e =>
          let range := createRangeArray (Some start) (num_add e (Some (-1)%Z)) (Some step) in
          Ok (mkBounds (JArr 0 ((λ i, match i with Some n => JNum n | None => JNaN end) <$> range))
                       start step end_ valueVar indexVar)
      | Throw e => Throw e
      end
  | Ok false => Ok (mkBounds array start step end_ valueVar indexVar)
  | Throw e => Throw e
  end.

(** [i < Math.min(end, array.length)] *)
Definition in_range (b : bounds) (i : Z) : result bool :=
  match Js.min (end_ b) (length_of (array b)) with
  | Ok m => Ok (num_lt (Some i) m)
  | Throw e => Throw e
  end.

(** The loop [for (let i = start; i < Math.min(end, array.length); i +=
    step)] with [body] run on each [i]; [None] when [fuel] turns do not
    end it. *)
Fixpoint for_loop {A} (fuel : nat) (b : bounds) (body : Z → A → result A)
    (i : Z) (acc : A) : option (result A) :=
  match in_range b i with
  | Ok true =>
      match fuel with
      | 0 => None
      | S fuel' =>
          match body i acc with
          | Ok acc' => for_loop fuel' b body (i + step b)%Z acc'
          | Throw e => Some (Throw e)
          end
      end
  | Ok false => Some (Ok acc)
  | Throw e => Some (Throw e)
  end.

(** One turn of the loop (statejs.js 1242-1265): the markup for index [i]. *)
Definition iteration (template : string) (b : bounds) (i : Z) : result string :=
  let loopValue := index (array b) i in
  let loopIndex := JNum i in
  match replace_word (valueVar b) "__loopValue__" template with
  | Ok h1 =>
      match replace_word (indexVar b) "__loopIndex__" h1 with
      | Ok iterHtml =>
          Ok (replace_dollar
                (λ match_ expr,
                   let evalExpr :=
                     replace_all "__loopIndex__" "loopIndex" 0
                       (replace_all "__loopValue__" "loopValue" 0 expr) in
                   let result :=
                     unsafeEval host watched evalExpr
                       [("loopValue", loopValue); ("loopIndex", loopIndex)] in
                   match (if defined result then String_ result else Ok "") with
                   | Ok s => s
                   | Throw e => match_
                   end)
                None iterHtml)
      | Throw e => Throw e
      end
  | Throw e => Throw e
  end.

(** The values the turns of the loop bind: [(loopIndex, loopValue)] for
    each, in order. *)
Definition bindings (fuel : nat) (this : element)
  : option (result (list (Z * jsval))) :=
  match read_bounds this with
  | Ok b => for_loop fuel b (λ i acc, Ok (acc ++ [(i, index (array b) i)])%list) (start b) []
  | Throw e => Some (Throw e)
  end.

(** The [try] block of [render] (statejs.js 1201-1271); [None] when the
    loop does not end within [fuel] turns. *)
Definition render_try (fuel : nat) (this : element)
  : option (element * result unit) :=
  let loopId := getAttribute this "loopid" in
  if negb (present loopId) then
    Some (this, Throw (Exn ("for-loop requires " +:+ dq +:+ "loopid" +:+ dq +:+ " attribute")))
  else
    (* Get or restore template *)
    match _storeTemplate this with
    | (this, Throw e) => Some (this, Throw e)
    | (this, Ok _) =>
        if negb (present (_originalTemplate this)) then
          Some (set_innerHTML missing_loop_template this, Ok ())
        else
          let template := text (_originalTemplate this) in
          match read_bounds this with
          | Throw e => Some (this, Throw e)
          | Ok b =>
              match for_loop fuel b
                      (λ i outputHtml,
                         match iteration template b i with
                         | Ok iterHtml => Ok (outputHtml +:+ iterHtml)
                         | Throw e => Throw e
                         end)
                      (start b) "" with
              | None => None
              | Some (Throw e) => Some (this, Throw e)
              | Some (Ok outputHtml) =>
                  (* Preserve template and update content *)
                  let templateCopy :=
                    "<template loopid=" +:+ dq +:+ text loopId +:+ dq +:+ ">"
                    +:+ template +:+ "</template>" in
                  Some (set_innerHTML
                          (parseTemplate host watched outputHtml +:+ templateCopy) this,
                        Ok ())
              end
          end
    end.

(** [render] (statejs.js 1200-1276) *)
Definition render (fuel : nat) (this : element) : option element :=
  match render_try fuel this with
  | None => None
  | Some (this, Ok _) => Some this
  | Some (this, Throw error) =>
      Some (set_innerHTML ("❌ for-loop Error: " +:+ message error) this)
  end.

(** [connectedCallback] (statejs.js 1185-1189); an exception of
    [_storeTemplate] leaves it before [render]. *)
Definition connectedCallback (fuel : nat) (this : element)
  : option (element * result unit) :=
  match _storeTemplate this with
  | (this, Ok _) => (λ e, (e, Ok ())) <$> render fuel this
  | (this, Throw e) => Some (this, Throw e)
  end.

End Host.

End CustomForLoop.

(** *** ConditionBlock (statejs.js 1542-1736) *)
Module ConditionBlock.
Import Js Template Elements.

Section Host.

Variable host : scope → string → result jsval.
Variable watched : scope.
Variable selector_error : string → option exn.
Variable template_in : string → string → option string.

(** [_processConditionsRecursive(html)] (statejs.js 1595-1624) builds a
    container of its own from [html], resolves the [if-condition] and
    [else-condition] nodes in it through the host's DOM, and returns the
    container's markup, or throws what the DOM throws.  It reads and
    writes nothing of [this]; it is taken here as the function of [html]
    that the host's DOM makes it. *)
Variable _processConditionsRecursive : string → result string.

Definition _storeTemplate : element → element * result unit :=
  storeTemplate selector_error template_in "ifid".

(** The [try] block of [_evaluateCondition] (statejs.js 1691-1728). *)
Definition evaluateCondition_try (ifEl : element) : result bool :=
  let valueAttr := getAttribute ifEl "value" in
  let eqAttr := getAttribute ifEl "eq" in
  let neqAttr := getAttribute ifEl "neq" in
  let gtAttr := getAttribute ifEl "gt" in
  let ltAttr := getAttribute ifEl "lt" in
  let gteAttr := getAttribute ifEl "gte" in
  let lteAttr := getAttribute ifEl "lte" in
  let value := unsafeEval host watched (text valueAttr) [] in
  match eqAttr, neqAttr, gtAttr, ltAttr, gteAttr, lteAttr with
  | Some a, _, _, _, _, _ =>
      let compare := unsafeEval host watched a [] in Ok (strict_eq value compare)
  | None, Some a, _, _, _, _ =>
      let compare := unsafeEval host watched a [] in Ok (negb (strict_eq value compare))
  | None, None, Some a, _, _, _ =>
      let compare := unsafeEval host watched a [] in gt value compare
  | None, None, None, Some a, _, _ =>
      let compare := unsafeEval host watched a [] in lt value compare
  | None, None, None, None, Some a, _ =>
      let compare := unsafeEval host watched a [] in ge value compare
  | None, None, None, None, None, Some a =>
      let compare := unsafeEval host watched a [] in le value compare
  | None, None, None, None, None, None =>
      (* No comparison operator - treat as boolean *)
      Ok (truthy value)
  end.

(** [_evaluateCondition(ifEl)] (statejs.js 1690-1733) *)
Definition _evaluateCondition (ifEl : element) : bool :=
  match evaluateCondition_try ifEl with
  | Ok b => b
  | Throw error => false   (* catch (error) { console.error(...); return false; } *)
  end.

(** The [try] block of [render] (statejs.js 1564-1583). *)
Definition render_try (this : element) : element * result unit :=
  let ifid := getAttribute this "ifid" in
  if negb (present ifid) then
    (this, Throw (Exn ("condition-block requires " +:+ dq +:+ "ifid" +:+ dq +:+ " attribute")))
  else
    match _storeTemplate this with
    | (this, Throw e) => (this, Throw e)
    | (this, Ok _) =>
        if negb (present (_originalTemplate this)) then
          (set_innerHTML missing_condition_template this, Ok ())
        else
          let template := text (_originalTemplate this) in
          (* Parse template with {{}} expressions first *)
          let html := parseTemplate host watched template in
          (* Process all conditions recursively *)
          match _processConditionsRecursive html with
          | Throw e => (this, Throw e)
          | Ok html =>
              (* Preserve template *)
              let templateCopy :=
                "<template ifid=" +:+ dq +:+ text ifid +:+ dq +:+ ">"
                +:+ template +:+ "</template>" in
              (set_innerHTML (html +:+ templateCopy) this, Ok ())
          end
    end.

(** [render] (statejs.js 1563-1588) *)
Definition render (this : element) : element :=
  match render_try this with
  | (this, Ok _) => this
  | (this, Throw error) =>
      set_innerHTML ("❌ condition-block Error: " +:+ message error) this
  end.

(** [connectedCallback] (statejs.js 1548-1552); an exception of
    [_storeTemplate] leaves it before [render]. *)
Definition connectedCallback (this : element) : element * result unit :=
  match _storeTemplate this with
  | (this, Ok _) => (render this, Ok ())
  | (this, Throw e) => (this, Throw e)
  end.

End Host.

End ConditionBlock.

(* ---------------------------------------------------------------------- *)
(** ** SET STATE (statejs.js 351-438, the older copy, and 1359-1442)       *)
(* ---------------------------------------------------------------------- *)

Module Dispatch.
Import Template.

(** The options of [setState]; an identifier is a string or [false]. *)
Record options := mkOptions {
  loopid : option string;
  stateId : option string;
  ifid : option string;
  states : bool;
  showloader : bool;
  datajs : bool;
  innerhtml : bool;
  loops : bool;
  dataloops : bool;
  templates : bool;
  conditions : bool
}.

(** [setState()] and [setState({})] *)
Definition defaults : options :=
  mkOptions None None None false true true true true true false true.

(** An identifier used as a condition. *)
Definition given (id : option string) : bool :=
  match id with Some s => negb (String.eqb s "") | None => false end.

Definition id_text (id : option string) : string := default "false" id.

(** What [setState] does to the page, node by node. *)
Inductive action :=
| LoaderShow
| LoaderHide
| Render (el : nat)          (* el.render() *)
| DataJs (el : nat)          (* the element's data-js code is evaluated *)
| InnerHtml (el : nat)       (* the element's data-innerhtml is evaluated and assigned *)
| DataLoop (el : nat)        (* renderDataLoops() fills the container *)
| ConsoleError.              (* console.error('setState error:', error) *)

Section Document.

(** [document.querySelectorAll(sel)]: the nodes of the page that match, in
    document order, or the exception for a selector the host cannot
    parse. *)
Variable querySelectorAll : string → outcome unit (list nat).

(** Whether the node has a [render] method, and whether calling it throws
    (that of [StateElement] does when the attribute [stateId] is
    missing). *)
Variable has_render : nat → bool.
Variable render_throws : nat → bool.

(** A run of the [try] block: what was done, and whether an exception
    ended it. *)
Definition run := (list action * bool)%type.

Definition then_ (a b : run) : run :=
  if a.2 then a else ((a.1 ++ b.1)%list, b.2).

Definition skip : run := ([], false).

Definition when (c : bool) (a : run) : run := if c then a else skip.

(** [forEach(el => el.render && el.render())] *)
Fixpoint render_each (els : list nat) : run :=
  match els with
  | [] => skip
  | el :: rest =>
      if has_render el then
        if render_throws el then ([Render el], true)
        else then_ ([Render el], false) (render_each rest)
      else render_each rest
  end.

Definition render_all (sel : string) : run :=
  match querySelectorAll sel with
  | Ok els => render_each els
  | Throw _ => ([], true)
  end.

(** [forEach] over the matches with a body that catches its own
    exceptions. *)
Definition each (f : nat → action) (sel : string) : run :=
  match querySelectorAll sel with
  | Ok els => (f <$> els, false)
  | Throw _ => ([], true)
  end.

Definition by_id (tag attr : string) (id : option string) : string :=
  tag +:+ "[" +:+ attr +:+ "=" +:+ dq +:+ id_text id +:+ dq +:+ "]".

(** The part both copies share: statejs.js 385-430 and 1389-1434. *)
Definition refresh_categories (o : options) : run :=
  then_ (when (datajs o) (each DataJs "[data-js]"))
  (then_ (when (innerhtml o) (each InnerHtml "[data-innerhtml]"))
  (then_ (when (loops o) (render_all "for-loop"))
  (then_ (when (dataloops o) (each DataLoop "[data-loop]"))
  (then_ (when (templates o) (render_all "include-template"))
  (then_ (when (conditions o) (render_all "condition-block"))
         (when (states o) (render_all "state-element"))))))).

(** [try { ... } catch (error) { if (showloader) loader.hide();
    console.error(...) }] around a body whose normal end hides the loader
    itself. *)
Definition guarded (o : options) (body : run) : list action :=
  ((if showloader o then [LoaderShow] else []) ++ body.1 ++
   (if showloader o then [LoaderHide] else []) ++
   (if body.2 then [ConsoleError] else []))%list.

(** The older [setState] (statejs.js 351-438): a call with an identifier
    refreshes the nodes it names and returns. *)
Definition setState_older (o : options) : list action :=
  guarded o
    (if given (loopid o) then render_all (by_id "for-loop" "loopid" (loopid o))
     else if given (ifid o) then render_all (by_id "condition-block" "ifid" (ifid o))
     else if given (stateId o) then
       render_all ("state-element[stateId=" +:+ id_text (stateId o) +:+ "]")
     else refresh_categories o).

(** The current [setState] (statejs.js 1359-1442). *)
Definition setState (o : options) : list action :=
  guarded o
    (then_ (when (given (loopid o)) (render_all (by_id "for-loop" "loopid" (loopid o))))
    (then_ (when (given (ifid o)) (render_all (by_id "condition-block" "ifid" (ifid o))))
    (then_ (when (given (stateId o)) (render_all (by_id "state-element" "stateId" (stateId o))))
           (refresh_categories o)))).

End Document.

End Dispatch.

(* ---------------------------------------------------------------------- *)
(** ** A host for the examples                                             *)
(* ---------------------------------------------------------------------- *)

(** The theorems of Part II hold for every host.  Their examples need one:
    this evaluator reads a sum of integer literals, single-quoted string
    literals and names of the scope, each name optionally followed by one
    [.field].  A name that is not in scope is a reference error, any other
    text a syntax error. *)
Module Demo.
Import Js Template.

Definition quote : ascii := ascii_of_nat 39.

(** The summands of [a + b + ...], cut at each [+] outside a literal. *)
Fixpoint summands (in_literal : bool) (cur : string) (s : string) : list string :=
  match s with
  | EmptyString => [cur]
  | String c s' =>
      if Ascii.eqb c quote then summands (negb in_literal) (cur +:+ String c "") s'
      else if Ascii.eqb c "+" && negb in_literal then cur :: summands false "" s'
      else summands in_literal (cur +:+ String c "") s'
  end.

(** The text of a literal ['...']. *)
Fixpoint until_quote (s : string) : option string :=
  match s with
  | EmptyString => None
  | String c s' =>
      if Ascii.eqb c quote then (if String.eqb s' "" then Some "" else None)
      else String c <$> until_quote s'
  end.

Fixpoint cut_at_dot (s : string) : string * option string :=
  match s with
  | EmptyString => ("", None)
  | String c s' =>
      if Ascii.eqb c "." then ("", Some s')
      else let '(a, b) := cut_at_dot s' in (String c a, b)
  end.

Definition lookup (name : string) (sc : scope) : option jsval :=
  snd <$> List.find (λ kv, String.eqb (fst kv) name) sc.

Definition atom (sc : scope) (a : string) : result jsval :=
  match trim a with
  | EmptyString => Throw (Exn "Unexpected token")
  | String c rest as t =>
      if Ascii.eqb c quote then
        match until_quote rest with
        | Some lit => Ok (JStr lit)
        | None => Throw (Exn "Invalid or unexpected token")
        end
      else
        match digits 10 0 0 t with
        | (n, S _, EmptyString) => Ok (JNum n)
        | _ =>
            let '(base, field) := cut_at_dot t in
            match lookup base sc, field with
            | None, _ => Throw (Exn (base +:+ " is not defined"))
            | Some v, None => Ok v
            | Some (JObj _ fields), Some f => Ok (default JUndef (lookup f fields))
            | Some (JUndef | JNull), Some f =>
                Throw (Exn "Cannot read properties of undefined")
            | Some _, Some f => Ok JUndef
            end
        end
  end.

(** [x + y] *)
Definition plus (x y : jsval) : result jsval :=
  match to_primitive x with
  | Ok px =>
      match to_primitive y with
      | Ok py =>
          match px, py with
          | PStr _, _ | _, PStr _ =>
              let str p := match p with
                           | PStr s => s
                           | PUndef => "undefined"
                           | PNull => "null"
                           | PBool b => if b then "true" else "false"
                           | PNum (Some n) => pretty n
                           | PNum None => "NaN"
                           end in
              Ok (JStr (str px +:+ str py))
          | _, _ =>
              Ok (match prim_to_number px, prim_to_number py with
                  | Some a, Some b => JNum (a + b)
                  | _, _ => JNaN
                  end)
          end
      | Throw e => Throw e
      end
  | Throw e => Throw e
  end.

Fixpoint sum (sc : scope) (acc : jsval) (l : list string) : result jsval :=
  match l with
  | [] => Ok acc
  | a :: l' =>
      match atom sc a with
      | Ok v =>
          match plus acc v with
          | Ok w => sum sc w l'
          | Throw e => Throw e
          end
      | Throw e => Throw e
      end
  end.

Definition host (sc : scope) (expression : string) : result jsval :=
  match summands false "" expression with
  | [] => Throw (Exn "Unexpected token")
  | a :: l =>
      match atom sc a with
      | Ok v => sum sc v l
      | Throw e => Throw e
      end
  end.

(** A selector engine for the examples.  Every selector parses.  The
    templates of a content are looked for as the text [<template ...>]
    ... [</template>]; one matches [template[test]] when its tag holds the
    text [test]. *)
Definition no_selector_error (sel : string) : option exn := None.

Fixpoint drop (n : nat) (s : string) : string :=
  match n, s with
  | S n', String _ s' => drop n' s'
  | _, _ => s
  end.

(** The text before and after the first [pat] in [s]. *)
Fixpoint cut (pat s : string) : option (string * string) :=
  if String.prefix pat s then Some ("", drop (String.length pat) s)
  else
    match s with
    | String c s' => (λ ba, (String c ba.1, ba.2)) <$> cut pat s'
    | EmptyString => None
    end.

Fixpoint first_template (fuel : nat) (test content : string) : option string :=
  match fuel with
  | 0 => None
  | S fuel' =>
      match cut "<template " content with
      | None => None
      | Some (_, after) =>
          match cut ">" after with
          | None => None
          | Some (tag, rest) =>
              match cut test tag, cut "</template>" rest with
              | Some _, Some (inner, _) => Some inner
              | _, _ => first_template fuel' test rest
              end
          end
      end
  end.

Definition template_in (content sel : string) : option string :=
  match cut "<template " content with
  | None => None
  | Some _ =>
      match cut "[" sel with
      | Some (_, after) =>
          match cut "]" after with
          | Some (test, _) => first_template (String.length content) test content
          | None => None
          end
      | None => None
      end
  end.

(** A page with no template in it. *)
Definition no_template (content sel : string) : option string := None.

(** A host that replaces a word wherever its text stands. *)
Definition replace_word (name by_ s : string) : result string :=
  Ok (replace_all name by_ 0 s).

End Demo.

(* ---------------------------------------------------------------------- *)
(** ** STATE ELEMENT (statejs.js 1753-1785)                                *)
(* ---------------------------------------------------------------------- *)

Module StateElement.
Import Js Template Elements.

Definition missing_state_template : string :=
  "❌ state-element: Missing template with matching stateId".

Section Host.

Variable host : scope → string → result jsval.
Variable watched : scope.
Variable selector_error : string → option exn.
Variable template_in : string → string → option string.

(** [_storeTemplate] (statejs.js 1763-1770) *)
Definition _storeTemplate : element → element * result unit :=
  storeTemplate selector_error template_in "stateId".

(** [render] (statejs.js 1771-1784).  There is no [try] in it: what it
    throws reaches the caller.  The element comes back as the method left
    it. *)
Definition render (this : element) : element * result unit :=
  let stateId := getAttribute this "stateId" in
  if negb (present stateId) then
    (this, Throw (Exn ("state-element requires " +:+ dq +:+ "stateId" +:+ dq +:+ " attribute")))
  else
    (* Get or restore template *)
    match _storeTemplate this with
    | (this, Throw e) => (this, Throw e)
    | (this, Ok _) =>
        if negb (present (_originalTemplate this)) then
          (set_innerHTML missing_state_template this, Ok ())
        else
          let template := text (_originalTemplate this) in
          let html := parseTemplate host watched template in
          let templateCopy :=
            "<template stateId=" +:+ dq +:+ text stateId +:+ dq +:+ ">"
            +:+ template +:+ "</template>" in
          (set_innerHTML (html +:+ templateCopy) this, Ok ())
    end.

(** [connectedCallback] (statejs.js 1758-1762) *)
Definition connectedCallback (this : element) : element * result unit :=
  match _storeTemplate this with
  | (this, Ok _) => render this
  | (this, Throw e) => (this, Throw e)
  end.

End Host.

End StateElement.

(* ---------------------------------------------------------------------- *)
(** ** DATA-LOOP (statejs.js 1281-1340)                                    *)
(* ---------------------------------------------------------------------- *)

Module DataLoop.
Import Js Template Elements.

Section Host.

Variable host : scope → string → result jsval.
Variable watched : scope.

(** [s.replace(new RegExp(`\\b${name}\\b`, 'g'), by)], as for the loop
    element. *)
Variable replace_word : string → string → string → result string.

(** [document.querySelector(sel)] followed by [.innerHTML]:
    [selector_error sel] is the exception for a selector the host cannot
    parse, [document_template sel] the content of the first node of the
    page that [sel] matches, if there is one. *)
Variable selector_error : string → option exn.
Variable document_template : string → option string.

(** One turn of the loop (statejs.js 1316-1332): the markup for index
    [i]. *)
Definition iteration (template valueVar indexVar : string) (array : jsval) (i : Z)
  : result string :=
  let loopValue := index array i in
  let loopIndex := JNum i in
  match replace_word valueVar "loopValue" template with
  | Ok h1 =>
      match replace_word indexVar "loopIndex" h1 with
      | Ok iterHtml =>
          Ok (replace_dollar
                (λ match_ expr,
                   let result :=
                     unsafeEval host watched expr
                       [("loopValue", loopValue); ("loopIndex", loopIndex)] in
                   match (if defined result then String_ result else Ok "") with
                   | Ok s => s
                   | Throw e => match_
                   end)
                None iterHtml)
      | Throw e => Throw e
      end
  | Throw e => Throw e
  end.

(** The loop [for (let i = 0; i < array.length; i++)] with [body] run on
    each [i]; [None] when [fuel] turns do not end it. *)
Fixpoint loop (fuel : nat) (array : jsval) (body : Z → string → result string)
    (i : Z) (outputHtml : string) : option (result string) :=
  match lt (JNum i) (length_of array) with
  | Ok true =>
      match fuel with
      | 0 => None
      | S fuel' =>
          match body i outputHtml with
          | Ok out => loop fuel' array body (i + 1)%Z out
          | Throw e => Some (Throw e)
          end
      end
  | Ok false => Some (Ok outputHtml)
  | Throw e => Some (Throw e)
  end.

(** [unsafeEval(arrayName) || []] *)
Definition read_array (container : element) : jsval :=
  let arrayName := getAttribute container "data-loop" in
  let v := unsafeEval host watched (default "undefined" arrayName) [] in
  if truthy v then v else JArr 0 [].

(** What [renderDataLoops] does to one container: the body of its
    [forEach] (statejs.js 1292-1338), whose [catch] leaves the container
    as it is.  The attributes [data-loop], [data-template], [data-value]
    and [data-index] are the container's [dataset]. *)
Definition render_container (fuel : nat) (container : element) : option element :=
  let templateSelector := getAttribute container "data-template" in
  let valueVar := CustomForLoop.or_text (getAttribute container "data-value") "value" in
  let indexVar := CustomForLoop.or_text (getAttribute container "data-index") "index" in
  if negb (present templateSelector) then Some container
  else
    match selector_error (text templateSelector) with
    | Some e => Some container
    | None =>
        match document_template (text templateSelector) with
        | None => Some container
        | Some template =>
            let array := read_array container in
            match loop fuel array
                    (λ i outputHtml,
                       match iteration template valueVar indexVar array i with
                       | Ok iterHtml => Ok (outputHtml +:+ iterHtml)
                       | Throw e => Throw e
                       end)
                    0 "" with
            | None => None
            | Some (Ok outputHtml) =>
                Some (set_innerHTML (parseTemplate host watched outputHtml) container)
            | Some (Throw e) => Some container
            end
        end
    end.

End Host.

End DataLoop.

(* ---------------------------------------------------------------------- *)
(** ** LOADER MODULE (statejs.js 879-936)                                  *)
(* ---------------------------------------------------------------------- *)

Module Loader.
Import Template Elements.

(** What the loader sees of the document: the content of every element of
    class [httl-loader-overlay], in document order, and whether an element
    with the id [httl-loader-styles] is there. *)
Record document := mkDocument {
  overlays : list string;
  styles : bool
}.

Definition spinner : string :=
  "<div class=" +:+ dq +:+ "httl-spinner" +:+ dq +:+ "></div>".

(** [_addStyles] (statejs.js 915-935) *)
Definition _addStyles (d : document) : document :=
  if styles d then d else mkDocument (overlays d) true.

(** [show(customHtml = null)] (statejs.js 895-905) *)
Definition show (customHtml : option string) (d : document) : document :=
  match overlays d with
  | _ :: _ => d                             (* Already showing *)
  | [] =>
      let d := _addStyles d in
      let loaderHtml := if present customHtml then text customHtml else spinner in
      mkDocument
        (overlays d ++ ["<div class=" +:+ dq +:+ "httl-loader-content" +:+ dq +:+ ">"
                        +:+ loaderHtml +:+ "</div>"])%list
        (styles d)
  end.

(** [hide()] (statejs.js 910-913) *)
Definition hide (d : document) : document :=
  match overlays d with
  | _ :: rest => mkDocument rest (styles d)
  | [] => d
  end.

(** Calls of the loader, and a sequence of them. *)
Inductive call := Show (customHtml : option string) | Hide.

Definition step (d : document) (c : call) : document :=
  match c with
  | Show customHtml => show customHtml d
  | Hide => hide d
  end.

Definition run (calls : list call) (d : document) : document :=
  foldl step d calls.

End Loader.

(* ---------------------------------------------------------------------- *)
(** ** URL UTILITIES (statejs.js 1444-1460)                                *)
(* ---------------------------------------------------------------------- *)

Module Urls.
Import Js Template.

Definition sq : string := String (ascii_of_nat 39) EmptyString.

Definition is_quote (c : ascii) : bool :=
  Ascii.eqb c (ascii_of_nat 34) || Ascii.eqb c (ascii_of_nat 39).

(** [s.lastIndexOf(c)]: the index of the last [c] in [s], or -1. *)
Fixpoint lastIndexOf (c : ascii) (s : string) : Z :=
  match s with
  | EmptyString => (-1)%Z
  | String d s' =>
      let r := lastIndexOf c s' in
      if (0 <=? r)%Z then (r + 1)%Z
      else if Ascii.eqb d c then 0%Z else (-1)%Z
  end.

Fixpoint take (n : nat) (s : string) : string :=
  match n, s with
  | S n', String c s' => String c (take n' s')
  | _, _ => EmptyString
  end.

(** [s.substring(0, end)]: a negative [end] counts as 0, one past the end
    as the length. *)
Definition substring_to (end_ : Z) (s : string) : string :=
  take (Z.to_nat end_) s.

Section Host.

(** [anchor.href = relativeUrl; anchor.pathname]: the path of the URL as
    the host resolves it against the page's. *)
Variable pathname : string → string.

(** [extractDirectory] (statejs.js 1456-1460) *)
Definition extractDirectory (relativeUrl : string) : string :=
  let p := pathname relativeUrl in
  substring_to (lastIndexOf "/" p) p.

End Host.

End Urls.

(* ---------------------------------------------------------------------- *)
(** ** CONDITION BLOCK - RECURSIVE PROCESSING (statejs.js 1590-1685)       *)
(* ---------------------------------------------------------------------- *)

Module ConditionDom.
Import Js Template Elements.

(** *** The host's DOM, as far as the processing of conditions uses it *)

(** A node: text (or anything that is no element), or an element with its
    identity, its [tagName] as the DOM gives it (upper case), its
    attributes and its [childNodes]. *)
Inductive node :=
| Text (data : string)
| Element (id : nat) (tagName : string) (attributes : gmap string string)
    (childNodes : list node).

Definition id_of (n : node) : option nat :=
  match n with Text _ => None | Element id _ _ _ => Some id end.

Definition has_id (i : nat) (n : node) : bool :=
  match n with Text _ => false | Element id _ _ _ => (id =? i)%nat end.

Definition childNodes_of (n : node) : list node :=
  match n with Text _ => [] | Element _ _ _ cs => cs end.

Definition attributes_of (n : node) : gmap string string :=
  match n with Text _ => ∅ | Element _ _ a _ => a end.

Definition tagName_of (n : node) : string :=
  match n with Text _ => "" | Element _ t _ _ => t end.

(** The elements of a tree in document order, its root first. *)
Fixpoint elements (n : node) : list node :=
  match n with
  | Text _ => []
  | Element _ _ _ cs => n :: flat_map elements cs
  end.

(** The elements below a node: what [querySelector] and [querySelectorAll]
    on it look at. *)
Definition descendants (n : node) : list node := flat_map elements (childNodes_of n).

(** [a.contains(b)], for the element [b] with identity [i]. *)
Definition contains (a : node) (i : nat) : bool :=
  existsb (has_id i) (elements a).

(** The element with identity [i] in a tree. *)
Definition find (i : nat) (root : node) : option node :=
  List.find (has_id i) (elements root).

(** The elements that hold the element [i] without being it, the nearest
    first. *)
Definition ancestors (i : nat) (root : node) : list node :=
  rev (filter (λ n, negb (has_id i n) && existsb (has_id i) (descendants n)) (elements root)).

(** [parentNode] of the element [i] in a tree, when it has one there. *)
Definition parentNode (i : nat) (root : node) : option node :=
  List.find (λ n, existsb (has_id i) (childNodes_of n)) (elements root).

(** An edit of the child list that holds the element [i]: [f] is given the
    children before it, the element and the children after it. *)
Fixpoint split_at (i : nat) (cs : list node) : option (list node * node * list node) :=
  match cs with
  | [] => None
  | c :: cs' =>
      if has_id i c then Some ([], c, cs')
      else
        match split_at i cs' with
        | Some (before, x, after) => Some (c :: before, x, after)
        | None => None
        end
  end.

Section Edit.

Variable i : nat.
Variable f : list node → node → list node → list node.

Fixpoint edit (n : node) : option node :=
  match n with
  | Text _ => None
  | Element id t a cs =>
      match split_at i cs with
      | Some (before, x, after) => Some (Element id t a (f before x after))
      | None =>
          (fix go (cs : list node) : option (list node) :=
             match cs with
             | [] => None
             | c :: cs' =>
                 match edit c with
                 | Some c' => Some (c' :: cs')
                 | None =>
                     match go cs' with
                     | Some cs'' => Some (c :: cs'')
                     | None => None
                     end
                 end
             end) cs
          ≫= λ cs', Some (Element id t a cs')
      end
  end.

End Edit.

(** The page as the processing sees it: the container it works on, and the
    trees it has taken out of it, which the list of if-nodes of a pass may
    still point into. *)
Record dom := mkDom {
  container : node;
  detached : list node
}.

Definition trees (d : dom) : list node := container d :: detached d.

(** The tree that holds the element [i], with its place among the trees. *)
Fixpoint tree_of (i : nat) (ts : list node) : option (list node * node * list node) :=
  match ts with
  | [] => None
  | t :: ts' =>
      if contains t i then Some ([], t, ts')
      else
        match tree_of i ts' with
        | Some (before, x, after) => Some (t :: before, x, after)
        | None => None
        end
  end.

Definition of_trees (ts : list node) (d : dom) : dom :=
  match ts with
  | c :: rest => mkDom c rest
  | [] => d
  end.

(** The element [i], wherever it is. *)
Definition node_of (i : nat) (d : dom) : option node :=
  match tree_of i (trees d) with
  | Some (_, t, _) => find i t
  | None => None
  end.

(** [el.remove()] for the element [i]: it leaves its parent, with all that
    is below it, and is a tree of its own from then on; an element without
    a parent stays where it is. *)
Definition remove (i : nat) (d : dom) : dom :=
  match tree_of i (trees d) with
  | Some (before, t, after) =>
      match find i t, edit i (λ b _ a, b ++ a)%list t with
      | Some x, Some t' => of_trees (before ++ t' :: after ++ [x])%list d
      | _, _ => d
      end
  | None => d
  end.

Definition no_parent : exn :=
  Exn "Cannot read properties of null (reading 'replaceChild')".

(** The element [i] replaced by its child nodes (statejs.js 1667-1671 and
    1678-1682): a fragment takes them one by one and
    [parentNode.replaceChild(fragment, el)] puts them in the place of the
    element, which is left alone and empty.  Without a parent, reading
    [parentNode.replaceChild] throws; the children are in the fragment by
    then. *)
Definition unwrap (i : nat) (d : dom) : result dom :=
  match tree_of i (trees d) with
  | Some (before, t, after) =>
      match find i t with
      | Some (Element id tag a cs as x) =>
          match edit i (λ b _ a, b ++ cs ++ a)%list t with
          | Some t' => Ok (of_trees (before ++ t' :: after ++ [Element id tag a []])%list d)
          | None => Throw no_parent
          end
      | _ => Ok d
      end
  | None => Ok d
  end.

Section Host.

Variable host : scope → string → result jsval.
Variable watched : scope.

(** The host's selector engine: [selector_error sel] is the exception for
    a selector it cannot parse, [matches sel n] whether the element [n]
    matches [sel]. *)
Variable selector_error : string → option exn.
Variable matches : string → node → bool.

(** [root.querySelectorAll(sel)] and [root.querySelector(sel)] *)
Definition querySelectorAll (sel : string) (root : node) : result (list node) :=
  match selector_error sel with
  | Some e => Throw e
  | None => Ok (filter (λ n, matches sel n = true) (descendants root))
  end.

Definition querySelector (sel : string) (root : node) : result (option node) :=
  match querySelectorAll sel root with
  | Ok l => Ok (head l)
  | Throw e => Throw e
  end.

(** [el.closest(sel)] for an element that does not match [sel] itself. *)
Definition closest (sel : string) (i : nat) (d : dom) : result (option node) :=
  match selector_error sel with
  | Some e => Throw e
  | None =>
      Ok (match tree_of i (trees d) with
          | Some (_, t, _) => head (filter (λ n, matches sel n = true) (ancestors i t))
          | None => None
          end)
  end.

Definition getAttribute (n : node) (name : string) : option string :=
  attributes_of n !! name.

Definition by_elseid (tag : string) (elseid : option string) : string :=
  tag +:+ "[elseid=" +:+ dq +:+ text elseid +:+ dq +:+ "]".

(** The test of statejs.js 1607-1617: whether the if-node [ifEl] is left
    for a later pass. *)
Definition left_for_later (ifEl : nat) (d : dom) : result bool :=
  match closest "else-condition" ifEl d with
  | Throw e => Throw e
  | Ok None => Ok false
  | Ok (Some parentElse) =>
      match id_of parentElse with
      | Some pe =>
          if contains (container d) pe then
            let elseid := getAttribute parentElse "elseid" in
            match querySelector (by_elseid "if-condition" elseid) (container d) with
            | Throw e => Throw e
            | Ok None => Ok false
            | Ok (Some correspondingIf) =>
                Ok (negb (has_id ifEl correspondingIf)
                    && negb (match node_of ifEl d, id_of correspondingIf with
                             | Some n, Some c => contains n c
                             | _, _ => false
                             end))
            end
          else Ok false
      | None => Ok false
      end
  end.

(** The else-node of an if-node (statejs.js 1642-1660): the first element
    child of its parent that is an [else-condition] with the [elseid], or
    else the first such node of the container. *)
Definition else_of (ifEl : nat) (elseid : string) (d : dom) : result (option node) :=
  let sibling :=
    match tree_of ifEl (trees d) with
    | Some (_, t, _) =>
        match parentNode ifEl t with
        | Some parent =>
            List.find
              (λ sibling,
                 String.eqb (tagName_of sibling) "ELSE-CONDITION"
                 && bool_decide (getAttribute sibling "elseid" = Some elseid))
              (filter (λ c, is_Some (id_of c)) (childNodes_of parent))
        | None => None
        end
    | None => None
    end in
  match sibling with
  | Some elseEl => Ok (Some elseEl)
  | None => querySelector (by_elseid "else-condition" (Some elseid)) (container d)
  end.

(** [_processSingleIfElse(container, ifEl)] (statejs.js 1629-1685) *)
Definition _processSingleIfElse (ifEl : nat) (d : dom) : result dom :=
  match node_of ifEl d with
  | None => Ok d
  | Some n =>
      let elseid := CustomForLoop.or_text (getAttribute n "elseid") "" in
      let valueAttr := getAttribute n "value" in
      if negb (present valueAttr) then Ok (remove ifEl d)
      else
        (* Evaluate the condition *)
        let conditionResult :=
          ConditionBlock._evaluateCondition host watched
            (mkElement (attributes_of n) None "") in
        (* Find the corresponding else-condition *)
        match (if negb (String.eqb elseid "") then else_of ifEl elseid d else Ok None) with
        | Throw e => Throw e
        | Ok elseEl =>
            let elseId := elseEl ≫= id_of in
            if conditionResult then
              (* Condition TRUE: keep if content, remove else *)
              let d := match elseId with Some j => remove j d | None => d end in
              unwrap ifEl d
            else
              (* Condition FALSE: remove if, unwrap else content *)
              let d := remove ifEl d in
              match elseId with
              | Some j => unwrap j d
              | None => Ok d
              end
        end
  end.

(** The [for] loop over the if-nodes of one pass (statejs.js 1606-1620),
    which are kept by identity. *)
Fixpoint for_each (ifElements : list nat) (d : dom) : result dom :=
  match ifElements with
  | [] => Ok d
  | ifEl :: rest =>
      match left_for_later ifEl d with
      | Throw e => Throw e
      | Ok true => for_each rest d
      | Ok false =>
          match _processSingleIfElse ifEl d with
          | Ok d' => for_each rest d'
          | Throw e => Throw e
          end
      end
  end.

(** [while (container.querySelector('if-condition') && maxIterations-- > 0)]
    (statejs.js 1602-1621) *)
Fixpoint passes (maxIterations : nat) (d : dom) : result dom :=
  match querySelector "if-condition" (container d) with
  | Throw e => Throw e
  | Ok None => Ok d
  | Ok (Some _) =>
      match maxIterations with
      | 0 => Ok d
      | S m =>
          match querySelectorAll "if-condition" (container d) with
          | Throw e => Throw e
          | Ok ifElements =>
              match for_each (omap id_of ifElements) d with
              | Ok d' => passes m d'
              | Throw e => Throw e
              end
          end
      end
  end.

(** The host's parser and serialiser: [container.innerHTML = html] on a
    new [div], whose child nodes [parse html] gives, and
    [container.innerHTML] read back. *)
Variable parse : string → list node.
Variable serialize : list node → string.

(** [_processConditionsRecursive(html)] (statejs.js 1595-1624) *)
Definition _processConditionsRecursive (html : string) : result string :=
  let div := Element 0 "DIV" ∅ (parse html) in
  match passes 100 (mkDom div []) with
  | Ok d => Ok (serialize (childNodes_of (container d)))
  | Throw e => Throw e
  end.

End Host.

End ConditionDom.

(** A DOM for the examples: a selector engine that knows a tag name, or a
    tag name with one [elseid] test; a parser for markup made of text and
    of elements written [<name a='v' ...>] ... [</name>], which numbers
    the elements from 1 in document order; and a serialiser that writes
    tags without their attributes. *)
Module DemoDom.
Import Js Template Elements Urls ConditionDom.

Definition upper_ascii (c : ascii) : ascii :=
  let n := nat_of_ascii c in
  if ((97 <=? n) && (n <=? 122))%nat then ascii_of_nat (n - 32) else c.

Fixpoint upper (s : string) : string :=
  match s with
  | EmptyString => EmptyString
  | String c s' => String (upper_ascii c) (upper s')
  end.

Definition demo_matches (sel : string) (n : node) : bool :=
  match Demo.cut "[elseid=" sel with
  | None => String.eqb (tagName_of n) (upper sel)
  | Some (tag, rest) =>
      String.eqb (tagName_of n) (upper tag)
      && match Demo.cut dq (Demo.drop 1 rest) with
         | Some (v, _) => bool_decide (attributes_of n !! "elseid" = Some v)
         | None => false
         end
  end.

Fixpoint markup_of (n : node) : string :=
  match n with
  | Text t => t
  | Element _ tag _ cs =>
      "<" +:+ tag +:+ ">" +:+ String.concat "" (map markup_of cs) +:+ "</" +:+ tag +:+ ">"
  end.

Definition markup (l : list node) : string := String.concat "" (map markup_of l).

(** The longest start of [s] made of characters that pass [p], and what
    follows it. *)
Fixpoint span (p : ascii → bool) (s : string) : string * string :=
  match s with
  | EmptyString => (EmptyString, EmptyString)
  | String c s' =>
      if p c then let '(a, b) := span p s' in (String c a, b)
      else (EmptyString, s)
  end.

Definition in_name (c : ascii) : bool :=
  negb (Ascii.eqb c " " || Ascii.eqb c ">" || Ascii.eqb c "/" || Ascii.eqb c "="
        || Ascii.eqb c "<").

(** The attributes of a start tag, up to its [>]. *)
Fixpoint tag_attributes (fuel : nat) (s : string) (acc : gmap string string)
  : option (gmap string string * string) :=
  match fuel with
  | 0 => None
  | S fuel' =>
      match s with
      | EmptyString => None
      | String c rest =>
          if Ascii.eqb c ">" then Some (acc, rest)
          else if Ascii.eqb c " " then tag_attributes fuel' rest acc
          else
            let '(name, r1) := span in_name s in
            match r1 with
            | String eq_ (String q r2) =>
                if Ascii.eqb eq_ "=" && is_quote q then
                  let '(v, r3) := span (λ d, negb (Ascii.eqb d q)) r2 in
                  tag_attributes fuel' (Demo.drop 1 r3) (<[name := v]> acc)
                else None
            | _ => None
            end
      end
  end.

(** The nodes written at the start of [s], up to the end tag that closes
    their parent; with them, the next free number and the markup after
    that end tag. *)
Fixpoint nodes (fuel : nat) (next : nat) (s : string) : list node * nat * string :=
  match fuel with
  | 0 => ([], next, EmptyString)
  | S fuel' =>
      match s with
      | EmptyString => ([], next, EmptyString)
      | String c r =>
          if Ascii.eqb c "<" then
            match r with
            | String d r' =>
                if Ascii.eqb d "/" then
                  ([], next, Demo.drop 1 (span (λ x, negb (Ascii.eqb x ">")) r').2)
                else
                  let '(name, r1) := span in_name r in
                  match tag_attributes fuel' r1 ∅ with
                  | Some (a, r2) =>
                      let '(kids, next1, r3) := nodes fuel' (S next) r2 in
                      let '(siblings, next2, r4) := nodes fuel' next1 r3 in
                      (Element next (upper name) a kids :: siblings, next2, r4)
                  | None => ([Text s], next, EmptyString)
                  end
            | EmptyString => ([Text s], next, EmptyString)
            end
          else
            let '(t, r1) := span (λ x, negb (Ascii.eqb x "<")) s in
            let '(siblings, next1, r2) := nodes fuel' next r1 in
            (Text t :: siblings, next1, r2)
      end
  end.

Definition parse (html : string) : list node :=
  (nodes (S (String.length html)) 1 html).1.1.

End DemoDom.

(* ---------------------------------------------------------------------- *)
(** ** URL UTILITIES - RELATIVE LINKS (statejs.js 1448-1454)               *)
(* ---------------------------------------------------------------------- *)

Module Links.
Import Js Template Urls.

(** [s.startsWith(p)], with what follows [p] in [s]. *)
Fixpoint strip (p s : string) : option string :=
  match p, s with
  | EmptyString, _ => Some s
  | String a p', String b s' => if Ascii.eqb a b then strip p' s' else None
  | String _ _, EmptyString => None
  end.

(** *** The pattern [/(?:src|href)=Q(\.\/?[^Q]+)Q/]

    [Q] stands here for the class of the two quote characters, double and
    single.  Each function matches a part of the pattern at the start of
    a string, the way the host's matcher does: a repetition takes as much
    as it can and gives back what the rest of the pattern needs. *)

(** [[^Q]+Q]: the run, the quote that ends it and the text after. *)
Fixpoint run_then_quote (s : string) : option (string * ascii * string) :=
  match s with
  | EmptyString => None
  | String c s' =>
      if is_quote c then None
      else
        match run_then_quote s' with
        | Some (run, q, rest) => Some (String c run, q, rest)
        | None =>
            match s' with
            | String q rest =>
                if is_quote q then Some (String c EmptyString, q, rest) else None
            | EmptyString => None
            end
        end
  end.

(** [(\.\/?[^Q]+)Q]: the group, the quote and the text after.  The
    slash is taken when there is one, and given back when nothing but the
    quote follows it. *)
Definition url_then_quote (s : string) : option (string * ascii * string) :=
  match s with
  | String dot s1 =>
      if Ascii.eqb dot "." then
        let without_slash :=
          match run_then_quote s1 with
          | Some (run, q, rest) => Some (String dot run, q, rest)
          | None => None
          end in
        match s1 with
        | String slash s2 =>
            if Ascii.eqb slash "/" then
              match run_then_quote s2 with
              | Some (run, q, rest) => Some (String dot (String slash run), q, rest)
              | None => without_slash
              end
            else without_slash
        | EmptyString => without_slash
        end
      else None
  | EmptyString => None
  end.

(** [=Q(...)Q] after the attribute name [name]: the match, the group
    and the text after the match. *)
Definition attribute_here (name s : string) : option (string * string * string) :=
  match strip (name +:+ "=") s with
  | Some (String q s1) =>
      if is_quote q then
        match url_then_quote s1 with
        | Some (url, q', rest) =>
            Some (name +:+ "=" +:+ String q url +:+ String q' EmptyString, url, rest)
        | None => None
        end
      else None
  | _ => None
  end.

(** The whole pattern at the start of [s]. *)
Definition match_here (s : string) : option (string * string * string) :=
  match attribute_here "src" s with
  | Some m => Some m
  | None => attribute_here "href" s
  end.

(** *** [s.replace(pattern, replacement)] for two strings *)

(** The text before the first occurrence of [pattern] in [s], and the
    text after it. *)
Fixpoint cut_first (pattern s : string) : option (string * string) :=
  match strip pattern s with
  | Some after => Some (EmptyString, after)
  | None =>
      match s with
      | EmptyString => None
      | String c s' =>
          match cut_first pattern s' with
          | Some (before, after) => Some (String c before, after)
          | None => None
          end
      end
  end.

(** The replacement text, with its [$] patterns filled in: [$$] is a
    dollar, [$&] the matched text, [$`] the text before the match and
    [$'] the text after it; with a string for a pattern there are no
    groups, and every other [$] stands for itself. *)
Fixpoint expand (matched before after replacement : string) : string :=
  match replacement with
  | EmptyString => EmptyString
  | String c r =>
      if Ascii.eqb c "$" then
        match r with
        | String d r' =>
            if Ascii.eqb d "$" then String "$" (expand matched before after r')
            else if Ascii.eqb d "&" then matched +:+ expand matched before after r'
            else if Ascii.eqb d "`" then before +:+ expand matched before after r'
            else if Ascii.eqb d (ascii_of_nat 39) then after +:+ expand matched before after r'
            else String c (expand matched before after r)
        | EmptyString => String c EmptyString
        end
      else String c (expand matched before after r)
  end.

Definition replace (pattern replacement s : string) : string :=
  match cut_first pattern s with
  | Some (before, after) => before +:+ expand pattern before after replacement +:+ after
  | None => s
  end.

Section Host.

(** [new URL(url, baseUrl).href], or the exception of the constructor. *)
Variable resolve : string → string → result string.

(** The function given to the outer [replace] (statejs.js 1449-1453) *)
Definition absolute (baseUrl match_ url : string) : string :=
  match resolve url baseUrl with
  | Ok href => replace url href match_
  | Throw _ => match_
  end.

(** [htmlString.replace(/.../g, f)]: the pattern is tried at each index
    from the end of the last match on; [inside] counts the characters
    still to pass that belong to a match. *)
Fixpoint replace_matches (baseUrl : string) (inside : nat) (s : string) : string :=
  match s with
  | EmptyString => EmptyString
  | String c s' =>
      match inside with
      | S n => replace_matches baseUrl n s'
      | 0 =>
          match match_here s with
          | Some (m, url, _) =>
              absolute baseUrl m url +:+ replace_matches baseUrl (String.length m - 1) s'
          | None => String c (replace_matches baseUrl 0 s')
          end
      end
  end.

(** [convertRelativeToAbsolute] (statejs.js 1448-1454) *)
Definition convertRelativeToAbsolute (htmlString baseUrl : string) : string :=
  replace_matches baseUrl 0 htmlString.

End Host.

End Links.

(* ====================================================================== *)
(** * Part II.  Properties                                                 *)
(* ====================================================================== *)

(** ** The range generator *)

Module RangeTheory.
Import Js Template.

Lemma range_up_enough fuel i e st acc :
  (0 < st)%Z → (Z.to_nat (e - i + 1) ≤ fuel)%nat →
  is_Some (range_up fuel (Some i) (Some e) (Some st) acc).
Proof.
  revert i acc. induction fuel as [|fuel IH]; intros i acc Hst Hfuel; simpl.
  - destruct (Z.leb_spec i e); [lia | eauto].
  - destruct (Z.leb_spec i e); [| eauto].
    apply IH; lia.
Qed.

Lemma range_down_enough fuel i e st acc :
  (st < 0)%Z → (Z.to_nat (i - e + 1) ≤ fuel)%nat →
  is_Some (range_down fuel (Some i) (Some e) (Some st) acc).
Proof.
  revert i acc. induction fuel as [|fuel IH]; intros i acc Hst Hfuel; simpl.
  - destruct (Z.leb_spec e i); [lia | eauto].
  - destruct (Z.leb_spec e i); [| eauto].
    apply IH; lia.
Qed.

(** The turns [createRangeArray] allows itself always suffice: the loop of
    the source ends, whatever the three numbers are. *)
Lemma createRangeArray_terminates (start end_ step : num) :
  is_Some (createRangeArray_within (range_turns start end_) start end_ step).
Proof.
  unfold createRangeArray_within, num_lt.
  destruct step as [st|]; [| eauto].
  destruct (Z.ltb_spec 0 st).
  - destruct start as [a|], end_ as [b|]; try (by destruct (range_turns _ _); eauto).
    apply range_up_enough; unfold range_turns; lia.
  - destruct (Z.ltb_spec st 0); [| eauto].
    destruct start as [a|], end_ as [b|]; try (by destruct (range_turns _ _); eauto).
    apply range_down_enough; unfold range_turns; lia.
Qed.

(** C10.  With [step = 0] the range generator returns the empty array
    without a single turn of either loop, for every [start] and [end]
    (NaN included): it returns [[]] even when it is allowed no turn at
    all, so a zero step cannot make it loop. *)
Theorem createRangeArray_zero_step (start end_ : num) :
  (∀ fuel, createRangeArray_within fuel start end_ (Some 0%Z) = Some [])
  ∧ createRangeArray start end_ (Some 0%Z) = [].
Proof.
  assert (Hguard : num_lt (Some 0%Z) (Some 0%Z) = false)
    by (unfold num_lt; apply Z.ltb_irrefl).
  assert (Hwithin : ∀ fuel, createRangeArray_within fuel start end_ (Some 0%Z) = Some []).
  { intros fuel. unfold createRangeArray_within. by rewrite Hguard. }
  split; [exact Hwithin |].
  unfold createRangeArray. by rewrite Hwithin.
Qed.

(** The examples of the README: [createRangeArray(1, 5)] and
    [createRangeArray(0, 10, 2)]. *)
Example createRangeArray_1_5 :
  createRangeArray (Some 1%Z) (Some 5%Z) (Some 1%Z)
  = [Some 1; Some 2; Some 3; Some 4; Some 5]%Z.
Proof. reflexivity. Qed.

Example createRangeArray_0_10_2 :
  createRangeArray (Some 0%Z) (Some 10%Z) (Some 2%Z)
  = [Some 0; Some 2; Some 4; Some 6; Some 8; Some 10]%Z.
Proof. reflexivity. Qed.

End RangeTheory.

(** ** Mustache interpolation *)

Module TemplateTheory.
Import Js Template.

(** Whether ["{{"] stands somewhere in [s], and whether ["}}"] does. *)
Fixpoint opens (s : string) : bool :=
  match s with
  | String c (String d _ as s') => (Ascii.eqb c "{" && Ascii.eqb d "{") || opens s'
  | _ => false
  end.

Fixpoint closes (s : string) : bool :=
  match s with
  | String c (String d _ as s') => (Ascii.eqb c "}" && Ascii.eqb d "}") || closes s'
  | _ => false
  end.

Lemma append_cons c (a b : string) : String c a +:+ b = String c (a +:+ b).
Proof. reflexivity. Qed.

Lemma append_nil (b : string) : "" +:+ b = b.
Proof. reflexivity. Qed.

Lemma append_assoc (a b c : string) : (a +:+ b) +:+ c = a +:+ (b +:+ c).
Proof.
  induction a as [|x a IH]; [done |].
  by rewrite !append_cons, IH.
Qed.

Lemma append_empty_r (a : string) : a +:+ "" = a.
Proof.
  induction a as [|x a IH]; [done |].
  by rewrite append_cons, IH.
Qed.

Lemma replace_mustache_outside f c d s :
  replace_mustache f None (String c (String d s))
  = if Ascii.eqb c "{" && Ascii.eqb d "{"
    then replace_mustache f (Some "") s
    else String c (replace_mustache f None (String d s)).
Proof. reflexivity. Qed.

Lemma replace_mustache_open f e c d s :
  replace_mustache f (Some e) (String c (String d s))
  = if Ascii.eqb c "}" && Ascii.eqb d "}"
    then f ("{{" +:+ e +:+ "}}") e +:+ replace_mustache f None s
    else replace_mustache f (Some (e +:+ String c "")) (String d s).
Proof. reflexivity. Qed.

Lemma opens_cons c d s :
  opens (String c (String d s))
  = (Ascii.eqb c "{" && Ascii.eqb d "{") || opens (String d s).
Proof. reflexivity. Qed.

Lemma closes_cons c d s :
  closes (String c (String d s))
  = (Ascii.eqb c "}" && Ascii.eqb d "}") || closes (String d s).
Proof. reflexivity. Qed.

(** Text before the first ["{{"] is copied. *)
Lemma replace_mustache_before f pre rest :
  opens (pre +:+ "{") = false →
  replace_mustache f None (pre +:+ "{{" +:+ rest)
  = pre +:+ replace_mustache f (Some "") rest.
Proof.
  induction pre as [|c pre IH]; intros Hpre; [done |].
  destruct pre as [|d pre'].
  - rewrite append_cons, append_nil, opens_cons, orb_false_r in Hpre.
    rewrite !append_cons, !append_nil, replace_mustache_outside, Hpre.
    by rewrite replace_mustache_outside.
  - rewrite !append_cons, opens_cons in Hpre.
    apply orb_false_elim in Hpre as [Hcd Hrest].
    rewrite !append_cons, replace_mustache_outside, Hcd.
    rewrite <- !append_cons, (IH Hrest). done.
Qed.

(** The text of a placeholder runs up to the first ["}}"]. *)
Lemma replace_mustache_inside f acc e post :
  closes (e +:+ "}") = false →
  replace_mustache f (Some acc) (e +:+ "}}" +:+ post)
  = f ("{{" +:+ acc +:+ e +:+ "}}") (acc +:+ e) +:+ replace_mustache f None post.
Proof.
  revert acc. induction e as [|c e IH]; intros acc Hclose.
  - rewrite !append_cons, !append_nil, append_empty_r.
    by rewrite replace_mustache_open.
  - destruct e as [|d e'].
    + rewrite append_cons, append_nil, closes_cons, orb_false_r in Hclose.
      rewrite !append_cons, !append_nil.
      rewrite replace_mustache_open, Hclose, replace_mustache_open.
      replace (Ascii.eqb "}" "}" && Ascii.eqb "}" "}") with true by done.
      by rewrite !append_assoc.
    + rewrite !append_cons, closes_cons in Hclose.
      apply orb_false_elim in Hclose as [Hcd Hrest].
      rewrite !append_cons, replace_mustache_open, Hcd.
      rewrite <- !append_cons, (IH _ Hrest).
      by rewrite !append_assoc.
Qed.

Lemma unsafeEval_no_context host watched expression :
  unsafeEval host watched expression []
  = match host watched expression with Ok v => v | Throw _ => JUndef end.
Proof.
  unfold unsafeEval. cbn [fmap list_fmap app].
  replace (filter (λ kv : string * jsval, kv.1 ∉ []) watched) with watched; [done |].
  induction watched as [|kv l IH]; [done |].
  rewrite filter_cons_True by apply not_elem_of_nil. by rewrite <- IH.
Qed.

(** What [parseTemplate] puts in the place of [{{e}}]. *)
Definition substitute (host : scope → string → result jsval) (watched : scope)
    (e : string) : string :=
  match host watched (trim e) with
  | Ok v =>
      if defined v then
        match String_ v with
        | Ok s => s
        | Throw _ => "{{" +:+ e +:+ "}}"
        end
      else ""
  | Throw _ => ""
  end.

(** In a template [pre {{e}} post], where [pre] is the text before the
    first ["{{"] and [e] the text up to the first ["}}"], [parseTemplate]
    copies [pre], puts [substitute e] in the place of the placeholder and
    goes on with [post]. *)
Lemma parseTemplate_placeholder host watched pre e post :
  opens (pre +:+ "{") = false →
  closes (e +:+ "}") = false →
  parseTemplate host watched (pre +:+ "{{" +:+ e +:+ "}}" +:+ post)
  = pre +:+ substitute host watched e +:+ parseTemplate host watched post.
Proof.
  intros Hpre He. unfold parseTemplate.
  rewrite replace_mustache_before by done.
  rewrite replace_mustache_inside by done.
  rewrite !append_nil. f_equal. f_equal.
  unfold substitute. rewrite unsafeEval_no_context.
  destruct (host watched (trim e)) as [v|err]; [| done].
  destruct (defined v); [| done].
  by destruct (String_ v).
Qed.

(** ["Hello {{ 'A'+'B' }}"] yields ["Hello AB"]. *)
Lemma parseTemplate_hello :
  opens ("Hello " +:+ "{") = false
  ∧ closes (" 'A'+'B' " +:+ "}") = false
  ∧ parseTemplate Demo.host [] "Hello {{ 'A'+'B' }}" = "Hello AB".
Proof.
  split; [reflexivity |]. split; [reflexivity |].
  exact (parseTemplate_placeholder Demo.host [] "Hello " " 'A'+'B' " "" eq_refl eq_refl).
Defined.

Lemma append_longer (a b : string) : a ≠ "" → a +:+ b ≠ b.
Proof.
  intros Ha Heq. apply (f_equal String.length) in Heq.
  assert (Hlen : ∀ x y : string,
            String.length (x +:+ y) = (String.length x + String.length y)%nat).
  { intros x y. induction x as [|c x IH]; [done |].
    rewrite append_cons. cbn [String.length]. by rewrite IH. }
  rewrite Hlen in Heq. destruct a as [|c a]; [done |]. cbn [String.length] in Heq. lia.
Qed.

Lemma append_cancel (a b c : string) : a +:+ b = a +:+ c → b = c.
Proof.
  induction a as [|x a IH]; [done |].
  rewrite !append_cons. intros [= H]. by apply IH.
Qed.

(** C5.  A placeholder whose expression throws does not stay in the
    output.  In a template [pre {{e}} post] as above, when the host throws
    on [e] (trimmed), [parseTemplate] gives [pre] followed at once by what
    it makes of [post]: the placeholder is replaced by the empty string,
    and the output is not the one that keeps the literal [{{e}}].  The
    [catch] of [parseTemplate], which returns the placeholder, is the
    branch [Throw error => match_] of its embedding; an exception of the
    expression never reaches it, because [unsafeEval] has caught it and
    returned [undefined]. *)
Theorem parseTemplate_throwing_placeholder_vanishes host watched pre e post err :
  opens (pre +:+ "{") = false →
  closes (e +:+ "}") = false →
  host watched (trim e) = Throw err →
  parseTemplate host watched (pre +:+ "{{" +:+ e +:+ "}}" +:+ post)
  = pre +:+ parseTemplate host watched post
  ∧ parseTemplate host watched (pre +:+ "{{" +:+ e +:+ "}}" +:+ post)
    ≠ pre +:+ "{{" +:+ e +:+ "}}" +:+ parseTemplate host watched post.
Proof.
  intros Hpre He Hthrows.
  assert (Hparse : parseTemplate host watched (pre +:+ "{{" +:+ e +:+ "}}" +:+ post)
                   = pre +:+ parseTemplate host watched post).
  { rewrite parseTemplate_placeholder by done.
    unfold substitute. by rewrite Hthrows, append_nil. }
  split; [exact Hparse |].
  rewrite Hparse. intros Heq. apply append_cancel in Heq.
  replace ("{{" +:+ e +:+ "}}" +:+ parseTemplate host watched post)
    with (("{{" +:+ e +:+ "}}") +:+ parseTemplate host watched post) in Heq
    by (by rewrite !append_assoc).
  symmetry in Heq. revert Heq. apply append_longer.
  change ("{{" +:+ e +:+ "}}") with (String "{" (String "{" (e +:+ "}}"))). done.
Qed.

(** [a{{ boom }}b] on a page with no [boom]: the reference error is
    swallowed and the output is [ab]. *)
Lemma parseTemplate_throwing_expression :
  Demo.host [] "boom" = Throw (Exn "boom is not defined")
  ∧ parseTemplate Demo.host [] "a{{ boom }}b" = "ab"
  ∧ parseTemplate Demo.host [] "a{{ boom }}b" ≠ "a{{ boom }}b".
Proof.
  split; [reflexivity |].
  exact (parseTemplate_throwing_placeholder_vanishes Demo.host [] "a" " boom " "b"
           (Exn "boom is not defined") eq_refl eq_refl eq_refl).
Defined.

(** A placeholder stays when the string conversion of its value throws. *)
Example parseTemplate_unprintable_value :
  parseTemplate Demo.host [("o", JBare 1)] "a{{ o }}b" = "a{{ o }}b".
Proof. reflexivity. Qed.

End TemplateTheory.

(** ** Stored templates *)

Module ElementsTheory.
Import Js Template Elements.

Lemma getAttribute_set_innerHTML html this name :
  getAttribute (set_innerHTML html this) name = getAttribute this name.
Proof. reflexivity. Qed.

Lemma originalTemplate_set_innerHTML html this :
  _originalTemplate (set_innerHTML html this) = _originalTemplate this.
Proof. reflexivity. Qed.

Lemma set_innerHTML_twice html html' this :
  set_innerHTML html (set_innerHTML html' this) = set_innerHTML html this.
Proof. reflexivity. Qed.

Section Selectors.

Variable selector_error : string → option exn.
Variable template_in : string → string → option string.

Abbreviation storeTemplate := (storeTemplate selector_error template_in).

(** [_storeTemplate] touches [_originalTemplate] only. *)
Lemma storeTemplate_frame idattr this this' r :
  storeTemplate idattr this = (this', r) →
  attributes this' = attributes this ∧ innerHTML this' = innerHTML this.
Proof.
  unfold Elements.storeTemplate, querySelector_template.
  destruct (present (_originalTemplate this)); [by intros [= <- <-] |].
  destruct (selector_error _); [by intros [= <- <-] |].
  destruct (template_in _ _); by intros [= <- <-].
Qed.

(** A template that is stored stays: with one in place, [_storeTemplate]
    returns at once, whatever the content of the element has become. *)
Lemma storeTemplate_captured idattr this :
  present (_originalTemplate this) = true →
  storeTemplate idattr this = (this, Ok ()).
Proof. unfold Elements.storeTemplate. by intros ->. Qed.

(** An exception of [querySelector] is about the selector, so it comes
    again on any content. *)
Lemma storeTemplate_throws_again idattr this this' e html :
  storeTemplate idattr this = (this', Throw e) →
  this' = this
  ∧ storeTemplate idattr (set_innerHTML html this) = (set_innerHTML html this, Throw e).
Proof.
  unfold Elements.storeTemplate, querySelector_template.
  rewrite originalTemplate_set_innerHTML, getAttribute_set_innerHTML.
  destruct (present (_originalTemplate this)); [by intros [= <-] |].
  destruct (selector_error _); [by intros [= <- <-] |].
  destruct (template_in _ _); by intros [= <-].
Qed.

(** With no template stored, and none to be found in [html], the element
    stays as it is. *)
Lemma storeTemplate_missing_again idattr this this' html :
  storeTemplate idattr this = (this', Ok ()) →
  present (_originalTemplate this') = false →
  (∀ sel, template_in html sel = None) →
  storeTemplate idattr (set_innerHTML html this') = (set_innerHTML html this', Ok ()).
Proof.
  intros Hstore Hmissing Hnone.
  destruct (storeTemplate_frame _ _ _ _ Hstore) as [Hattrs _].
  revert Hstore.
  unfold Elements.storeTemplate, querySelector_template.
  rewrite originalTemplate_set_innerHTML, Hmissing.
  unfold getAttribute. cbn [attributes set_innerHTML innerHTML]. rewrite Hattrs.
  destruct (present (_originalTemplate this)) eqn:Hthis.
  { intros [= <-]. congruence. }
  destruct (selector_error _); [done |].
  by rewrite Hnone.
Qed.

End Selectors.

End ElementsTheory.

(** ** The loop element *)

Module LoopTheory.
Import Js Template Elements CustomForLoop ElementsTheory.

Section Host.

Variable host : scope → string → result jsval.
Variable watched : scope.
Variable selector_error : string → option exn.
Variable template_in : string → string → option string.
Variable replace_word : string → string → string → result string.

(** With no [array], [start="1"] and [end="5"], [render] builds the range
    1..4 and then walks it from index 1: three turns, bound to 2, 3, 4. *)
Lemma bindings_start_1_end_5 (this : element) (fuel : nat) :
  getAttribute this "array" = None →
  getAttribute this "start" = Some "1" →
  getAttribute this "step" = None →
  getAttribute this "end" = Some "5" →
  host watched "5" = Ok (JNum 5) →
  (3 ≤ fuel)%nat →
  bindings host watched fuel this
  = Some (Ok [(1%Z, JNum 2); (2%Z, JNum 3); (3%Z, JNum 4)]).
Proof.
  intros Harray Hstart Hstep Hend Hfive Hfuel.
  unfold bindings, read_bounds.
  rewrite Harray, Hstart, Hstep, Hend, !TemplateTheory.unsafeEval_no_context, Hfive.
  destruct fuel as [|[|[|fuel]]]; [lia | lia | lia |].
  destruct fuel; reflexivity.
Qed.


Abbreviation render :=
  (render host watched selector_error template_in replace_word).
Abbreviation render_try :=
  (render_try host watched selector_error template_in replace_word).




End Host.

(** The loop element of the claim: [<for-loop start="1" end="5"
    loopid="pages">] around the template [${value},]. *)
Definition pages : element :=
  mkElement (list_to_map [("loopid", "pages"); ("start", "1"); ("end", "5")])
            (Some "${value},") "".

(** C6: what the code does on the claim's input.  The turns are three and
    their values 2, 3, 4, not five turns with 1..5; the markup rendered is
    ["2,3,4,"] followed by the copy of the template. *)
Theorem range_fallback_1_5_renders_2_3_4 :
  bindings Demo.host [] 5 pages
  = Some (Ok [(1%Z, JNum 2); (2%Z, JNum 3); (3%Z, JNum 4)])
  ∧ innerHTML <$> render Demo.host [] Demo.no_selector_error Demo.no_template
                         Demo.replace_word 5 pages
    = Some ("2,3,4,<template loopid=" +:+ dq +:+ "pages" +:+ dq
            +:+ ">${value},</template>").
Proof.
  split.
  - apply bindings_start_1_end_5; (reflexivity || lia).
  - reflexivity.
Qed.

End LoopTheory.

(** ** The conditional block *)

Module ConditionTheory.
Import Js Template Elements ConditionBlock ElementsTheory.

Section Host.

Variable host : scope → string → result jsval.
Variable watched : scope.
Variable selector_error : string → option exn.
Variable template_in : string → string → option string.
Variable _processConditionsRecursive : string → result string.

(** An expression that throws reaches [_evaluateCondition] as
    [undefined]: [unsafeEval] has caught the exception already. *)
Lemma unsafeEval_throws expression e :
  host watched expression = Throw e →
  unsafeEval host watched expression [] = JUndef.
Proof. intros H. by rewrite TemplateTheory.unsafeEval_no_context, H. Qed.

(** No comparison of [undefined] with [<], [>], [<=] or [>=] holds. *)
Lemma relational_undefined_l v :
  (gt JUndef v = Ok false ∨ ∃ e, gt JUndef v = Throw e)
  ∧ (lt JUndef v = Ok false ∨ ∃ e, lt JUndef v = Throw e)
  ∧ (ge JUndef v = Ok false ∨ ∃ e, ge JUndef v = Throw e)
  ∧ (le JUndef v = Ok false ∨ ∃ e, le JUndef v = Throw e).
Proof.
  unfold gt, lt, ge, le, compare. cbn [to_primitive].
  destruct (to_primitive v) as [p|e]; [| repeat split; right; eauto].
  destruct p as [| |b|[n|]|s]; repeat split; left; try done;
    unfold prim_lt; cbn [prim_to_number]; by destruct (string_to_number s).
Qed.

(** When the [value] expression throws and the operand is [gt], [lt],
    [gte], [lte] or none, the condition is false. *)
Lemma evaluateCondition_error_relational ifEl e :
  host watched (text (getAttribute ifEl "value")) = Throw e →
  getAttribute ifEl "eq" = None →
  getAttribute ifEl "neq" = None →
  _evaluateCondition host watched ifEl = false.
Proof.
  intros Hvalue Heq Hneq.
  unfold _evaluateCondition, evaluateCondition_try.
  rewrite Heq, Hneq, (unsafeEval_throws _ _ Hvalue).
  destruct (getAttribute ifEl "gt") as [a|].
  { destruct (relational_undefined_l (unsafeEval host watched a []))
      as ([->|[? ->]] & _); done. }
  destruct (getAttribute ifEl "lt") as [a|].
  { destruct (relational_undefined_l (unsafeEval host watched a []))
      as (_ & [->|[? ->]] & _); done. }
  destruct (getAttribute ifEl "gte") as [a|].
  { destruct (relational_undefined_l (unsafeEval host watched a []))
      as (_ & _ & [->|[? ->]] & _); done. }
  destruct (getAttribute ifEl "lte") as [a|].
  { destruct (relational_undefined_l (unsafeEval host watched a []))
      as (_ & _ & _ & [->|[? ->]]); done. }
  done.
Qed.

(** With [neq] it is true as soon as the operand is not [undefined]
    itself. *)
Lemma evaluateCondition_error_neq ifEl e a :
  host watched (text (getAttribute ifEl "value")) = Throw e →
  getAttribute ifEl "eq" = None →
  getAttribute ifEl "neq" = Some a →
  unsafeEval host watched a [] ≠ JUndef →
  _evaluateCondition host watched ifEl = true.
Proof.
  intros Hvalue Heq Hneq Hcompare.
  unfold _evaluateCondition, evaluateCondition_try.
  rewrite Heq, Hneq, (unsafeEval_throws _ _ Hvalue).
  by destruct (unsafeEval host watched a []).
Qed.

(** With [eq] it is true when the operand is [undefined] too, which it
    is when the operand throws as well. *)
Lemma evaluateCondition_error_eq ifEl e a e' :
  host watched (text (getAttribute ifEl "value")) = Throw e →
  getAttribute ifEl "eq" = Some a →
  host watched a = Throw e' →
  _evaluateCondition host watched ifEl = true.
Proof.
  intros Hvalue Heq Hcompare.
  unfold _evaluateCondition, evaluateCondition_try.
  by rewrite Heq, (unsafeEval_throws _ _ Hvalue), (unsafeEval_throws _ _ Hcompare).
Qed.

Abbreviation render :=
  (render host watched selector_error template_in _processConditionsRecursive).
Abbreviation render_try :=
  (render_try host watched selector_error template_in _processConditionsRecursive).



End Host.

(** The if-node [<if-condition value="missing.prop" neq="1">]. *)
Definition failing_if : element :=
  mkElement (list_to_map [("value", "missing.prop"); ("neq", "1")]) None "".

(** C7: what the code does when the condition's expression throws and
    the operand is [neq].  The exception never reaches the [catch] of
    [_evaluateCondition]: [unsafeEval] turns it into [undefined], and
    [undefined !== 1] makes the condition true. *)
Theorem evaluateCondition_error_under_neq_is_true :
  Demo.host [] "missing.prop" = Throw (Exn "missing is not defined")
  ∧ Demo.host [] "1" = Ok (JNum 1)
  ∧ _evaluateCondition Demo.host [] failing_if = true.
Proof.
  split; [reflexivity |]. split; [reflexivity |].
  by apply (evaluateCondition_error_neq Demo.host [] failing_if
              (Exn "missing is not defined") "1").
Qed.

End ConditionTheory.

(** ** Rendering twice *)

Module RenderTheory.
Import Js Template Elements ElementsTheory.



Section Selectors.

Variable selector_error : string → option exn.
Variable template_in : string → string → option string.


End Selectors.


Section Loops.

Variable host : scope → string → result jsval.
Variable watched : scope.
Variable selector_error : string → option exn.
Variable template_in : string → string → option string.
Variable replace_word : string → string → string → result string.

Abbreviation loop_render :=
  (CustomForLoop.render host watched selector_error template_in replace_word).
Abbreviation loop_connected :=
  (CustomForLoop.connectedCallback host watched selector_error template_in replace_word).



End Loops.

Section Blocks.

Variable host : scope → string → result jsval.
Variable watched : scope.
Variable selector_error : string → option exn.
Variable template_in : string → string → option string.
Variable _processConditionsRecursive : string → result string.

Abbreviation block_render :=
  (ConditionBlock.render host watched selector_error template_in
     _processConditionsRecursive).
Abbreviation block_connected :=
  (ConditionBlock.connectedCallback host watched selector_error template_in
     _processConditionsRecursive).


End Blocks.










End RenderTheory.

(** ** The re-render dispatcher *)

Module DispatchTheory.
Import Template Dispatch.

Section Document.

Variable querySelectorAll : string → outcome unit (list nat).
Variable has_render : nat → bool.
Variable render_throws : nat → bool.

Abbreviation setState_older := (setState_older querySelectorAll has_render render_throws).
Abbreviation setState := (setState querySelectorAll has_render render_throws).
Abbreviation render_all := (render_all querySelectorAll has_render render_throws).
Abbreviation render_each := (render_each has_render render_throws).

(** The nodes [render_each] calls [render] on are among those it is
    given, and it does nothing else. *)
Lemma render_each_only els a :
  a ∈ (render_each els).1 → ∃ el, a = Render el ∧ el ∈ els.
Proof.
  induction els as [|el els IH]; simpl; [by intros ?%elem_of_nil |].
  destruct (has_render el).
  - destruct (render_throws el); simpl.
    + intros ->%list_elem_of_singleton. exists el. split; [done | left].
    + unfold then_. simpl.
      intros [->|Hin]%elem_of_cons.
      * exists el. split; [done | left].
      * destruct (IH Hin) as (el' & -> & Hel'). exists el'. split; [done | by right].
  - intros Hin. destruct (IH Hin) as (el' & -> & Hel'). exists el'. split; [done | by right].
Qed.

Lemma guarded_render_all_only o sel a :
  a ∈ guarded o (render_all sel) →
  a ∈ [LoaderShow; LoaderHide; ConsoleError]
  ∨ ∃ el els, a = Render el ∧ el ∈ els ∧ querySelectorAll sel = Ok els.
Proof.
  unfold guarded. rewrite !elem_of_app. intros [Hin|[Hin|[Hin|Hin]]].
  - left. destruct (showloader o); [| by apply elem_of_nil in Hin].
    apply list_elem_of_singleton in Hin as ->. set_solver.
  - right. unfold Dispatch.render_all in Hin.
    destruct (querySelectorAll sel) as [els|] eqn:Hsel; [| by apply elem_of_nil in Hin].
    destruct (render_each_only _ _ Hin) as (el & -> & Hel). eauto.
  - left. destruct (showloader o); [| by apply elem_of_nil in Hin].
    apply list_elem_of_singleton in Hin as ->. set_solver.
  - left. destruct (render_all sel).2; [| by apply elem_of_nil in Hin].
    apply list_elem_of_singleton in Hin as ->. set_solver.
Qed.

(** The older [setState], called with a [loopid], an [ifid] (and no
    [loopid]) or a [stateId] (and neither of the others), shows and hides
    the loader if asked to, renders nodes that the one selector built from
    the identifier matches, reports an exception if there was one, and
    does nothing else: no data-js, data-innerhtml or data-loop binding is
    touched and no node of another category is rendered. *)
Lemma setState_older_scoped o a :
  given (loopid o) || given (ifid o) || given (stateId o) = true →
  a ∈ setState_older o →
  a ∈ [LoaderShow; LoaderHide; ConsoleError]
  ∨ ∃ el els, a = Render el ∧ el ∈ els ∧
      querySelectorAll
        (if given (loopid o) then by_id "for-loop" "loopid" (loopid o)
         else if given (ifid o) then by_id "condition-block" "ifid" (ifid o)
         else "state-element[stateId=" +:+ id_text (stateId o) +:+ "]") = Ok els.
Proof.
  intros Hgiven. unfold Dispatch.setState_older.
  destruct (given (loopid o)); [apply guarded_render_all_only |].
  destruct (given (ifid o)); [apply guarded_render_all_only |].
  destruct (given (stateId o)); [apply guarded_render_all_only | done].
Qed.

End Document.

(** A page with two loops and one data-js binding: node 1 is
    [<for-loop loopid="a">], node 2 is [<for-loop loopid="b">], node 3 is
    [<div data-js="...">]. *)
Definition page (sel : string) : outcome unit (list nat) :=
  if String.eqb sel ("for-loop[loopid=" +:+ dq +:+ "a" +:+ dq +:+ "]") then Ok [1]
  else if String.eqb sel ("for-loop[loopid=" +:+ dq +:+ "b" +:+ dq +:+ "]") then Ok [2]
  else if String.eqb sel "for-loop" then Ok [1; 2]
  else if String.eqb sel "[data-js]" then Ok [3]
  else Ok [].

Definition loops_render (el : nat) : bool := (el =? 1)%nat || (el =? 2)%nat.
Definition none_throws (el : nat) : bool := false.

(** [setState({ loopid: 'a', showloader: false })] *)
Definition only_loop_a : options :=
  mkOptions (Some "a") None None false false true true true true false true.

(** C9: what the two copies do with [setState({ loopid: 'a', showloader:
    false })].  The older one renders loop [a] and returns.  The current
    one goes on: it runs the data-js binding and renders every loop, [b]
    included ([a] a second time). *)
Theorem setState_scoped_goes_on :
  Dispatch.setState_older page loops_render none_throws only_loop_a = [Render 1]
  ∧ Dispatch.setState page loops_render none_throws only_loop_a
    = [Render 1; DataJs 3; Render 1; Render 2].
Proof. split; reflexivity. Qed.

End DispatchTheory.

(** ** Watched variables *)

Module ReactiveTheory.
Import Reactive.

Local Open Scope list_scope.

(** *** The self-mutation guard *)

Section Guard.

Variable body : nat → list value → prog.

(** C2.  A property write or delete through a wrapper whose callback is
    the active watcher, and an assignment to a watched name whose trigger
    is the active watcher, throw the self-mutation error and leave the
    store as it was: nothing is written and nothing is scheduled.  When
    the microtask of a callback is over, however it ended, the
    active-watcher slot is empty. *)
Theorem self_mutation_guard :
  (∀ s p obj cb k v,
     proxies s !! p = Some (obj, cb) →
     activeWatcher s = Some cb →
     exec_op (OpSet (VProxy p) k v) s = (s, Throw (SelfMutation (watchedProp s cb)))
     ∧ exec_op (OpDelete (VProxy p) k) s = (s, Throw (SelfMutation (watchedProp s cb))))
  ∧ (∀ s name n v,
       window s !! name = Some (WAccessor n) →
       activeWatcher s = Some (FTrigger n) →
       exec_op (OpWindowSet name v) s
       = (s, Throw (SelfMutation (watchedProp s (FTrigger n)))))
  ∧ (∀ cb s, activeWatcher (run_microtask body cb s).1 = None).
Proof.
  split; [| split].
  - intros s p obj cb k v Hp Hactive.
    cbn [exec_op js_set js_delete as_ref depth reflect_set reflect_delete].
    rewrite Hp. by rewrite !decide_True.
  - intros s name n v Hname Hactive.
    cbn [exec_op]. unfold window_set, accessor_set. rewrite Hname.
    by rewrite decide_True.
  - intros cb s. unfold run_microtask.
    by destruct (call body _ cb [] _) as [s' r].
Qed.

End Guard.

(** A callback that writes to its own variable. *)
Definition self_writer (u : nat) (args : list value) : prog :=
  match args with
  | [_; w] => Do (OpSet w (KStr "count") (VNum 1)) (λ r, match r with Ok _ => Ret | Throw e => Raise e end)
  | _ => Ret
  end.

(** [watch('x', cb, {})] from the empty store. *)
Definition watching_x : state :=
  (run_prog (Do (OpAlloc (mkObj false ∅ 0))
               (λ r, match r with
                     | Ok o => Do (OpWatch "x" (VFun (FUser 0)) o) (λ _, Ret)
                     | Throw e => Raise e
                     end)) init).1.

(** The same store while the callback of [x] runs. *)
Definition inside_callback : state := set_activeWatcher (Some (FTrigger 0)) watching_x.

Lemma self_mutation_guard_example :
  proxies inside_callback !! 0 = Some (RObj 0, FTrigger 0)
  ∧ window inside_callback !! "x" = Some (WAccessor 0)
  ∧ activeWatcher inside_callback = Some (FTrigger 0)
  ∧ exec_op (OpSet (VProxy 0) (KStr "count") (VNum 1)) inside_callback
    = (inside_callback, Throw (SelfMutation (Some "x")))
  ∧ exec_op (OpWindowSet "x" (VNum 5)) inside_callback
    = (inside_callback, Throw (SelfMutation (Some "x")))
  ∧ activeWatcher (run_microtask self_writer (FTrigger 0) watching_x).1 = None
  ∧ (run_microtask self_writer (FTrigger 0) watching_x).2
    = Throw (SelfMutation (Some "x")).
Proof.
  assert (Hp : proxies inside_callback !! 0 = Some (RObj 0, FTrigger 0)) by reflexivity.
  assert (Hw : window inside_callback !! "x" = Some (WAccessor 0)) by reflexivity.
  assert (Ha : activeWatcher inside_callback = Some (FTrigger 0)) by reflexivity.
  split; [exact Hp |]. split; [exact Hw |]. split; [exact Ha |].
  split; [| split; [| split]].
  - exact (proj1 (proj1 (self_mutation_guard self_writer)
                    inside_callback 0 (RObj 0) (FTrigger 0) (KStr "count") (VNum 1) Hp Ha)).
  - exact (proj1 (proj2 (self_mutation_guard self_writer))
             inside_callback "x" 0 (VNum 5) Hw Ha).
  - exact (proj2 (proj2 (self_mutation_guard self_writer)) (FTrigger 0) watching_x).
  - vm_compute. reflexivity.
Defined.


(** *** Registration *)

(** The two ways [Object.defineProperty] ends in [watch]. *)
Lemma define_cases name (s3 s4 s' : state) (res : result value) :
  match window s3 !! name with
  | Some (WFixed _) => (s3, Throw (CannotRedefine name))
  | _ => (s4, Ok VUndef)
  end = (s', res) →
  (s' = s3 ∧ res = Throw (CannotRedefine name)) ∨ (s' = s4 ∧ res = Ok VUndef).
Proof. destruct (window s3 !! name) as [[?|?|?]|]; intros [= <- <-]; auto. Qed.

Ltac watch_outcome :=
  first [intros [= <- <-] | intros [[-> ->] | [-> ->]]%define_cases].

(** A name that [Object.defineProperty] may define on [window]: it is
    not there, or it is there as a configurable property. *)
Definition redefinable (s : state) (name : string) : Prop :=
  ∀ v, window s !! name ≠ Some (WFixed v).

(** On such a name [watch] installs an accessor of its own, with a value
    cell of its own, also when the name is watched already: the accessor
    that was there is replaced. *)
Lemma watch_installs propName f defaultValue s s' r :
  redefinable s propName →
  watch propName (VFun f) defaultValue s = (s', r) →
  r = Ok VUndef
  ∧ window s' !! propName = Some (WAccessor (next_watch s))
  ∧ next_watch s' = S (next_watch s)
  ∧ watchedVars s' = {[propName]} ∪ watchedVars s.
Proof.
  intros Hfree. unfold watch.
  set (s0 := if decide (is_Some (window s !! propName)) then emit (EvWarn propName) s else s).
  assert (Hnw : next_watch s0 = next_watch s) by (subst s0; by case_decide).
  assert (Hwv : watchedVars s0 = watchedVars s) by (subst s0; by case_decide).
  assert (Hw0 : window s0 = window s) by (subst s0; by case_decide).
  set (s1 := set_watch _ _ _ _ s0).
  assert (H1 : ∀ t c s2 r2, createDeepProxy t c s1 = (s2, r2) →
            c = VFun (FTrigger (next_watch s0)) →
            (∃ v, r2 = Ok v) ∧ next_watch s2 = S (next_watch s0)
            ∧ watchedVars s2 = watchedVars s0 ∧ window s2 = window s0).
  { intros t c s2 r2. unfold createDeepProxy.
    destruct (as_ref t); [| intros [= <- <-]; eauto].
    intros Hc ->. revert Hc.
    destruct (cache_lookup s1 r0 _); intros [= <- <-]; eauto. }
  destruct (match as_ref defaultValue with Some _ => _ | None => _ end) as [s2 r2] eqn:Hwrap.
  assert (H2 : (∃ v, r2 = Ok v) ∧ next_watch s2 = S (next_watch s0)
               ∧ watchedVars s2 = watchedVars s0 ∧ window s2 = window s0).
  { destruct (as_ref defaultValue); [by eapply H1 |]. injection Hwrap as <- <-. eauto. }
  destruct H2 as ([v ->] & Hn2 & Hv2 & Hw2).
  assert (Hsv : ∀ x, next_watch (set_value (next_watch s0) x s2) = next_watch s2
                     ∧ watchedVars (set_value (next_watch s0) x s2) = watchedVars s2
                     ∧ window (set_value (next_watch s0) x s2) = window s2).
  { intros x. unfold set_value. by destruct (triggers s2 !! next_watch s0). }
  destruct (Hsv v) as (Hn3 & Hv3 & Hw3).
  rewrite Hw3, Hw2, Hw0.
  destruct (window s !! propName) as [[w|n|w]|] eqn:Hname;
    try (by destruct (Hfree w));
    intros [= <- <-]; cbn [window next_watch watchedVars set_watch];
    rewrite lookup_insert_eq; (split; [done |]); (split; [done |]);
    (split; [congruence |]); congruence.
Qed.

(** C4: what the code does with a second [watch] of a name.  After
    [watch('x', cb, 1); watch('x', cb, 2)] the accessor of [x] is the one
    of the second call and reading [x] gives 2: the second call replaced
    the accessor and the stored value, with a warning.  Only the set of
    watched names is as after the first call, since it is a set. *)
Theorem second_watch_replaces :
  let cb := VFun (FUser 0) in
  let once := (exec_op (OpWatch "x" cb (VNum 1)) init).1 in
  let twice := (exec_op (OpWatch "x" cb (VNum 2)) once).1 in
  window once !! "x" = Some (WAccessor 0)
  ∧ window_get "x" once = VNum 1
  ∧ window twice !! "x" = Some (WAccessor 1)
  ∧ window_get "x" twice = VNum 2
  ∧ log twice = [EvWarn "x"]
  ∧ watchedVars twice = watchedVars once.
Proof.
  cbv zeta. repeat split; reflexivity.
Qed.


(** *** The identity cache *)

(** Every entry of the cache stays. *)
Definition cache_le (s s' : state) : Prop :=
  ∀ r cb p, cache_lookup s r cb = Some p → cache_lookup s' r cb = Some p.

(** Proxy numbers are handed out in order. *)
Definition wf_pids (s : state) : Prop :=
  ∀ p x, proxies s !! p = Some x → p < next_pid s.

(** What a read may change: it adds proxies and cache entries. *)
Definition read_ext (s s' : state) : Prop :=
  heap s' = heap s ∧ proxies s ⊆ proxies s' ∧ cache_le s s'.

Lemma cache_le_refl s : cache_le s s.
Proof. by intros r cb p. Qed.

Lemma cache_le_trans s1 s2 s3 : cache_le s1 s2 → cache_le s2 s3 → cache_le s1 s3.
Proof. intros H12 H23 r cb p H. by apply H23, H12. Qed.

Lemma read_ext_refl s : read_ext s s.
Proof. split; [done | split; [done | apply cache_le_refl]]. Qed.

Lemma read_ext_trans s1 s2 s3 : read_ext s1 s2 → read_ext s2 s3 → read_ext s1 s3.
Proof.
  intros (Hh12 & Hp12 & Hc12) (Hh23 & Hp23 & Hc23).
  split; [congruence | split; [by etrans | by eapply cache_le_trans]].
Qed.

(** A hit returns the cached proxy and changes nothing. *)
Lemma createDeepProxy_hit target r cb p s :
  as_ref target = Some r →
  cache_lookup s r cb = Some p →
  createDeepProxy target (VFun cb) s = (s, Ok (VProxy p)).
Proof. intros Hr Hc. unfold createDeepProxy. by rewrite Hr, Hc. Qed.

(** Wrapping an object with a function returns a proxy that is in the
    cache from then on, and keeps what the cache held. *)
Lemma createDeepProxy_caches target r cb s s' res :
  as_ref target = Some r →
  createDeepProxy target (VFun cb) s = (s', res) →
  ∃ p, res = Ok (VProxy p) ∧ cache_lookup s' r cb = Some p.
Proof.
  intros Hr. unfold createDeepProxy. rewrite Hr.
  destruct (cache_lookup s r cb) as [p|] eqn:Hc; intros [= <- <-].
  - eauto.
  - eexists. split; [done |].
    unfold cache_lookup. cbn [proxyCache set_proxies].
    rewrite lookup_insert_eq. cbn. by rewrite lookup_insert_eq.
Qed.

Lemma createDeepProxy_cache_le target callback s s' res :
  createDeepProxy target callback s = (s', res) → cache_le s s'.
Proof.
  unfold createDeepProxy.
  destruct (as_ref target) as [r|]; [| intros [= <- <-]; apply cache_le_refl].
  destruct callback as [| | | | | | |cb]; try (intros [= <- <-]; apply cache_le_refl).
  destruct (cache_lookup s r cb) as [p|] eqn:Hc; intros [= <- <-];
    [apply cache_le_refl |].
  intros r' cb' p' Hold. unfold cache_lookup in *. cbn [proxyCache set_proxies].
  destruct (decide (r' = r)) as [->|Hne].
  - rewrite lookup_insert_eq. cbn.
    destruct (proxyCache s !! r) as [m|] eqn:Hm; cbn in *.
    + destruct (decide (cb' = cb)) as [->|Hcb]; [congruence |].
      by rewrite lookup_insert_ne.
    + done.
  - by rewrite lookup_insert_ne.
Qed.

Lemma createDeepProxy_read_ext target callback s s' res :
  wf_pids s →
  createDeepProxy target callback s = (s', res) →
  read_ext s s' ∧ wf_pids s'.
Proof.
  intros Hwf Hc. split; [split; [| split] |].
  - revert Hc. unfold createDeepProxy.
    destruct (as_ref target); [| by intros [= <- <-]].
    destruct callback; try by intros [= <- <-].
    by destruct (cache_lookup _ _ _); intros [= <- <-].
  - revert Hc. unfold createDeepProxy.
    destruct (as_ref target); [| by intros [= <- <-]].
    destruct callback; try by intros [= <- <-].
    destruct (cache_lookup _ _ _); intros [= <- <-]; [done |].
    cbn [proxies set_proxies]. apply insert_subseteq.
    destruct (proxies s !! next_pid s) as [x|] eqn:Hx; [| done].
    apply Hwf in Hx. lia.
  - by eapply createDeepProxy_cache_le.
  - revert Hc. unfold createDeepProxy.
    destruct (as_ref target); [| by intros [= <- <-]].
    destruct callback; try by intros [= <- <-].
    destruct (cache_lookup _ _ _); intros [= <- <-]; [done |].
    intros p x. cbn [proxies next_pid set_proxies].
    destruct (decide (p = next_pid s)) as [->|Hne]; [lia |].
    rewrite lookup_insert_ne by done. intros Hp%Hwf. lia.
Qed.

Lemma reflect_get_read_ext fuel r k s s' res :
  wf_pids s →
  reflect_get fuel r k s = (s', res) →
  read_ext s s' ∧ wf_pids s'.
Proof.
  revert r s s' res. induction fuel as [|fuel IH]; intros r s s' res Hwf.
  - destruct r as [a|p]; simpl.
    + destruct (heap s !! a); intros [= <- <-]; split; (done || apply read_ext_refl).
    + intros [= <- <-]; split; (done || apply read_ext_refl).
  - destruct r as [a|p]; simpl.
    + destruct (heap s !! a); intros [= <- <-]; split; (done || apply read_ext_refl).
    + destruct (proxies s !! p) as [[obj cb]|];
        [| intros [= <- <-]; split; (done || apply read_ext_refl)].
      destruct (reflect_get fuel obj k s) as [s1 [v|e]] eqn:Hget.
      * destruct (IH _ _ _ _ Hwf Hget) as [Hext Hwf1].
        destruct (as_ref v).
        -- intros Hc. destruct (createDeepProxy_read_ext _ _ _ _ _ Hwf1 Hc) as [Hext' Hwf'].
           split; [by eapply read_ext_trans | done].
        -- by intros [= <- <-].
      * intros [= <- <-]. by eapply IH.
Qed.

(** A read that has gone through gives the same result again on any store
    that reads have extended, and leaves that store as it is. *)
Lemma reflect_get_again fuel r k s s1 v :
  wf_pids s →
  reflect_get fuel r k s = (s1, Ok v) →
  ∀ s', read_ext s1 s' → reflect_get fuel r k s' = (s', Ok v).
Proof.
  revert r s s1 v. induction fuel as [|fuel IH]; intros r s s1 v Hwf.
  - destruct r as [a|p]; simpl; [| done].
    destruct (heap s !! a) eqn:Ha; [| done]. intros [= <- <-].
    intros s' (Hh & _ & _). by rewrite Hh, Ha.
  - destruct r as [a|p]; simpl.
    { destruct (heap s !! a) eqn:Ha; [| done]. intros [= <- <-].
      intros s' (Hh & _ & _). by rewrite Hh, Ha. }
    destruct (proxies s !! p) as [[obj cb]|] eqn:Hp; [| done].
    destruct (reflect_get fuel obj k s) as [s0 [v0|e]] eqn:Hget; [| done].
    destruct (reflect_get_read_ext _ _ _ _ _ _ Hwf Hget) as [Hext0 Hwf0].
    intros Hwrap s' Hext'.
    assert (Hext1 : read_ext s0 s1).
    { destruct (as_ref v0); [by eapply createDeepProxy_read_ext |].
      injection Hwrap as <- <-. apply read_ext_refl. }
    assert (Hp' : proxies s' !! p = Some (obj, cb)).
    { destruct Hext0 as (_ & Hs0 & _), Hext1 as (_ & Hs1 & _), Hext' as (_ & Hs' & _).
      eapply lookup_weaken; [| exact Hs'].
      eapply lookup_weaken; [| exact Hs1].
      eapply lookup_weaken; [exact Hp | exact Hs0]. }
    rewrite Hp'.
    rewrite (IH _ _ _ _ Hwf Hget s') by (by eapply read_ext_trans).
    destruct (as_ref v0) as [r0|] eqn:Hr0; [| by injection Hwrap as <- <-].
    destruct (createDeepProxy_caches _ _ _ _ _ _ Hr0 Hwrap) as (p0 & [= ->] & Hcached).
    apply (createDeepProxy_hit _ r0); [done |].
    destruct Hext' as (_ & _ & Hcache'). by apply Hcache'.
Qed.

Lemma js_get_read_ext w k s s' res :
  wf_pids s → js_get w k s = (s', res) → read_ext s s' ∧ wf_pids s'.
Proof.
  intros Hwf. unfold js_get.
  destruct (as_ref w); [by apply reflect_get_read_ext |].
  destruct w; intros [= <- <-]; split; (done || apply read_ext_refl).
Qed.

Lemma js_get_again w k s s1 v :
  wf_pids s →
  js_get w k s = (s1, Ok v) →
  ∀ s', read_ext s1 s' → js_get w k s' = (s', Ok v).
Proof.
  intros Hwf. unfold js_get.
  destruct (as_ref w); [by apply reflect_get_again |].
  by destruct w; intros [= <- <-].
Qed.

Lemma get_path_read_ext w path s s' res :
  wf_pids s → get_path w path s = (s', res) → read_ext s s' ∧ wf_pids s'.
Proof.
  revert w s. induction path as [|k path IH]; intros w s Hwf; simpl.
  - intros [= <- <-]; split; (done || apply read_ext_refl).
  - destruct (js_get w k s) as [s1 [v|e]] eqn:Hget.
    + destruct (js_get_read_ext _ _ _ _ _ Hwf Hget) as [Hext1 Hwf1].
      intros Hrest. destruct (IH _ _ Hwf1 Hrest) as [Hext Hwf'].
      split; [by eapply read_ext_trans | done].
    + intros [= <- <-]. by eapply js_get_read_ext.
Qed.

Lemma get_path_again w path s s1 v :
  wf_pids s →
  get_path w path s = (s1, Ok v) →
  ∀ s', read_ext s1 s' → get_path w path s' = (s', Ok v).
Proof.
  revert w s. induction path as [|k path IH]; intros w s Hwf; simpl.
  - by intros [= <- <-].
  - destruct (js_get w k s) as [sa [va|e]] eqn:Hget; [| done].
    destruct (js_get_read_ext _ _ _ _ _ Hwf Hget) as [Hexta Hwfa].
    intros Hrest s' Hext'.
    destruct (get_path_read_ext _ _ _ _ _ Hwfa Hrest) as [Hext1 _].
    rewrite (js_get_again _ _ _ _ _ Hwf Hget s') by (by eapply read_ext_trans).
    by eapply IH.
Qed.


(** What leaves the proxies alone. *)
Definition same_proxies (s s' : state) : Prop :=
  proxies s' = proxies s ∧ next_pid s' = next_pid s ∧ proxyCache s' = proxyCache s.

Lemma same_proxies_refl s : same_proxies s s.
Proof. done. Qed.

Lemma same_proxies_trans s1 s2 s3 :
  same_proxies s1 s2 → same_proxies s2 s3 → same_proxies s1 s3.
Proof. intros (?&?&?) (?&?&?). repeat split; congruence. Qed.

Lemma cache_le_eq s s' : proxyCache s' = proxyCache s → cache_le s s'.
Proof. intros H r cb p. unfold cache_lookup. by rewrite H. Qed.

Lemma same_proxies_cache_le s s' : same_proxies s s' → cache_le s s'.
Proof. intros (_ & _ & H). by apply cache_le_eq. Qed.

Lemma same_proxies_wf s s' : same_proxies s s' → wf_pids s → wf_pids s'.
Proof. intros (Hp & Hn & _) Hwf p x. rewrite Hp, Hn. apply Hwf. Qed.

Lemma same_proxies_scheduleCallback cb s : same_proxies s (scheduleCallback cb s).
Proof. unfold scheduleCallback. by case_decide. Qed.

Lemma same_proxies_set_value n v s : same_proxies s (set_value n v s).
Proof. unfold set_value. by destruct (triggers s !! n). Qed.

Lemma reflect_get_cache_le fuel r k s s' res :
  reflect_get fuel r k s = (s', res) → cache_le s s'.
Proof.
  revert r s s' res. induction fuel as [|fuel IH]; intros r s s' res.
  - destruct r as [a|p]; simpl.
    + destruct (heap s !! a); intros [= <- <-]; apply cache_le_refl.
    + intros [= <- <-]; apply cache_le_refl.
  - destruct r as [a|p]; simpl.
    + destruct (heap s !! a); intros [= <- <-]; apply cache_le_refl.
    + destruct (proxies s !! p) as [[obj cb]|];
        [| intros [= <- <-]; apply cache_le_refl].
      destruct (reflect_get fuel obj k s) as [s1 [v|e]] eqn:Hget.
      * destruct (as_ref v).
        -- intros Hc. eapply cache_le_trans; [by eapply IH |].
           by eapply createDeepProxy_cache_le.
        -- intros [= <- <-]. by eapply IH.
      * intros [= <- <-]. by eapply IH.
Qed.

Lemma reflect_set_same_proxies fuel r k v s s' res :
  reflect_set fuel r k v s = (s', res) → same_proxies s s'.
Proof.
  revert r s s' res. induction fuel as [|fuel IH]; intros r s s' res.
  - destruct r as [a|p]; simpl; [| by intros [= <- <-]].
    destruct (heap s !! a); [| by intros [= <- <-]].
    by destruct (ordinary_set _ _ _); intros [= <- <-].
  - destruct r as [a|p]; simpl.
    { destruct (heap s !! a); [| by intros [= <- <-]].
      by destruct (ordinary_set _ _ _); intros [= <- <-]. }
    destruct (proxies s !! p) as [[obj cb]|]; [| by intros [= <- <-]].
    case_decide; [by intros [= <- <-] |].
    destruct (isArray fuel s obj && is_length k); [by apply IH |].
    destruct (reflect_set fuel obj k v s) as [s1 [b|e]] eqn:Hset.
    + intros [= <- <-]. eapply same_proxies_trans; [by eapply IH |].
      apply same_proxies_scheduleCallback.
    + intros [= <- <-]. by eapply IH.
Qed.

Lemma reflect_delete_same_proxies fuel r k s s' res :
  reflect_delete fuel r k s = (s', res) → same_proxies s s'.
Proof.
  revert r s s' res. induction fuel as [|fuel IH]; intros r s s' res.
  - destruct r as [a|p]; simpl; [| by intros [= <- <-]].
    destruct (heap s !! a); [| by intros [= <- <-]].
    by destruct (ordinary_delete _ _); intros [= <- <-].
  - destruct r as [a|p]; simpl.
    { destruct (heap s !! a); [| by intros [= <- <-]].
      by destruct (ordinary_delete _ _); intros [= <- <-]. }
    destruct (proxies s !! p) as [[obj cb]|]; [| by intros [= <- <-]].
    case_decide; [by intros [= <- <-] |].
    destruct (reflect_delete fuel obj k s) as [s1 [b|e]] eqn:Hdel.
    + intros [= <- <-]. eapply same_proxies_trans; [by eapply IH |].
      apply same_proxies_scheduleCallback.
    + intros [= <- <-]. by eapply IH.
Qed.

Lemma wrap_cache_le v callback s s1 r :
  match as_ref v with
  | Some _ => createDeepProxy v callback s
  | None => (s, Ok v)
  end = (s1, r) →
  cache_le s s1.
Proof.
  destruct (as_ref v); [apply createDeepProxy_cache_le |].
  intros [= <- <-]. apply cache_le_refl.
Qed.

Lemma accessor_set_cache_le n v s s' res :
  accessor_set n v s = (s', res) → cache_le s s'.
Proof.
  unfold accessor_set. case_decide; [intros [= <- <-]; apply cache_le_refl |].
  destruct (match as_ref v with Some _ => _ | None => _ end) as [s1 [v1|e]] eqn:Hwrap;
    apply wrap_cache_le in Hwrap; intros [= <- <-]; [| done].
  eapply cache_le_trans; [exact Hwrap |]. apply same_proxies_cache_le.
  eapply same_proxies_trans; [apply same_proxies_set_value |].
  apply same_proxies_scheduleCallback.
Qed.

Lemma watch_cache_le propName cb defaultValue s s' res :
  watch propName cb defaultValue s = (s', res) → cache_le s s'.
Proof.
  unfold watch. destruct cb; try (intros [= <- <-]; apply cache_le_refl).
  set (s0 := if decide _ then _ else s).
  assert (H0 : proxyCache s0 = proxyCache s) by (subst s0; by case_decide).
  set (s1 := set_watch _ _ _ _ s0).
  destruct (match as_ref defaultValue with Some _ => _ | None => _ end)
    as [s2 [v|e]] eqn:Hwrap;
    apply wrap_cache_le in Hwrap; watch_outcome;
    (eapply cache_le_trans; [apply cache_le_eq; exact H0 |]);
    (eapply cache_le_trans; [exact Hwrap |]).
  - apply cache_le_eq. apply (same_proxies_set_value (next_watch s0) v s2).
  - apply cache_le_eq. cbn [proxyCache set_watch].
    apply (same_proxies_set_value (next_watch s0) v s2).
  - apply cache_le_refl.
Qed.

Lemma exec_op_cache_le o s s' res :
  exec_op o s = (s', res) → cache_le s s'.
Proof.
  destruct o; cbn [exec_op].
  - intros [= <- <-]. by apply cache_le_eq.
  - unfold js_get. destruct (as_ref target); [apply reflect_get_cache_le |].
    destruct target; intros [= <- <-]; apply cache_le_refl.
  - unfold js_set. destruct (as_ref target) as [r|].
    + destruct (reflect_set _ r k v s) as [s1 [b|e]] eqn:Hset;
        intros [= <- <-]; apply same_proxies_cache_le; by eapply reflect_set_same_proxies.
    + destruct target; intros [= <- <-]; apply cache_le_refl.
  - unfold js_delete. destruct (as_ref target) as [r|].
    + destruct (reflect_delete _ r k s) as [s1 [b|e]] eqn:Hdel;
        intros [= <- <-]; apply same_proxies_cache_le; by eapply reflect_delete_same_proxies.
    + destruct target; intros [= <- <-]; apply cache_le_refl.
  - intros [= <- <-]. apply cache_le_refl.
  - unfold window_set. destruct (window s !! name) as [[w|n|w]|];
      try (intros [= <- <-]; by apply cache_le_eq).
    apply accessor_set_cache_le.
  - apply watch_cache_le.
  - apply createDeepProxy_cache_le.
  - intros [= <- <-]. apply same_proxies_cache_le, same_proxies_scheduleCallback.
Qed.

(** Every operation of the page keeps the proxy numbers in order. *)
Lemma wrap_wf v callback s s1 r :
  wf_pids s →
  match as_ref v with
  | Some _ => createDeepProxy v callback s
  | None => (s, Ok v)
  end = (s1, r) →
  wf_pids s1.
Proof.
  intros Hwf. destruct (as_ref v); [by apply createDeepProxy_read_ext |].
  by intros [= <- <-].
Qed.

Lemma exec_op_wf o s s' res :
  wf_pids s → exec_op o s = (s', res) → wf_pids s'.
Proof.
  intros Hwf. destruct o; cbn [exec_op].
  - by intros [= <- <-].
  - apply js_get_read_ext, Hwf.
  - unfold js_set. destruct (as_ref target) as [r|].
    + destruct (reflect_set _ r k v s) as [s1 [b|e]] eqn:Hset;
        intros [= <- <-]; eapply same_proxies_wf; eauto using reflect_set_same_proxies.
    + by destruct target; intros [= <- <-].
  - unfold js_delete. destruct (as_ref target) as [r|].
    + destruct (reflect_delete _ r k s) as [s1 [b|e]] eqn:Hdel;
        intros [= <- <-]; eapply same_proxies_wf; eauto using reflect_delete_same_proxies.
    + by destruct target; intros [= <- <-].
  - by intros [= <- <-].
  - unfold window_set. destruct (window s !! name) as [[w|n|w]|];
      try by intros [= <- <-].
    unfold accessor_set. case_decide; [by intros [= <- <-] |].
    destruct (match as_ref v with Some _ => _ | None => _ end) as [s1 [v1|e]] eqn:Hwrap;
      apply wrap_wf in Hwrap; try done; intros [= <- <-]; [| done].
    eapply same_proxies_wf; [| exact Hwrap].
    eapply same_proxies_trans; [apply same_proxies_set_value |].
    apply same_proxies_scheduleCallback.
  - unfold watch. destruct cb; try by intros [= <- <-].
    set (s0 := if decide _ then _ else s).
    assert (H0 : wf_pids s0) by (subst s0; by case_decide).
    set (s1 := set_watch _ _ _ _ s0).
    destruct (match as_ref defaultValue with Some _ => _ | None => _ end)
      as [s2 [v|e]] eqn:Hwrap;
      apply wrap_wf in Hwrap; try done; watch_outcome; [| | done].
    + eapply same_proxies_wf; [apply same_proxies_set_value | done].
    + eapply (same_proxies_wf (set_value (next_watch s0) v s2)); [done |].
      eapply same_proxies_wf; [apply same_proxies_set_value | done].
  - by apply createDeepProxy_read_ext.
  - intros [= <- <-]. eapply same_proxies_wf; [apply same_proxies_scheduleCallback | done].
Qed.

Lemma run_prog_wf c s s' res :
  wf_pids s → run_prog c s = (s', res) → wf_pids s'.
Proof.
  revert s. induction c as [| e | o k IH]; intros s Hwf; simpl.
  - by intros [= <- <-].
  - by intros [= <- <-].
  - destruct (exec_op o s) as [s1 r] eqn:Hop. intros Hrun.
    eapply IH; [| exact Hrun]. by eapply exec_op_wf.
Qed.

Lemma init_wf : wf_pids init.
Proof. intros p x. cbn. by rewrite lookup_empty. Qed.

Lemma run_prog_cache_le c s s' res :
  run_prog c s = (s', res) → cache_le s s'.
Proof.
  revert s. induction c as [| e | o k IH]; intros s; simpl.
  - intros [= <- <-]. apply cache_le_refl.
  - intros [= <- <-]. apply cache_le_refl.
  - destruct (exec_op o s) as [s1 r] eqn:Hop. intros Hrun.
    eapply cache_le_trans; [by eapply exec_op_cache_le | by eapply IH].
Qed.

Section Runs.

Variable body : nat → list value → prog.

Lemma call_cache_le fuel f args s s' res :
  call body fuel f args s = (s', res) → cache_le s s'.
Proof.
  revert f args s. induction fuel as [|fuel IH]; intros f args s.
  - destruct f; simpl.
    + intros Hrun. eapply cache_le_trans; [| by eapply run_prog_cache_le].
      by apply cache_le_eq.
    + intros [= <- <-]. by apply cache_le_eq.
  - destruct f; simpl.
    + intros Hrun. eapply cache_le_trans; [| by eapply run_prog_cache_le].
      by apply cache_le_eq.
    + destruct (triggers s !! n) as [t|].
      * intros Hcall. eapply cache_le_trans; [| by eapply IH]. by apply cache_le_eq.
      * intros [= <- <-]. by apply cache_le_eq.
Qed.

Lemma run_microtask_cache_le cb s s' res :
  run_microtask body cb s = (s', res) → cache_le s s'.
Proof.
  unfold run_microtask.
  destruct (call body _ cb [] _) as [s1 r] eqn:Hcall. intros [= <- <-].
  apply call_cache_le in Hcall.
  intros r0 cb0 p Hp. by apply (Hcall r0 cb0 p).
Qed.

Lemma drain_cache_le fuel s s' :
  drain body fuel s = Some s' → cache_le s s'.
Proof.
  revert s. induction fuel as [|fuel IH]; intros s; simpl.
  - destruct (microtasks s); [| done]. intros [= <-]. apply cache_le_refl.
  - destruct (microtasks s) as [|cb rest]; [intros [= <-]; apply cache_le_refl |].
    destruct (run_microtask body cb _) as [s1 r] eqn:Hrun. intros Hdrain.
    apply run_microtask_cache_le in Hrun. apply IH in Hdrain.
    intros r0 cb0 p Hp. apply Hdrain.
    destruct r; by apply (Hrun r0 cb0 p).
Qed.

Lemma tick_cache_le fuel c s s' :
  tick body fuel c s = Some s' → cache_le s s'.
Proof.
  unfold tick. destruct (run_prog c s) as [s1 r] eqn:Hrun. intros Hdrain.
  apply run_prog_cache_le in Hrun. apply drain_cache_le in Hdrain.
  intros r0 cb0 p Hp. apply Hdrain. destruct r; by apply (Hrun r0 cb0 p).
Qed.

(** C3.  Wrapping an object or array with a callback returns a proxy, and
    wrapping the same value with the same callback again returns that very
    proxy and changes nothing, whether at once, after any code of the
    page, or after any number of ticks.  Reading a property path off any
    value twice in a row gives the same result both times, so the same
    proxy when it ends at an object; the second read leaves the store as
    the first left it. *)
Theorem wrapper_identity_is_stable :
  (∀ s target r cb,
     as_ref target = Some r →
     ∃ p s1,
       createDeepProxy target (VFun cb) s = (s1, Ok (VProxy p))
       ∧ createDeepProxy target (VFun cb) s1 = (s1, Ok (VProxy p))
       ∧ (∀ c s2 res, run_prog c s1 = (s2, res) →
            createDeepProxy target (VFun cb) s2 = (s2, Ok (VProxy p)))
       ∧ (∀ fuel c s2, tick body fuel c s1 = Some s2 →
            createDeepProxy target (VFun cb) s2 = (s2, Ok (VProxy p))))
  ∧ (∀ s w path s1 v,
       wf_pids s →
       get_path w path s = (s1, Ok v) →
       get_path w path s1 = (s1, Ok v)).
Proof.
  split.
  - intros s target r cb Hr.
    destruct (createDeepProxy target (VFun cb) s) as [s1 res] eqn:Hwrap.
    destruct (createDeepProxy_caches _ _ _ _ _ _ Hr Hwrap) as (p & -> & Hcached).
    exists p, s1. split; [done |]. split; [by apply (createDeepProxy_hit _ r) |].
    split.
    + intros c s2 res Hrun. apply (createDeepProxy_hit _ r); [done |].
      by apply (run_prog_cache_le _ _ _ _ Hrun).
    + intros fuel c s2 Htick. apply (createDeepProxy_hit _ r); [done |].
      by apply (tick_cache_le _ _ _ _ Htick).
  - intros s w path s1 v Hwf Hread.
    apply (get_path_again _ _ _ _ _ Hwf Hread). apply read_ext_refl.
Qed.

End Runs.


(** [watch('x', cb, { a: { b: 1 } })] from the empty store: the inner
    object is at address 0, the outer one at address 1, and proxy 0 wraps
    the outer one for the trigger of [x]. *)
Definition nested_x : state :=
  (run_prog
     (in_order [OpAlloc (mkObj false {[KStr "b" := VNum 1]} 0);
                OpAlloc (mkObj false {[KStr "a" := VObj 0]} 0);
                OpWatch "x" (VFun (FUser 0)) (VObj 1)]) init).1.

Lemma wrapper_identity_is_stable_example :
  let once := get_path (VProxy 0) [KStr "a"] nested_x in
  as_ref (VObj 1) = Some (RObj 1)
  ∧ (∃ p s1,
       createDeepProxy (VObj 1) (VFun (FTrigger 0)) nested_x = (s1, Ok (VProxy p))
       ∧ createDeepProxy (VObj 1) (VFun (FTrigger 0)) s1 = (s1, Ok (VProxy p)))
  ∧ window_get "x" nested_x = VProxy 0
  ∧ wf_pids nested_x
  ∧ once.2 = Ok (VProxy 1)
  ∧ get_path (VProxy 0) [KStr "a"] once.1 = (once.1, Ok (VProxy 1)).
Proof.
  cbv zeta.
  assert (Hwf : wf_pids nested_x).
  { eapply run_prog_wf; [apply init_wf | apply surjective_pairing]. }
  assert (Hread : get_path (VProxy 0) [KStr "a"] nested_x
                  = ((get_path (VProxy 0) [KStr "a"] nested_x).1, Ok (VProxy 1)))
    by (vm_compute; reflexivity).
  split; [reflexivity |]. split; [| split; [reflexivity | split; [exact Hwf |]]].
  - destruct (proj1 (wrapper_identity_is_stable (λ _ _, Ret))
                nested_x (VObj 1) (RObj 1) (FTrigger 0) eq_refl)
      as (p & s1 & Hfirst & Hsecond & _).
    by exists p, s1.
  - split; [by rewrite Hread |].
    exact (proj2 (wrapper_identity_is_stable (λ _ _, Ret)) _ _ _ _ _ Hwf Hread).
Defined.


(** *** Batching *)



Definition same_sched (s s' : state) : Prop :=
  scheduledCallbacks s' = scheduledCallbacks s ∧ microtasks s' = microtasks s.




Lemma same_sched_refl s : same_sched s s.
Proof. done. Qed.

Lemma same_sched_trans s1 s2 s3 : same_sched s1 s2 → same_sched s2 s3 → same_sched s1 s3.
Proof. intros [? ?] [? ?]. split; congruence. Qed.

Lemma scheduleCallback_scheduled cb s : cb ∈ scheduledCallbacks (scheduleCallback cb s).
Proof.
  unfold scheduleCallback. case_decide; [done |].
  cbn [scheduledCallbacks set_schedule]. set_solver.
Qed.


Lemma createDeepProxy_same_sched target callback s s' res :
  createDeepProxy target callback s = (s', res) → same_sched s s'.
Proof.
  unfold createDeepProxy.
  destruct (as_ref target); [| by intros [= <- <-]].
  destruct callback; try by intros [= <- <-].
  by destruct (cache_lookup _ _ _); intros [= <- <-].
Qed.

Lemma wrap_same_sched v callback s s1 r :
  match as_ref v with
  | Some _ => createDeepProxy v callback s
  | None => (s, Ok v)
  end = (s1, r) →
  same_sched s s1.
Proof.
  destruct (as_ref v); [apply createDeepProxy_same_sched |]. by intros [= <- <-].
Qed.

Lemma reflect_get_same_sched fuel r k s s' res :
  reflect_get fuel r k s = (s', res) → same_sched s s'.
Proof.
  revert r s s' res. induction fuel as [|fuel IH]; intros r s s' res.
  - destruct r as [a|p]; simpl; [| by intros [= <- <-]].
    by destruct (heap s !! a); intros [= <- <-].
  - destruct r as [a|p]; simpl.
    { by destruct (heap s !! a); intros [= <- <-]. }
    destruct (proxies s !! p) as [[obj cb]|]; [| by intros [= <- <-]].
    destruct (reflect_get fuel obj k s) as [s1 [v|e]] eqn:Hget.
    + intros Hwrap. eapply same_sched_trans; [by eapply IH |].
      by eapply wrap_same_sched.
    + intros [= <- <-]. by eapply IH.
Qed.



Lemma same_sched_set_value n v s : same_sched s (set_value n v s).
Proof. unfold set_value. by destruct (triggers s !! n). Qed.


Lemma watch_same_sched propName cb defaultValue s s' res :
  watch propName cb defaultValue s = (s', res) → same_sched s s'.
Proof.
  unfold watch. destruct cb; try by intros [= <- <-].
  set (s0 := if decide _ then _ else s).
  assert (H0 : same_sched s s0) by (subst s0; by case_decide).
  set (s1 := set_watch _ _ _ _ s0).
  destruct (match as_ref defaultValue with Some _ => _ | None => _ end)
    as [s2 [v|e]] eqn:Hwrap;
    apply wrap_same_sched in Hwrap; watch_outcome;
    (eapply same_sched_trans; [exact H0 |]);
    (eapply same_sched_trans; [exact Hwrap |]); [| | done].
  - apply (same_sched_set_value (next_watch s0) v s2).
  - apply (same_sched_set_value (next_watch s0) v s2).
Qed.







#[global] Instance event_eq_dec : EqDecision event.
Proof. solve_decision. Defined.

(** How often [x] stands in [l]. *)
Definition count {A} `{EqDecision A} (x : A) (l : list A) : nat :=
  length (filter (λ y, y = x) l).

Lemma count_nil {A} `{EqDecision A} (x : A) : count x [] = 0.
Proof. done. Qed.




















(** The microtask entry of a callback in the log: its call with no
    argument. *)
Definition entry (cb : fn) : event := EvCall cb [].

Section Microtasks.

Variable body : nat → list value → prog.














End Microtasks.








(** Without the proviso the trigger can run again.  After
    [watch('x', f, 1); watch('y', g, 1)], where [g] assigns [x = 5], the
    unit [x = 2; y = 2] queues the two triggers once each; the trigger of
    [x] runs, then the trigger of [y], whose callback schedules the
    trigger of [x] anew, and it runs a second time before the microtasks
    end. *)
Definition meddler (u : nat) (args : list value) : prog :=
  match u with
  | 1 => in_order [OpWindowSet "x" (VNum 5)]
  | _ => Ret
  end.

Definition watching_x_and_y : state :=
  (run_prog
     (in_order [OpWatch "x" (VFun (FUser 0)) (VNum 1);
                OpWatch "y" (VFun (FUser 1)) (VNum 1)]) init).1.

Example another_callback_notifies_again :
  let s' := (run_prog (in_order [OpWindowSet "x" (VNum 2); OpWindowSet "y" (VNum 2)])
               watching_x_and_y).1 in
  microtasks s' = [FTrigger 0; FTrigger 1]
  ∧ log s' = []
  ∧ ∃ sf,
      drain meddler 3 s' = Some sf
      ∧ log sf = [EvCall (FTrigger 0) []; EvCall (FUser 0) [VStr "x"; VNum 2];
                  EvCall (FTrigger 1) []; EvCall (FUser 1) [VStr "y"; VNum 2];
                  EvCall (FTrigger 0) []; EvCall (FUser 0) [VStr "x"; VNum 5]]
      ∧ count (entry (FTrigger 0)) (log sf) = 2.
Proof.
  cbv zeta. split; [vm_compute; reflexivity |]. split; [vm_compute; reflexivity |].
  eexists. split; [vm_compute; reflexivity |]. split; vm_compute; reflexivity.
Qed.


End ReactiveTheory.

(** ** The range generator, in closed form *)

Module RangeFacts.
Import Js Template.

Local Open Scope list_scope.

(** The arithmetic progression [i, i + step, ...] of [n] terms. *)
Definition progression (i step : Z) (n : nat) : list num :=
  (λ k, Some (i + Z.of_nat k * step)%Z) <$> seq 0 n.

(** How many terms of the progression from [start] by [step] do not pass
    [end_]. *)
Definition terms (start end_ step : Z) : nat :=
  if (0 <? step)%Z then Z.to_nat ((end_ - start) / step + 1)
  else if (step <? 0)%Z then Z.to_nat ((start - end_) / (- step) + 1)
  else 0.

Lemma progression_S i step n :
  progression i step (S n) = Some i :: progression (i + step) step n.
Proof.
  unfold progression. cbn [seq fmap list_fmap]. f_equal; [f_equal; lia |].
  rewrite <- seq_shift, <- list_fmap_compose.
  apply list_fmap_ext. intros _ k _. cbn. f_equal. lia.
Qed.

Lemma range_up_progression n :
  ∀ fuel i e st acc,
    (0 < st)%Z → n = Z.to_nat ((e - i) / st + 1) → (n ≤ fuel)%nat →
    range_up fuel (Some i) (Some e) (Some st) acc = Some (acc ++ progression i st n).
Proof.
  induction n as [|n IH]; intros fuel i e st acc Hst Hn Hfuel.
  - assert (e < i)%Z by (Z.div_mod_to_equations; nia).
    assert (Hle : num_le (Some i) (Some e) = false) by (cbn; lia).
    destruct fuel; cbn [range_up]; rewrite Hle; by rewrite app_nil_r.
  - assert (i <= e)%Z by (Z.div_mod_to_equations; nia).
    assert (Hle : num_le (Some i) (Some e) = true) by (cbn; lia).
    destruct fuel as [|fuel]; [lia |]. cbn [range_up]. rewrite Hle.
    cbn [num_add]. rewrite (IH fuel (i + st)%Z e st (acc ++ [Some i])); [| done | | lia].
    + by rewrite progression_S, <- app_assoc.
    + replace (e - (i + st))%Z with ((e - i) + (-1) * st)%Z by lia.
      rewrite Z.div_add by lia. lia.
Qed.

Lemma range_down_progression n :
  ∀ fuel i e st acc,
    (st < 0)%Z → n = Z.to_nat ((i - e) / (- st) + 1) → (n ≤ fuel)%nat →
    range_down fuel (Some i) (Some e) (Some st) acc = Some (acc ++ progression i st n).
Proof.
  induction n as [|n IH]; intros fuel i e st acc Hst Hn Hfuel.
  - assert (i < e)%Z by (Z.div_mod_to_equations; nia).
    assert (Hle : num_le (Some e) (Some i) = false) by (cbn; lia).
    destruct fuel; cbn [range_down]; rewrite Hle; by rewrite app_nil_r.
  - assert (e <= i)%Z by (Z.div_mod_to_equations; nia).
    assert (Hle : num_le (Some e) (Some i) = true) by (cbn; lia).
    destruct fuel as [|fuel]; [lia |]. cbn [range_down]. rewrite Hle.
    cbn [num_add]. rewrite (IH fuel (i + st)%Z e st (acc ++ [Some i])); [| done | | lia].
    + by rewrite progression_S, <- app_assoc.
    + replace (i + st - e)%Z with ((i - e) + (-1) * (- st))%Z by lia.
      rewrite Z.div_add by lia. lia.
Qed.

(** [Number.isSafeInteger]: an integer that a number holds exactly, with
    its two neighbours. *)
Definition isSafeInteger (z : Z) : bool := (Z.abs z <=? 9007199254740991)%Z.

(** X1.  For safe integers, [createRangeArray(start, end, step)] is the
    arithmetic progression [start, start + step, start + 2 step, ...] cut
    where it would pass [end]: with a positive step its
    [(end - start) / step + 1] terms when [start <= end], with a negative
    step its [(start - end) / (-step) + 1] terms when [start >= end], and
    no term otherwise.  The end is included when the progression hits it.
    (Every term lies between [start] and [end], so the additions that
    give the terms are exact; the one after the last term may round, and
    is past [end] all the same.  Beyond the safe integers the sums of the
    code round and the progression is another, or the loop has no end.) *)
Theorem createRangeArray_progression (start end_ step : Z) :
  isSafeInteger start = true →
  isSafeInteger end_ = true →
  isSafeInteger step = true →
  createRangeArray (Some start) (Some end_) (Some step)
  = progression start step (terms start end_ step).
Proof.
  intros _ _ _.
  unfold createRangeArray, createRangeArray_within, terms, range_turns, num_lt.
  destruct (Z.ltb_spec 0 step) as [Hpos|Hnpos].
  - rewrite (range_up_progression (Z.to_nat ((end_ - start) / step + 1))); try done.
    assert ((end_ - start) / step <= Z.abs (end_ - start))%Z; [| lia].
    destruct (Z.le_gt_cases 0 (end_ - start)).
    + transitivity (end_ - start)%Z; [| lia].
      apply Z.div_le_upper_bound; nia.
    + assert ((end_ - start) / step < 0)%Z; [| lia].
      apply Z.div_lt_upper_bound; lia.
  - destruct (Z.ltb_spec step 0) as [Hneg|Hzero]; [| done].
    rewrite (range_down_progression (Z.to_nat ((start - end_) / (- step) + 1))); try done.
    assert ((start - end_) / (- step) <= Z.abs (end_ - start))%Z; [| lia].
    destruct (Z.le_gt_cases 0 (start - end_)).
    + transitivity (start - end_)%Z; [| lia].
      apply Z.div_le_upper_bound; nia.
    + assert ((start - end_) / (- step) < 0)%Z; [| lia].
      apply Z.div_lt_upper_bound; lia.
Qed.

(** [createRangeArray(1, 10, 3)] is [[1, 4, 7, 10]] and
    [createRangeArray(10, 1, -4)] is [[10, 6, 2]]. *)
Lemma createRangeArray_progression_example :
  createRangeArray (Some 1%Z) (Some 10%Z) (Some 3%Z)
  = [Some 1%Z; Some 4%Z; Some 7%Z; Some 10%Z]
  ∧ createRangeArray (Some 10%Z) (Some 1%Z) (Some (-4)%Z)
    = [Some 10%Z; Some 6%Z; Some 2%Z].
Proof.
  split.
  - exact (createRangeArray_progression 1 10 3 eq_refl eq_refl eq_refl).
  - exact (createRangeArray_progression 10 1 (-4) eq_refl eq_refl eq_refl).
Defined.

(** X2.  A NaN among the three arguments makes both loop conditions false
    at once: whichever argument is NaN, and whatever the other two are,
    the range generator returns the empty array. *)
Theorem createRangeArray_nan :
  (∀ end_ step, createRangeArray None end_ step = [])
  ∧ (∀ start step, createRangeArray start None step = [])
  ∧ (∀ start end_, createRangeArray start end_ None = []).
Proof.
  unfold createRangeArray, createRangeArray_within.
  split; [| split].
  - intros end_ step. cbn [range_turns].
    destruct (num_lt (Some 0%Z) step); [done |].
    destruct (num_lt step (Some 0%Z)); [| done].
    by destruct end_.
  - intros start step.
    assert (Hturns : range_turns start None = 0) by (by destruct start).
    rewrite Hturns.
    destruct (num_lt (Some 0%Z) step); [by destruct start |].
    destruct (num_lt step (Some 0%Z)); [| done].
    by destruct start.
  - intros start end_. reflexivity.
Qed.

End RangeFacts.

(** ** More on the reactive store *)

Module ReactiveFacts.
Import Reactive ReactiveTheory.

Local Open Scope list_scope.

(** *** The cache tells the truth *)

(** Every entry of the cache names a proxy with that target and that
    callback. *)
Definition cache_sound (s : state) : Prop :=
  ∀ r cb p, cache_lookup s r cb = Some p → proxies s !! p = Some (r, cb).

Definition tracked (s : state) : Prop := wf_pids s ∧ cache_sound s.

Lemma init_tracked : tracked init.
Proof. split; [apply init_wf |]. intros r cb p. unfold cache_lookup. cbn. by rewrite lookup_empty. Qed.

Lemma same_proxies_tracked s s' : same_proxies s s' → tracked s → tracked s'.
Proof.
  intros Hsame [Hwf Hsound]. split; [by eapply same_proxies_wf |].
  destruct Hsame as (Hp & _ & Hc). intros r cb p. unfold cache_lookup.
  rewrite Hc, Hp. apply Hsound.
Qed.

Lemma createDeepProxy_tracked target callback s s' res :
  tracked s → createDeepProxy target callback s = (s', res) →
  tracked s' ∧ proxies s ⊆ proxies s'.
Proof.
  intros [Hwf Hsound] Hc.
  destruct (createDeepProxy_read_ext _ _ _ _ _ Hwf Hc) as [(_ & Hsub & _) Hwf'].
  split; [split; [done |] | done].
  revert Hc. unfold createDeepProxy.
  destruct (as_ref target) as [r|]; [| by intros [= <- <-]].
  destruct callback as [| | | | | | |cb]; try by intros [= <- <-].
  destruct (cache_lookup s r cb) as [p|] eqn:Hmiss; intros [= <- <-]; [done |].
  intros r' cb' p'. unfold cache_lookup. cbn [proxyCache proxies set_proxies].
  assert (Hold : ∀ r0 cb0, cache_lookup s r0 cb0 = Some p' →
                 <[next_pid s := (r, cb)]> (proxies s) !! p' = Some (r0, cb0)).
  { intros r0 cb0 H0. apply Hsound in H0. rewrite lookup_insert_ne; [done |].
    apply Hwf in H0. lia. }
  destruct (decide (r' = r)) as [->|Hr].
  - rewrite lookup_insert_eq. cbn.
    destruct (decide (cb' = cb)) as [->|Hcb].
    + rewrite lookup_insert_eq. intros [= <-]. by rewrite lookup_insert_eq.
    + rewrite lookup_insert_ne by done. intros Hin. apply Hold.
      unfold cache_lookup. destruct (proxyCache s !! r); [done |].
      cbn in Hin. by rewrite lookup_empty in Hin.
  - rewrite lookup_insert_ne by done. apply Hold.
Qed.

Lemma wrap_tracked v callback s s1 r :
  tracked s →
  match as_ref v with
  | Some _ => createDeepProxy v callback s
  | None => (s, Ok v)
  end = (s1, r) →
  tracked s1 ∧ proxies s ⊆ proxies s1.
Proof.
  intros Ht. destruct (as_ref v); [by apply createDeepProxy_tracked |].
  by intros [= <- <-].
Qed.

Lemma reflect_get_tracked fuel r k s s' res :
  tracked s → reflect_get fuel r k s = (s', res) →
  tracked s' ∧ proxies s ⊆ proxies s'.
Proof.
  revert r s s' res. induction fuel as [|fuel IH]; intros r s s' res Ht.
  - destruct r as [a|p]; simpl.
    + by destruct (heap s !! a); intros [= <- <-].
    + by intros [= <- <-].
  - destruct r as [a|p]; simpl.
    + by destruct (heap s !! a); intros [= <- <-].
    + destruct (proxies s !! p) as [[obj cb]|]; [| by intros [= <- <-]].
      destruct (reflect_get fuel obj k s) as [s1 [v|e]] eqn:Hget.
      * destruct (IH _ _ _ _ Ht Hget) as [Ht1 Hsub1].
        destruct (as_ref v).
        -- intros Hc. destruct (createDeepProxy_tracked _ _ _ _ _ Ht1 Hc) as [Ht' Hsub'].
           split; [done | by etrans].
        -- by intros [= <- <-].
      * intros [= <- <-]. by eapply IH.
Qed.

Lemma same_proxies_emit e s : same_proxies s (emit e s).
Proof. done. Qed.

(** Whatever the page does, the cache stays truthful and no proxy is
    forgotten or bound anew. *)
Lemma exec_op_tracked o s s' res :
  tracked s → exec_op o s = (s', res) → tracked s' ∧ proxies s ⊆ proxies s'.
Proof.
  intros Ht.
  assert (Hsame : ∀ s1, same_proxies s s1 → tracked s1 ∧ proxies s ⊆ proxies s1).
  { intros s1 Hs. split; [by eapply same_proxies_tracked |].
    destruct Hs as (-> & _). done. }
  destruct o; cbn [exec_op].
  - intros [= <- <-]. by apply Hsame.
  - unfold js_get. destruct (as_ref target); [by apply reflect_get_tracked |].
    by destruct target; intros [= <- <-].
  - unfold js_set. destruct (as_ref target) as [r|].
    + destruct (reflect_set _ r k v s) as [s1 [b|e]] eqn:Hset;
        intros [= <- <-]; apply Hsame; by eapply reflect_set_same_proxies.
    + by destruct target; intros [= <- <-].
  - unfold js_delete. destruct (as_ref target) as [r|].
    + destruct (reflect_delete _ r k s) as [s1 [b|e]] eqn:Hdel;
        intros [= <- <-]; apply Hsame; by eapply reflect_delete_same_proxies.
    + by destruct target; intros [= <- <-].
  - by intros [= <- <-].
  - unfold window_set. destruct (window s !! name) as [[w|n|w]|];
      try (intros [= <- <-]; by apply Hsame).
    unfold accessor_set. case_decide; [by intros [= <- <-] |].
    destruct (match as_ref v with Some _ => _ | None => _ end) as [s1 [v1|e]] eqn:Hwrap;
      apply wrap_tracked in Hwrap as [Ht1 Hsub1]; try done; intros [= <- <-]; [| done].
    assert (Hs : same_proxies s1 (scheduleCallback (FTrigger n) (set_value n v1 s1))).
    { eapply same_proxies_trans; [apply same_proxies_set_value |].
      apply same_proxies_scheduleCallback. }
    split; [by eapply same_proxies_tracked |].
    destruct Hs as (-> & _). done.
  - unfold watch. destruct cb; try by intros [= <- <-].
    set (s0 := if decide _ then _ else s).
    assert (H0 : same_proxies s s0) by (subst s0; by case_decide).
    set (s1 := set_watch _ _ _ _ s0).
    assert (H1 : tracked s1) by (by apply (same_proxies_tracked s); [apply H0 |]).
    assert (Hp1 : proxies s1 = proxies s) by apply H0.
    destruct (match as_ref defaultValue with Some _ => _ | None => _ end)
      as [s2 [v|e]] eqn:Hwrap;
      apply wrap_tracked in Hwrap as [Ht2 Hsub2]; try done; watch_outcome.
    + split.
      * eapply same_proxies_tracked; [apply same_proxies_set_value | done].
      * rewrite (proj1 (same_proxies_set_value (next_watch s0) v s2)).
        by rewrite <- Hp1.
    + split.
      * eapply (same_proxies_tracked (set_value (next_watch s0) v s2)); [done |].
        eapply same_proxies_tracked; [apply same_proxies_set_value | done].
      * cbn [proxies set_watch].
        rewrite (proj1 (same_proxies_set_value (next_watch s0) v s2)).
        by rewrite <- Hp1.
    + split; [done | by rewrite <- Hp1].
  - by apply createDeepProxy_tracked.
  - intros [= <- <-]. apply Hsame, same_proxies_scheduleCallback.
Qed.

Lemma run_prog_tracked c s s' res :
  tracked s → run_prog c s = (s', res) → tracked s' ∧ proxies s ⊆ proxies s'.
Proof.
  revert s. induction c as [| e | o k IH]; intros s Ht; simpl.
  - by intros [= <- <-].
  - by intros [= <- <-].
  - destruct (exec_op o s) as [s1 r] eqn:Hop. intros Hrun.
    destruct (exec_op_tracked _ _ _ _ Ht Hop) as [Ht1 Hsub1].
    destruct (IH _ _ Ht1 Hrun) as [Ht' Hsub']. split; [done | by etrans].
Qed.


(** *** A store for the examples

    [watch('profile', cb0, { name: 'Ann', address: { city: 'Rome' } });
     watch('items', cb1, [10, 20, 30])] from the empty store.  The address
    is at 0, the profile at 1, the array at 2; proxy 0 wraps the profile
    for trigger 0 and proxy 1 the array for trigger 1. *)
Definition two_watched : state :=
  (run_prog
     (in_order
        [OpAlloc (mkObj false {[KStr "city" := VStr "Rome"]} 0);
         OpAlloc (mkObj false {[KStr "name" := VStr "Ann"; KStr "address" := VObj 0]} 0);
         OpAlloc (mkObj true {[KIdx 0 := VNum 10; KIdx 1 := VNum 20; KIdx 2 := VNum 30]} 3);
         OpWatch "profile" (VFun (FUser 0)) (VObj 1);
         OpWatch "items" (VFun (FUser 1)) (VObj 2)]) init).1.

Lemma two_watched_tracked : tracked two_watched.
Proof. exact (proj1 (run_prog_tracked _ _ _ _ init_tracked (surjective_pairing _))). Qed.

(** *** Deep watching *)

Lemma js_get_through_proxy p k s s1 v obj cb :
  tracked s → proxies s !! p = Some (obj, cb) →
  js_get (VProxy p) k s = (s1, Ok v) →
  tracked s1
  ∧ match as_ref v with
    | Some _ => ∃ q r', v = VProxy q ∧ proxies s1 !! q = Some (r', cb)
    | None => True
    end.
Proof.
  intros Ht Hp Hget.
  split; [by eapply (exec_op_tracked (OpGet (VProxy p) k)) |].
  revert Hget. unfold js_get. cbn [as_ref depth reflect_get]. rewrite Hp.
  destruct (reflect_get p obj k s) as [s0 [v0|e]] eqn:Hinner; [| done].
  destruct (reflect_get_tracked _ _ _ _ _ _ Ht Hinner) as [Ht0 _].
  destruct (as_ref v0) as [r0|] eqn:Hr0.
  - intros Hc.
    destruct (createDeepProxy_caches _ _ _ _ _ _ Hr0 Hc) as (q & [= ->] & Hcached).
    destruct (createDeepProxy_tracked _ _ _ _ _ Ht0 Hc) as [[_ Hsound] _].
    cbn. exists q, r0. split; [done |]. by apply Hsound.
  - intros [= <- <-]. by rewrite Hr0.
Qed.

Lemma get_path_primitive w path s s1 v :
  as_ref w = None → get_path w path s = (s1, Ok v) → as_ref v = None.
Proof.
  revert w s. induction path as [|k path IH]; intros w s Hw; simpl.
  - by intros [= <- <-].
  - unfold js_get. rewrite Hw.
    destruct w; try done; by apply IH.
Qed.

Lemma mutation_through_proxy_schedules s q r cb :
  proxies s !! q = Some (r, cb) →
  (∀ k w s2 v, is_length k = false →
     exec_op (OpSet (VProxy q) k w) s = (s2, Ok v) → cb ∈ scheduledCallbacks s2)
  ∧ (∀ k s2 v,
       exec_op (OpDelete (VProxy q) k) s = (s2, Ok v) → cb ∈ scheduledCallbacks s2).
Proof.
  intros Hq. split.
  - intros k w s2 v Hk. cbn [exec_op js_set as_ref depth reflect_set]. rewrite Hq, Hk.
    rewrite andb_false_r. case_decide; [done |].
    destruct (reflect_set q r k w s) as [s1 [b|e]]; [| done].
    intros [= <- _]. apply scheduleCallback_scheduled.
  - intros k s2 v. cbn [exec_op js_delete as_ref depth reflect_delete]. rewrite Hq.
    case_decide; [done |].
    destruct (reflect_delete q r k s) as [s1 [b|e]]; [| done].
    intros [= <- _]. apply scheduleCallback_scheduled.
Qed.

(** X3.  Watching is deep.  In a store whose cache is truthful, a wrapper
    read off a wrapper along any property path closes over the very
    callback of the wrapper the path starts from; so a property write
    (other than of [length]) or a property delete that goes through on the
    nested wrapper schedules that callback. *)
Theorem nested_wrappers_notify_the_root s p r cb path s1 q :
  wf_pids s → cache_sound s →
  proxies s !! p = Some (r, cb) →
  get_path (VProxy p) path s = (s1, Ok (VProxy q)) →
  (∃ r', proxies s1 !! q = Some (r', cb))
  ∧ (∀ k w s2 v, is_length k = false →
       exec_op (OpSet (VProxy q) k w) s1 = (s2, Ok v) → cb ∈ scheduledCallbacks s2)
  ∧ (∀ k s2 v,
       exec_op (OpDelete (VProxy q) k) s1 = (s2, Ok v) → cb ∈ scheduledCallbacks s2).
Proof.
  intros Hwf Hsound Hp Hpath.
  assert (Hbound : ∃ r', proxies s1 !! q = Some (r', cb)).
  { assert (Ht : tracked s) by done. clear Hwf Hsound.
    revert p r s Ht Hp Hpath. induction path as [|k path IH]; intros p r s Ht Hp; simpl.
    - intros [= <- <-]. eauto.
    - destruct (js_get (VProxy p) k s) as [sa [va|e]] eqn:Hget; [| done].
      destruct (js_get_through_proxy _ _ _ _ _ _ _ Ht Hp Hget) as [Hta Hva].
      destruct (as_ref va) as [ra|] eqn:Hra.
      + destruct Hva as (q' & r' & -> & Hq'). by apply (IH q' r' sa).
      + intros Hrest. by apply get_path_primitive in Hrest. }
  destruct Hbound as [r' Hq]. split; [eauto |].
  by apply (mutation_through_proxy_schedules s1 q r' cb).
Qed.

Lemma nested_wrappers_notify_the_root_example :
  let read := get_path (VProxy 0) [KStr "address"] two_watched in
  let s2 := (exec_op (OpSet (VProxy 2) (KStr "city") (VStr "Oslo")) read.1).1 in
  wf_pids two_watched
  ∧ cache_sound two_watched
  ∧ proxies two_watched !! 0 = Some (RObj 1, FTrigger 0)
  ∧ read.2 = Ok (VProxy 2)
  ∧ proxies read.1 !! 2 = Some (RObj 0, FTrigger 0)
  ∧ FTrigger 0 ∈ scheduledCallbacks s2.
Proof.
  cbv zeta.
  destruct two_watched_tracked as [Hwf Hsound].
  assert (Hp : proxies two_watched !! 0 = Some (RObj 1, FTrigger 0)) by reflexivity.
  assert (Hread : get_path (VProxy 0) [KStr "address"] two_watched
                  = ((get_path (VProxy 0) [KStr "address"] two_watched).1, Ok (VProxy 2)))
    by (vm_compute; reflexivity).
  destruct (nested_wrappers_notify_the_root _ _ _ _ _ _ _ Hwf Hsound Hp Hread)
    as (_ & Hset & _).
  split; [exact Hwf |]. split; [exact Hsound |]. split; [exact Hp |].
  split; [by rewrite Hread |]. split; [vm_compute; reflexivity |].
  apply (Hset (KStr "city") (VStr "Oslo") _ (VStr "Oslo")); [done |].
  vm_compute; reflexivity.
Defined.


(** *** The write of an array's length *)

Lemma reflect_set_length_silent fuel k v :
  is_length k = true →
  ∀ r s s' res,
    isArray fuel s r = true →
    reflect_set fuel r k v s = (s', res) →
    same_sched s s'.
Proof.
  intros Hk. induction fuel as [|fuel IH]; intros r s s' res.
  - destruct r as [a|p]; simpl; [| done]. intros _.
    destruct (heap s !! a); [| by intros [= <- <-]].
    by destruct (ordinary_set _ _ _); intros [= <- <-].
  - destruct r as [a|p]; simpl.
    { intros _. destruct (heap s !! a); [| by intros [= <- <-]].
      by destruct (ordinary_set _ _ _); intros [= <- <-]. }
    destruct (proxies s !! p) as [[obj cb]|]; [| done].
    intros Harr. rewrite Harr, Hk. cbn [andb].
    case_decide; [by intros [= <- <-] |]. by apply IH.
Qed.

(** X4.  Writing [length] through a wrapper of an array, however many
    wrappers lie between it and the array, never schedules anything:
    whether the write goes through or throws, the set of scheduled
    callbacks and the microtask queue are as before. *)
Theorem length_write_never_notifies s p v s' res :
  isArray (S p) s (RProxy p) = true →
  exec_op (OpSet (VProxy p) (KStr "length") v) s = (s', res) →
  scheduledCallbacks s' = scheduledCallbacks s ∧ microtasks s' = microtasks s.
Proof.
  intros Harr. cbn [exec_op js_set as_ref depth].
  destruct (reflect_set (S p) (RProxy p) (KStr "length") v s) as [s1 r1] eqn:Hset.
  apply (reflect_set_length_silent (S p) (KStr "length") v eq_refl) in Hset; [| done].
  by destruct r1; intros [= <- <-].
Qed.

Lemma length_write_never_notifies_example :
  let r := exec_op (OpSet (VProxy 1) (KStr "length") (VNum 1)) two_watched in
  isArray 2 two_watched (RProxy 1) = true
  ∧ r.2 = Ok (VNum 1)
  ∧ heap r.1 !! 2 = Some (mkObj true {[KIdx 0 := VNum 10]} 1)
  ∧ scheduledCallbacks r.1 = scheduledCallbacks two_watched
  ∧ microtasks r.1 = microtasks two_watched.
Proof.
  cbv zeta.
  assert (Harr : isArray 2 two_watched (RProxy 1) = true) by reflexivity.
  split; [exact Harr |]. split; [vm_compute; reflexivity |].
  split; [vm_compute; reflexivity |].
  exact (length_write_never_notifies two_watched 1 (VNum 1) _ _ Harr (surjective_pairing _)).
Defined.

(** *** Operations that throw *)

Lemma createDeepProxy_throws target callback s s' e :
  createDeepProxy target callback s = (s', Throw e) → s' = s.
Proof.
  unfold createDeepProxy. destruct (as_ref target); [| done].
  destruct callback; try by intros [= <- _].
  by destruct (cache_lookup _ _ _).
Qed.

Lemma wrap_throws v f s s1 e :
  match as_ref v with
  | Some _ => createDeepProxy v (VFun f) s
  | None => (s, Ok v)
  end = (s1, Throw e) → False.
Proof.
  destruct (as_ref v) eqn:Hv; [| done].
  unfold createDeepProxy. rewrite Hv. by destruct (cache_lookup _ _ _).
Qed.

Lemma reflect_get_throws fuel r k s s' e :
  reflect_get fuel r k s = (s', Throw e) → s' = s.
Proof.
  revert r s s' e. induction fuel as [|fuel IH]; intros r s s' e.
  - destruct r as [a|p]; simpl; [| by intros [= <- _]].
    by destruct (heap s !! a); intros [= <- _].
  - destruct r as [a|p]; simpl.
    { by destruct (heap s !! a); intros [= <- _]. }
    destruct (proxies s !! p) as [[obj cb]|]; [| by intros [= <- _]].
    destruct (reflect_get fuel obj k s) as [s1 [v|e1]] eqn:Hget.
    + intros Hwrap. by apply wrap_throws in Hwrap.
    + intros [= <- _]. by eapply IH.
Qed.

Lemma reflect_set_throws fuel r k v s s' e :
  reflect_set fuel r k v s = (s', Throw e) → s' = s.
Proof.
  revert r s s' e. induction fuel as [|fuel IH]; intros r s s' e.
  - destruct r as [a|p]; simpl; [| by intros [= <- _]].
    destruct (heap s !! a); [| by intros [= <- _]].
    by destruct (ordinary_set _ _ _); intros [= <- _].
  - destruct r as [a|p]; simpl.
    { destruct (heap s !! a); [| by intros [= <- _]].
      by destruct (ordinary_set _ _ _); intros [= <- _]. }
    destruct (proxies s !! p) as [[obj cb]|]; [| by intros [= <- _]].
    case_decide; [by intros [= <- _] |].
    destruct (isArray fuel s obj && is_length k); [by apply IH |].
    destruct (reflect_set fuel obj k v s) as [s1 [b|e1]] eqn:Hset; [done |].
    intros [= <- _]. by eapply IH.
Qed.

Lemma reflect_delete_throws fuel r k s s' e :
  reflect_delete fuel r k s = (s', Throw e) → s' = s.
Proof.
  revert r s s' e. induction fuel as [|fuel IH]; intros r s s' e.
  - destruct r as [a|p]; simpl; [| by intros [= <- _]].
    destruct (heap s !! a); [| by intros [= <- _]].
    by destruct (ordinary_delete _ _).
  - destruct r as [a|p]; simpl.
    { destruct (heap s !! a); [| by intros [= <- _]].
      by destruct (ordinary_delete _ _). }
    destruct (proxies s !! p) as [[obj cb]|]; [| by intros [= <- _]].
    case_decide; [by intros [= <- _] |].
    destruct (reflect_delete fuel obj k s) as [s1 [b|e1]] eqn:Hdel; [done |].
    intros [= <- _]. by eapply IH.
Qed.

(** X5.  An operation of the page that is refused has changed nothing.
    When a read, write or delete on any value, an assignment to a name,
    [watch], [createDeepProxy] or [scheduleCallback] throws the error of
    the self-mutation guard, the [TypeError] for a callback that is no
    function, the [RangeError] for an invalid array length or the
    [TypeError] for a property of [undefined] or [null], the whole store
    (objects, wrappers, cache, schedule, watched names, log) is exactly
    as the operation found it.  Not so for [watch] on a name that cannot
    be redefined, which has warned and wrapped the value by the time
    [Object.defineProperty] throws; nor for the [TypeError] that strict
    code raises by itself once a trap has answered [false]. *)
Theorem failed_operation_changes_nothing o s s' e :
  exec_op o s = (s', Throw e) →
  (∀ name, e ≠ CannotRedefine name) →
  s' = s.
Proof.
  intros Hop Herr. revert Hop.
  destruct o; cbn [exec_op]; try done.
  - unfold js_get. destruct (as_ref target); [apply reflect_get_throws |].
    by destruct target; intros [= <- _].
  - unfold js_set. destruct (as_ref target) as [r|].
    + destruct (reflect_set _ r k v s) as [s1 [b|e1]] eqn:Hset; [done |].
      intros [= <- _]. by eapply reflect_set_throws.
    + by destruct target; intros [= <- _].
  - unfold js_delete. destruct (as_ref target) as [r|].
    + destruct (reflect_delete _ r k s) as [s1 [b|e1]] eqn:Hdel; [done |].
      intros [= <- _]. by eapply reflect_delete_throws.
    + by destruct target; intros [= <- _].
  - unfold window_set. destruct (window s !! name) as [[w|n|w]|]; try done.
    unfold accessor_set. case_decide; [by intros [= <- _] |].
    destruct (match as_ref v with Some _ => _ | None => _ end) as [s1 [v1|e1]] eqn:Hwrap;
      [done |].
    by apply wrap_throws in Hwrap.
  - unfold watch. destruct cb; try by intros [= <- _].
    destruct (match as_ref defaultValue with Some _ => _ | None => _ end)
      as [s2 [v|e1]] eqn:Hwrap.
    + intros [[_ [= ->]] | [_ ?]]%define_cases; [| done]. by destruct (Herr propName).
    + by apply wrap_throws in Hwrap.
  - apply createDeepProxy_throws.
Qed.

Lemma failed_operation_changes_nothing_example :
  exec_op (OpSet (VProxy 1) (KStr "length") (VNum (-1))) two_watched
  = (two_watched, Throw InvalidArrayLength)
  ∧ exec_op (OpWatch "total" (VNum 7) (VObj 1)) two_watched
    = (two_watched, Throw NotAFunction).
Proof.
  assert (H1 : (exec_op (OpSet (VProxy 1) (KStr "length") (VNum (-1))) two_watched).2
               = Throw InvalidArrayLength) by (vm_compute; reflexivity).
  assert (H2 : (exec_op (OpWatch "total" (VNum 7) (VObj 1)) two_watched).2
               = Throw NotAFunction) by (vm_compute; reflexivity).
  split.
  - destruct (exec_op (OpSet _ _ _) two_watched) as [s' r] eqn:Hop.
    cbn [snd] in H1. subst r.
    by rewrite (failed_operation_changes_nothing _ _ _ _ Hop ltac:(done)).
  - destruct (exec_op (OpWatch _ _ _) two_watched) as [s' r] eqn:Hop.
    cbn [snd] in H2. subst r.
    by rewrite (failed_operation_changes_nothing _ _ _ _ Hop ltac:(done)).
Defined.

(** The [delete] operator of strict code is no single operation of this
    kind: [delete items.length] is answered [false] by the trap, which
    has scheduled the callback by the time the operator throws. *)
Example strict_delete_of_length :
  let r := run_prog (strict_delete (VProxy 1) (KStr "length")) two_watched in
  r.2 = Throw (CannotDelete (KStr "length"))
  ∧ microtasks two_watched = []
  ∧ microtasks r.1 = [FTrigger 1].
Proof. cbv zeta. repeat split; vm_compute; reflexivity. Qed.


(** *** Writing, deleting and reading back *)

(** A read does not look at the schedule. *)
Lemma createDeepProxy_set_schedule target callback sc q s :
  createDeepProxy target callback (set_schedule sc q s)
  = (set_schedule sc q (createDeepProxy target callback s).1,
     (createDeepProxy target callback s).2).
Proof.
  unfold createDeepProxy. destruct (as_ref target); [| done].
  destruct callback; try done.
  unfold cache_lookup. cbn [proxyCache set_schedule].
  by destruct (proxyCache s !! r ≫= _).
Qed.

Lemma reflect_get_set_schedule fuel r k sc q s :
  reflect_get fuel r k (set_schedule sc q s)
  = (set_schedule sc q (reflect_get fuel r k s).1, (reflect_get fuel r k s).2).
Proof.
  revert r s. induction fuel as [|fuel IH]; intros r s.
  - destruct r as [a|p]; simpl; [| done]. by destruct (heap s !! a).
  - destruct r as [a|p]; simpl; [by destruct (heap s !! a) |].
    destruct (proxies s !! p) as [[obj cb]|]; [| done].
    rewrite IH. destruct (reflect_get fuel obj k s) as [s1 [v|e]]; [| done].
    cbn [fst snd]. destruct (as_ref v); [| done].
    apply createDeepProxy_set_schedule.
Qed.

Lemma reflect_get_scheduleCallback fuel r k cb s v :
  reflect_get fuel r k s = (s, Ok v) →
  reflect_get fuel r k (scheduleCallback cb s) = (scheduleCallback cb s, Ok v).
Proof.
  intros Hget. unfold scheduleCallback. case_decide; [done |].
  by rewrite reflect_get_set_schedule, Hget.
Qed.

Lemma ordinary_set_get o k v o' :
  is_array o && is_length k = false →
  ordinary_set o k v = Ok o' → ordinary_get o' k = v.
Proof.
  unfold ordinary_set, ordinary_get. intros Hk.
  destruct (is_array o) eqn:Harr; cbn [andb] in Hk.
  - destruct k as [i|name].
    + intros [= <-]. cbn. by rewrite lookup_insert_eq.
    + rewrite Hk. intros [= <-]. cbn [is_array props andb].
      by rewrite lookup_insert_eq.
  - intros [= <-]. cbn. by rewrite lookup_insert_eq.
Qed.

Lemma reflect_set_get fuel k v :
  as_ref v = None →
  ∀ r s s' b,
    isArray fuel s r && is_length k = false →
    reflect_set fuel r k v s = (s', Ok b) →
    reflect_get fuel r k s' = (s', Ok v).
Proof.
  intros Hv. induction fuel as [|fuel IH]; intros r s s' b.
  - destruct r as [a|p]; simpl; [| done].
    destruct (heap s !! a) as [o|] eqn:Ha; [| done]. intros Hk.
    destruct (ordinary_set o k v) as [o'|e] eqn:Hset; [| done].
    intros [= <- _]. cbn [heap set_heap]. rewrite lookup_insert_eq.
    by rewrite (ordinary_set_get _ _ _ _ Hk Hset).
  - destruct r as [a|p]; simpl.
    { destruct (heap s !! a) as [o|] eqn:Ha; [| done]. intros Hk.
      destruct (ordinary_set o k v) as [o'|e] eqn:Hset; [| done].
      intros [= <- _]. cbn [heap set_heap]. rewrite lookup_insert_eq.
      by rewrite (ordinary_set_get _ _ _ _ Hk Hset). }
    destruct (proxies s !! p) as [[obj cb]|] eqn:Hp; [| done].
    intros Hk. rewrite Hk. case_decide; [done |].
    destruct (reflect_set fuel obj k v s) as [s1 [b1|e]] eqn:Hset; [| done].
    intros [= <- _].
    assert (Hp' : proxies (scheduleCallback cb s1) !! p = Some (obj, cb)).
    { rewrite (proj1 (same_proxies_scheduleCallback cb s1)).
      by rewrite (proj1 (reflect_set_same_proxies _ _ _ _ _ _ _ Hset)). }
    rewrite Hp'.
    rewrite (reflect_get_scheduleCallback _ _ _ _ _ _ (IH _ _ _ _ Hk Hset)).
    by rewrite Hv.
Qed.

(** X6.  What is written through a wrapper is read back through it.  When
    a write of a primitive value goes through, to a property of a plain
    object or array other than an array's [length] and other than
    [__proto__] (which the prototype of every object answers with a
    setter of its own), however many wrappers lie between the wrapper and
    the object, reading the property through the same wrapper right after
    gives that value and changes nothing. *)
Theorem write_then_read s p k v s' w :
  as_ref v = None →
  isArray (S p) s (RProxy p) && is_length k = false →
  k ≠ KStr "__proto__" →
  exec_op (OpSet (VProxy p) k v) s = (s', Ok w) →
  exec_op (OpGet (VProxy p) k) s' = (s', Ok v).
Proof.
  intros Hv Hk _. cbn [exec_op js_set js_get as_ref depth].
  destruct (reflect_set (S p) (RProxy p) k v s) as [s1 [b|e]] eqn:Hset; [| done].
  intros [= <- _]. by eapply reflect_set_get.
Qed.

Lemma write_then_read_example :
  let s' := (exec_op (OpSet (VProxy 1) (KIdx 5) (VNum 60)) two_watched).1 in
  isArray 2 two_watched (RProxy 1) && is_length (KIdx 5) = false
  ∧ exec_op (OpSet (VProxy 1) (KIdx 5) (VNum 60)) two_watched = (s', Ok (VNum 60))
  ∧ exec_op (OpGet (VProxy 1) (KIdx 5)) s' = (s', Ok (VNum 60))
  ∧ exec_op (OpGet (VProxy 1) (KStr "length")) s' = (s', Ok (VNum 6)).
Proof.
  cbv zeta.
  assert (Hk : isArray 2 two_watched (RProxy 1) && is_length (KIdx 5) = false)
    by reflexivity.
  assert (Hset : exec_op (OpSet (VProxy 1) (KIdx 5) (VNum 60)) two_watched
                 = ((exec_op (OpSet (VProxy 1) (KIdx 5) (VNum 60)) two_watched).1,
                    Ok (VNum 60))) by (vm_compute; reflexivity).
  split; [exact Hk |]. split; [exact Hset |].
  split; [exact (write_then_read two_watched 1 (KIdx 5) (VNum 60) _ _ eq_refl Hk
                   ltac:(done) Hset) |].
  vm_compute; reflexivity.
Defined.

Lemma ordinary_delete_get o k o' :
  ordinary_delete o k = (o', true) → ordinary_get o' k = VUndef.
Proof.
  unfold ordinary_delete, ordinary_get.
  destruct (is_array o && is_length k) eqn:Hk; [done |].
  intros [= <-]. cbn [is_array props]. rewrite Hk. by rewrite lookup_delete_eq.
Qed.

Lemma reflect_delete_get fuel k :
  ∀ r s s',
    reflect_delete fuel r k s = (s', Ok true) →
    reflect_get fuel r k s' = (s', Ok VUndef).
Proof.
  induction fuel as [|fuel IH]; intros r s s'.
  - destruct r as [a|p]; simpl; [| done].
    destruct (heap s !! a) as [o|] eqn:Ha; [| done].
    destruct (ordinary_delete o k) as [o' b] eqn:Hdel.
    intros [= <- ->]. cbn [heap set_heap]. rewrite lookup_insert_eq.
    by rewrite (ordinary_delete_get _ _ _ Hdel).
  - destruct r as [a|p]; simpl.
    { destruct (heap s !! a) as [o|] eqn:Ha; [| done].
      destruct (ordinary_delete o k) as [o' b] eqn:Hdel.
      intros [= <- ->]. cbn [heap set_heap]. rewrite lookup_insert_eq.
      by rewrite (ordinary_delete_get _ _ _ Hdel). }
    destruct (proxies s !! p) as [[obj cb]|] eqn:Hp; [| done].
    case_decide; [done |].
    destruct (reflect_delete fuel obj k s) as [s1 [b1|e]] eqn:Hdel; [| done].
    intros [= <- ->].
    assert (Hp' : proxies (scheduleCallback cb s1) !! p = Some (obj, cb)).
    { rewrite (proj1 (same_proxies_scheduleCallback cb s1)).
      by rewrite (proj1 (reflect_delete_same_proxies _ _ _ _ _ _ Hdel)). }
    rewrite Hp'.
    by rewrite (reflect_get_scheduleCallback _ _ _ _ _ _ (IH _ _ _ Hdel)).
Qed.

(** X7.  An element deleted through a wrapper is gone.  When
    [delete w[i]] for an index [i] through a wrapper of a plain object or
    array gives [true], reading [w[i]] right after gives [undefined] and
    changes nothing.  (A name such as [toString] is another matter: it is
    still found on the prototype after the delete.) *)
Theorem delete_then_read s p i s' :
  exec_op (OpDelete (VProxy p) (KIdx i)) s = (s', Ok (VBool true)) →
  exec_op (OpGet (VProxy p) (KIdx i)) s' = (s', Ok VUndef).
Proof.
  cbn [exec_op js_delete js_get as_ref depth].
  destruct (reflect_delete (S p) (RProxy p) (KIdx i) s) as [s1 [b|e]] eqn:Hdel; [| done].
  intros [= <- ->]. by eapply reflect_delete_get.
Qed.

Lemma delete_then_read_example :
  let s' := (exec_op (OpDelete (VProxy 1) (KIdx 1)) two_watched).1 in
  exec_op (OpDelete (VProxy 1) (KIdx 1)) two_watched = (s', Ok (VBool true))
  ∧ exec_op (OpGet (VProxy 1) (KIdx 1)) s' = (s', Ok VUndef)
  ∧ exec_op (OpGet (VProxy 1) (KStr "length")) s' = (s', Ok (VNum 3)).
Proof.
  cbv zeta.
  assert (Hdel : exec_op (OpDelete (VProxy 1) (KIdx 1)) two_watched
                 = ((exec_op (OpDelete (VProxy 1) (KIdx 1)) two_watched).1,
                    Ok (VBool true))) by (vm_compute; reflexivity).
  split; [exact Hdel |].
  split; [exact (delete_then_read _ _ _ _ Hdel) |].
  vm_compute; reflexivity.
Defined.


(** *** One wrapper for each object and callback *)

(** X8.  A wrapper stands for one object and one callback for good.  In a
    store whose cache is truthful, if wrapping [t1] for [cb1] and, after
    any code of the page, wrapping [t2] for [cb2] return the same proxy,
    then [t1] and [t2] are the same object and [cb1] and [cb2] the same
    function: two watchers of one object never share a wrapper, and
    neither do two objects. *)
Theorem wrappers_are_never_shared s t1 r1 cb1 p s1 c s2 res t2 r2 cb2 s3 :
  wf_pids s → cache_sound s →
  as_ref t1 = Some r1 → as_ref t2 = Some r2 →
  createDeepProxy t1 (VFun cb1) s = (s1, Ok (VProxy p)) →
  run_prog c s1 = (s2, res) →
  createDeepProxy t2 (VFun cb2) s2 = (s3, Ok (VProxy p)) →
  r1 = r2 ∧ cb1 = cb2.
Proof.
  intros Hwf Hsound Hr1 Hr2 Hc1 Hrun Hc2.
  assert (Ht : tracked s) by done.
  destruct (createDeepProxy_tracked _ _ _ _ _ Ht Hc1) as [Ht1 _].
  destruct (run_prog_tracked _ _ _ _ Ht1 Hrun) as [Ht2 Hsub2].
  destruct (createDeepProxy_tracked _ _ _ _ _ Ht2 Hc2) as [Ht3 Hsub3].
  destruct (createDeepProxy_caches _ _ _ _ _ _ Hr1 Hc1) as (p1 & [= <-] & Hcached1).
  destruct (createDeepProxy_caches _ _ _ _ _ _ Hr2 Hc2) as (p2 & [= <-] & Hcached2).
  apply Ht1 in Hcached1. apply Ht3 in Hcached2.
  assert (Hp : proxies s3 !! p = Some (r1, cb1)).
  { eapply lookup_weaken; [| exact Hsub3].
    eapply lookup_weaken; [exact Hcached1 | exact Hsub2]. }
  rewrite Hp in Hcached2. by injection Hcached2 as -> ->.
Qed.

Lemma wrappers_are_never_shared_example :
  let first := createDeepProxy (VObj 0) (VFun (FUser 7)) two_watched in
  let later := run_prog (in_order [OpSet (VProxy 0) (KStr "name") (VStr "Bea")]) first.1 in
  let second := createDeepProxy (VObj 0) (VFun (FUser 7)) later.1 in
  wf_pids two_watched
  ∧ cache_sound two_watched
  ∧ first.2 = Ok (VProxy 2)
  ∧ second.2 = Ok (VProxy 2)
  ∧ (createDeepProxy (VObj 0) (VFun (FUser 8)) later.1).2 = Ok (VProxy 3)
  ∧ RObj 0 = RObj 0 ∧ FUser 7 = FUser 7.
Proof.
  cbv zeta.
  destruct two_watched_tracked as [Hwf Hsound].
  assert (H1 : createDeepProxy (VObj 0) (VFun (FUser 7)) two_watched
               = ((createDeepProxy (VObj 0) (VFun (FUser 7)) two_watched).1, Ok (VProxy 2)))
    by (vm_compute; reflexivity).
  set (s1 := (createDeepProxy (VObj 0) (VFun (FUser 7)) two_watched).1) in *.
  set (c := in_order [OpSet (VProxy 0) (KStr "name") (VStr "Bea")]).
  assert (H2 : createDeepProxy (VObj 0) (VFun (FUser 7)) (run_prog c s1).1
               = ((createDeepProxy (VObj 0) (VFun (FUser 7)) (run_prog c s1).1).1,
                  Ok (VProxy 2)))
    by (vm_compute; reflexivity).
  split; [exact Hwf |]. split; [exact Hsound |].
  split; [by rewrite H1 |]. split; [by rewrite H2 |].
  split; [vm_compute; reflexivity |].
  exact (wrappers_are_never_shared two_watched (VObj 0) (RObj 0) (FUser 7) 2 s1 c
           _ _ (VObj 0) (RObj 0) (FUser 7) _ Hwf Hsound eq_refl eq_refl H1
           (surjective_pairing _) H2).
Defined.

(** *** Registration *)

Lemma set_value_lookup n v s t :
  triggers s !! n = Some t →
  triggers (set_value n v s) !! n = Some (mkTrigger (t_prop t) (t_cb t) v).
Proof.
  intros Ht. unfold set_value. rewrite Ht. cbn [triggers set_watch].
  by rewrite lookup_insert_eq.
Qed.

(** X9.  [watch] with a function, on a name that can be defined on
    [window] (a new name, or a configurable property such as an earlier
    [watch] or an assignment left), does not refuse and does not notify.
    It returns, leaves the name among the watched names with
    an accessor of its own whose cell holds the initial value as it is if
    it is a primitive, or a wrapper of it bound to the new trigger if it
    is an object (in a store whose cache is truthful); the trigger keeps
    the name and the page's callback; and the schedule is as before: the
    callback is not called for the initial value. *)
Theorem watch_registers propName f defaultValue s s' res :
  redefinable s propName →
  watch propName (VFun f) defaultValue s = (s', res) →
  let n := next_watch s in
  res = Ok VUndef
  ∧ propName ∈ watchedVars s'
  ∧ window s' !! propName = Some (WAccessor n)
  ∧ triggers s' !! n = Some (mkTrigger propName f (window_get propName s'))
  ∧ (as_ref defaultValue = None → window_get propName s' = defaultValue)
  ∧ (∀ r, as_ref defaultValue = Some r → wf_pids s → cache_sound s →
       ∃ p, window_get propName s' = VProxy p
            ∧ proxies s' !! p = Some (r, FTrigger n))
  ∧ scheduledCallbacks s' = scheduledCallbacks s
  ∧ microtasks s' = microtasks s.
Proof.
  intros Hfree Hwatch n.
  destruct (watch_installs _ _ _ _ _ _ Hfree Hwatch) as (-> & Hacc & _ & Hvars).
  destruct (watch_same_sched _ _ _ _ _ _ Hwatch) as [Hsc Hq].
  split; [done |].
  split; [rewrite Hvars; by apply elem_of_union_l, elem_of_singleton |]. split; [done |].
  assert (Hcell : ∃ v,
            triggers s' !! n = Some (mkTrigger propName f v)
            ∧ (as_ref defaultValue = None → v = defaultValue)
            ∧ (∀ r, as_ref defaultValue = Some r → wf_pids s → cache_sound s →
                 ∃ p, v = VProxy p ∧ proxies s' !! p = Some (r, FTrigger n))).
  { revert Hwatch. unfold watch.
    set (s0 := if decide (is_Some (window s !! propName)) then emit (EvWarn propName) s else s).
    assert (Hn0 : next_watch s0 = n) by (subst s0 n; by case_decide).
    assert (H0 : same_proxies s s0) by (subst s0; by case_decide).
    rewrite Hn0.
    set (s1 := set_watch _ _ _ _ s0).
    assert (Ht1 : triggers s1 !! n = Some (mkTrigger propName f VUndef)).
    { subst s1. cbn [triggers set_watch]. by rewrite lookup_insert_eq. }
    destruct (as_ref defaultValue) as [r|] eqn:Hr.
    - destruct (createDeepProxy defaultValue (VFun (FTrigger n)) s1) as [s2 r2] eqn:Hc.
      destruct (createDeepProxy_caches _ _ _ _ _ _ Hr Hc) as (p & -> & Hcached).
      assert (Ht2 : triggers s2 !! n = Some (mkTrigger propName f VUndef)).
      { revert Hc. unfold createDeepProxy. rewrite Hr.
        by destruct (cache_lookup s1 r _); intros [= <- _]. }
      intros [[_ [=]] | [-> _]]%define_cases.
      exists (VProxy p). cbn [triggers set_watch proxies].
      split; [by rewrite (set_value_lookup _ _ _ _ Ht2) |]. split; [done |].
      intros r' [= <-] Hwf Hsound. exists p. split; [done |].
      rewrite (proj1 (same_proxies_set_value n (VProxy p) s2)).
      assert (Htr1 : tracked s1) by (by apply (same_proxies_tracked s); [apply H0 |]).
      destruct (createDeepProxy_tracked _ _ _ _ _ Htr1 Hc) as [[_ Hsound2] _].
      by apply Hsound2.
    - intros [[_ [=]] | [-> _]]%define_cases.
      exists defaultValue. cbn [triggers set_watch].
      split; [by rewrite (set_value_lookup _ _ _ _ Ht1) |]. split; [done |]. done. }
  destruct Hcell as (v & Htrig & Hprim & Hobj).
  assert (Hget : window_get propName s' = v).
  { unfold window_get, accessor_get. rewrite Hacc. fold n. by rewrite Htrig. }
  rewrite Hget. repeat split; try done.
Qed.

Lemma watch_registers_example :
  let r := watch "cart" (VFun (FUser 2)) (VObj 2) two_watched in
  window two_watched !! "cart" = None
  ∧ r.2 = Ok VUndef
  ∧ "cart" ∈ watchedVars r.1
  ∧ window r.1 !! "cart" = Some (WAccessor 2)
  ∧ window_get "cart" r.1 = VProxy 2
  ∧ proxies r.1 !! 2 = Some (RObj 2, FTrigger 2)
  ∧ microtasks r.1 = [].
Proof.
  cbv zeta.
  destruct two_watched_tracked as [Hwf Hsound].
  assert (Hfree : redefinable two_watched "cart")
    by (intros v Hv; vm_compute in Hv; discriminate Hv).
  destruct (watch_registers "cart" (FUser 2) (VObj 2) two_watched _ _ Hfree
              (surjective_pairing _))
    as (Hres & Hvars & Hacc & _ & _ & Hobj & _ & Hq).
  destruct (Hobj (RObj 2) eq_refl Hwf Hsound) as (p & Hget & Hp).
  assert (Hget' : window_get "cart" (watch "cart" (VFun (FUser 2)) (VObj 2) two_watched).1
                  = VProxy 2) by (vm_compute; reflexivity).
  assert (p = 2) as -> by congruence.
  split; [vm_compute; reflexivity |].
  split; [exact Hres |]. split; [exact Hvars |]. split; [exact Hacc |].
  split; [exact Hget |]. split; [exact Hp |].
  rewrite Hq. vm_compute; reflexivity.
Defined.

(** A global declared with [var] cannot be watched: after [var cart = 1],
    [watch('cart', f, [])] warns, wraps the array and caches the wrapper,
    and then throws the [TypeError] of [Object.defineProperty]; [cart] is
    still the declared variable and is not among the watched names. *)
Example watch_on_a_declared_global :
  let declared :=
    set_watch ∅ ∅ 0 {["cart" := WFixed (VNum 1)]}
              (exec_op (OpAlloc (mkObj true ∅ 0)) init).1 in
  let r := watch "cart" (VFun (FUser 0)) (VObj 0) declared in
  r.2 = Throw (CannotRedefine "cart")
  ∧ log r.1 = [EvWarn "cart"]
  ∧ proxies r.1 !! 0 = Some (RObj 0, FTrigger 0)
  ∧ window_get "cart" r.1 = VNum 1
  ∧ watchedVars r.1 = ∅.
Proof. cbv zeta. repeat split; vm_compute; reflexivity. Qed.


(** *** The queue *)

Definition queue_le (s s' : state) : Prop :=
  ∃ added, microtasks s' = microtasks s ++ added.

Lemma queue_le_refl s : queue_le s s.
Proof. exists []. by rewrite app_nil_r. Qed.

Lemma queue_le_trans s1 s2 s3 : queue_le s1 s2 → queue_le s2 s3 → queue_le s1 s3.
Proof. intros [a Ha] [b Hb]. exists (a ++ b). by rewrite Hb, Ha, app_assoc. Qed.

Lemma same_sched_queue_le s s' : same_sched s s' → queue_le s s'.
Proof. intros [_ Hq]. exists []. by rewrite Hq, app_nil_r. Qed.

Lemma scheduleCallback_queue_le cb s : queue_le s (scheduleCallback cb s).
Proof. unfold scheduleCallback. case_decide; [apply queue_le_refl | by exists [cb]]. Qed.

Lemma reflect_set_queue_le fuel r k v s s' res :
  reflect_set fuel r k v s = (s', res) → queue_le s s'.
Proof.
  revert r s s' res. induction fuel as [|fuel IH]; intros r s s' res.
  - destruct r as [a|p]; simpl; [| intros [= <- <-]; by apply same_sched_queue_le].
    destruct (heap s !! a); [| intros [= <- <-]; by apply same_sched_queue_le].
    destruct (ordinary_set _ _ _); intros [= <- <-]; by apply same_sched_queue_le.
  - destruct r as [a|p]; simpl.
    { destruct (heap s !! a); [| intros [= <- <-]; by apply same_sched_queue_le].
      destruct (ordinary_set _ _ _); intros [= <- <-]; by apply same_sched_queue_le. }
    destruct (proxies s !! p) as [[obj cb]|]; [| intros [= <- <-]; by apply same_sched_queue_le].
    case_decide; [intros [= <- <-]; by apply same_sched_queue_le |].
    destruct (isArray fuel s obj && is_length k); [by apply IH |].
    destruct (reflect_set fuel obj k v s) as [s1 [b|e]] eqn:Hset.
    + intros [= <- <-]. eapply queue_le_trans; [by eapply IH |].
      apply scheduleCallback_queue_le.
    + intros [= <- <-]. by eapply IH.
Qed.

Lemma reflect_delete_queue_le fuel r k s s' res :
  reflect_delete fuel r k s = (s', res) → queue_le s s'.
Proof.
  revert r s s' res. induction fuel as [|fuel IH]; intros r s s' res.
  - destruct r as [a|p]; simpl; [| intros [= <- <-]; by apply same_sched_queue_le].
    destruct (heap s !! a); [| intros [= <- <-]; by apply same_sched_queue_le].
    destruct (ordinary_delete _ _); intros [= <- <-]; by apply same_sched_queue_le.
  - destruct r as [a|p]; simpl.
    { destruct (heap s !! a); [| intros [= <- <-]; by apply same_sched_queue_le].
      destruct (ordinary_delete _ _); intros [= <- <-]; by apply same_sched_queue_le. }
    destruct (proxies s !! p) as [[obj cb]|]; [| intros [= <- <-]; by apply same_sched_queue_le].
    case_decide; [intros [= <- <-]; by apply same_sched_queue_le |].
    destruct (reflect_delete fuel obj k s) as [s1 [b|e]] eqn:Hdel.
    + intros [= <- <-]. eapply queue_le_trans; [by eapply IH |].
      apply scheduleCallback_queue_le.
    + intros [= <- <-]. by eapply IH.
Qed.

Lemma exec_op_queue_le o s s' res :
  exec_op o s = (s', res) → queue_le s s'.
Proof.
  destruct o; cbn [exec_op].
  - intros [= <- <-]. by apply same_sched_queue_le.
  - unfold js_get. destruct (as_ref target).
    + intros Hget. by eapply same_sched_queue_le, reflect_get_same_sched.
    + destruct target; intros [= <- <-]; by apply same_sched_queue_le.
  - unfold js_set. destruct (as_ref target) as [r|].
    + destruct (reflect_set _ r k v s) as [s1 [b|e]] eqn:Hset;
        intros [= <- <-]; by eapply reflect_set_queue_le.
    + destruct target; intros [= <- <-]; by apply same_sched_queue_le.
  - unfold js_delete. destruct (as_ref target) as [r|].
    + destruct (reflect_delete _ r k s) as [s1 [b|e]] eqn:Hdel;
        intros [= <- <-]; by eapply reflect_delete_queue_le.
    + destruct target; intros [= <- <-]; by apply same_sched_queue_le.
  - intros [= <- <-]. by apply same_sched_queue_le.
  - unfold window_set. destruct (window s !! name) as [[w|n|w]|];
      try (intros [= <- <-]; by apply same_sched_queue_le).
    unfold accessor_set. case_decide; [intros [= <- <-]; by apply same_sched_queue_le |].
    destruct (match as_ref v with Some _ => _ | None => _ end) as [s1 [v1|e]] eqn:Hwrap;
      apply wrap_same_sched in Hwrap; intros [= <- <-];
      (eapply queue_le_trans; [by apply same_sched_queue_le |]).
    + eapply queue_le_trans; [apply same_sched_queue_le, (same_sched_set_value n v1) |].
      apply scheduleCallback_queue_le.
    + apply queue_le_refl.
  - intros Hwatch. by eapply same_sched_queue_le, watch_same_sched.
  - intros Hc. by eapply same_sched_queue_le, createDeepProxy_same_sched.
  - intros [= <- <-]. apply scheduleCallback_queue_le.
Qed.

(** X10.  Code of the page only ever adds to the end of the microtask
    queue.  After any synchronous unit, whether it returns or throws, the
    queue is the queue as it was followed by the callbacks scheduled in
    the unit: a notification that is queued is neither dropped nor moved,
    and callbacks run in the order in which they were first scheduled. *)
Theorem queued_notifications_keep_their_place c s s' res :
  run_prog c s = (s', res) →
  ∃ added, microtasks s' = microtasks s ++ added.
Proof.
  revert s. induction c as [| e | o k IH]; intros s; simpl.
  - intros [= <- <-]. apply queue_le_refl.
  - intros [= <- <-]. apply queue_le_refl.
  - destruct (exec_op o s) as [s1 r] eqn:Hop. intros Hrun.
    eapply queue_le_trans; [by eapply exec_op_queue_le | by eapply IH].
Qed.

Lemma queued_notifications_keep_their_place_example :
  let unit := in_order [OpSet (VProxy 1) (KIdx 0) (VNum 11);
                        OpWindowSet "profile" (VNum 0);
                        OpDelete (VProxy 1) (KIdx 2)] in
  let s1 := (run_prog unit two_watched).1 in
  let s2 := (run_prog (in_order [OpWindowSet "profile" (VNum 1)]) s1).1 in
  microtasks s1 = [FTrigger 1; FTrigger 0]
  ∧ ∃ added, microtasks s2 = microtasks s1 ++ added.
Proof.
  cbv zeta. split; [vm_compute; reflexivity |].
  exact (queued_notifications_keep_their_place _ _ _ _ (surjective_pairing _)).
Defined.

(** *** No change detection *)

(** X11.  The library never compares the old value with the new one.
    Writing to a property of a plain object, through its wrapper, the
    value it already holds leaves every object as it was and schedules
    the wrapper's callback all the same; and so does assigning to a
    watched name the primitive value it already holds. *)
Theorem unchanged_value_still_notifies :
  (∀ s p a cb o k v,
     proxies s !! p = Some (RObj a, cb) →
     heap s !! a = Some o →
     is_array o = false →
     props o !! k = Some v →
     activeWatcher s ≠ Some cb →
     ∃ s', exec_op (OpSet (VProxy p) k v) s = (s', Ok v)
           ∧ heap s' = heap s
           ∧ cb ∈ scheduledCallbacks s')
  ∧ (∀ s name n t,
       window s !! name = Some (WAccessor n) →
       triggers s !! n = Some t →
       as_ref (t_value t) = None →
       activeWatcher s ≠ Some (FTrigger n) →
       ∃ s', exec_op (OpWindowSet name (t_value t)) s = (s', Ok (t_value t))
             ∧ window_get name s' = window_get name s
             ∧ heap s' = heap s
             ∧ FTrigger n ∈ scheduledCallbacks s').
Proof.
  split.
  - intros s p a cb o k v Hp Ha Harr Hk Hactive.
    cbn [exec_op js_set as_ref depth reflect_set]. rewrite Hp.
    case_decide; [done |].
    assert (Hnot : isArray p s (RObj a) = false) by (destruct p; cbn; by rewrite Ha).
    rewrite Hnot. cbn [andb].
    assert (Hset : reflect_set p (RObj a) k v s
                   = (set_heap (<[a := o]> (heap s)) (next_addr s) s, Ok true)).
    { assert (Ho : ordinary_set o k v = Ok o).
      { unfold ordinary_set. rewrite Harr. destruct o as [arr ps len].
        cbn in *. subst arr. by rewrite (insert_id ps k v). }
      destruct p; cbn; by rewrite Ha, Ho. }
    rewrite Hset. eexists. split; [done |].
    split; [| apply scheduleCallback_scheduled].
    rewrite (insert_id _ _ _ Ha). unfold scheduleCallback. by case_decide.
  - intros s name n t Hname Ht Hprim Hactive.
    cbn [exec_op]. unfold window_set, accessor_set. rewrite Hname.
    case_decide; [done |]. rewrite Hprim.
    eexists. split; [done |].
    split; [| split; [| apply scheduleCallback_scheduled]].
    + unfold window_get, accessor_get.
      assert (Hw : window (scheduleCallback (FTrigger n) (set_value n (t_value t) s))
                   = window s).
      { unfold scheduleCallback, set_value. rewrite Ht. by case_decide. }
      assert (Htr : triggers (scheduleCallback (FTrigger n) (set_value n (t_value t) s)) !! n
                    = Some (mkTrigger (t_prop t) (t_cb t) (t_value t))).
      { unfold scheduleCallback. case_decide; by apply set_value_lookup. }
      by rewrite Hw, Hname, Htr, Ht.
    + unfold scheduleCallback, set_value. rewrite Ht. by case_decide.
Qed.

Lemma unchanged_value_still_notifies_example :
  (∃ s', exec_op (OpSet (VProxy 0) (KStr "name") (VStr "Ann")) two_watched
         = (s', Ok (VStr "Ann"))
         ∧ heap s' = heap two_watched
         ∧ FTrigger 0 ∈ scheduledCallbacks s')
  ∧ microtasks two_watched = [].
Proof.
  split; [| reflexivity].
  apply (proj1 unchanged_value_still_notifies two_watched 0 1 (FTrigger 0)
           (mkObj false {[KStr "name" := VStr "Ann"; KStr "address" := VObj 0]} 0)
           (KStr "name") (VStr "Ann")); try reflexivity.
  vm_compute. discriminate.
Defined.

End ReactiveFacts.

(** ** Text that holds no complete placeholder *)

Module TemplateFacts.
Import Js Template TemplateTheory.

Lemma replace_mustache_plain f s :
  opens s = false → replace_mustache f None s = s.
Proof.
  induction s as [|c s IH]; [done |].
  destruct s as [|d s']; [done |].
  rewrite opens_cons. intros [Hcd Hrest]%orb_false_elim.
  rewrite replace_mustache_outside, Hcd. by rewrite (IH Hrest).
Qed.

Lemma replace_mustache_unclosed f e :
  ∀ acc, closes e = false → replace_mustache f (Some acc) e = "{{" +:+ acc +:+ e.
Proof.
  induction e as [|c e IH]; intros acc.
  - intros _. cbn [replace_mustache]. by rewrite append_empty_r.
  - destruct e as [|d e']; [done |].
    rewrite closes_cons. intros [Hcd Hrest]%orb_false_elim.
    rewrite replace_mustache_open, Hcd, (IH _ Hrest).
    by rewrite !append_assoc.
Qed.

(** X12.  [parseTemplate] touches complete placeholders only.  A text in
    which no ["{{"] stands comes back as it is, and so does a text whose
    first ["{{"] is never closed by a ["}}"]: the open placeholder and
    what follows it are copied. *)
Theorem parseTemplate_keeps_other_text host watched :
  (∀ s, opens s = false → parseTemplate host watched s = s)
  ∧ (∀ pre e,
       opens (pre +:+ "{") = false → closes e = false →
       parseTemplate host watched (pre +:+ "{{" +:+ e) = pre +:+ "{{" +:+ e).
Proof.
  split.
  - intros s Hs. by apply replace_mustache_plain.
  - intros pre e Hpre He. unfold parseTemplate.
    rewrite replace_mustache_before by done.
    by rewrite replace_mustache_unclosed.
Qed.

Lemma parseTemplate_keeps_other_text_example :
  opens "if (a) { b } else { c }" = false
  ∧ parseTemplate Demo.host [] "if (a) { b } else { c }" = "if (a) { b } else { c }"
  ∧ opens ("total: " +:+ "{") = false
  ∧ closes " price } euro" = false
  ∧ parseTemplate Demo.host [] ("total: " +:+ "{{" +:+ " price } euro")
    = "total: " +:+ "{{" +:+ " price } euro".
Proof.
  split; [reflexivity |].
  split; [exact (proj1 (parseTemplate_keeps_other_text Demo.host [])
                    "if (a) { b } else { c }" eq_refl) |].
  split; [reflexivity |]. split; [reflexivity |].
  exact (proj2 (parseTemplate_keeps_other_text Demo.host []) "total: " " price } euro"
           eq_refl eq_refl).
Defined.

End TemplateFacts.

(** ** The loop element over an array, and with a negative step *)

Module LoopFacts.
Import Js Template Elements CustomForLoop ElementsTheory LoopTheory.

Local Open Scope list_scope.



Section Host.

Variable host : scope → string → result jsval.
Variable watched : scope.
Variable selector_error : string → option exn.
Variable template_in : string → string → option string.
Variable replace_word : string → string → string → result string.



End Host.



Definition letters_scope : scope := [("xs", JArr 1 [JStr "a"; JStr "b"; JStr "c"])].


Section Diverging.

Variable host : scope → string → result jsval.
Variable watched : scope.
Variable selector_error : string → option exn.
Variable template_in : string → string → option string.
Variable replace_word : string → string → string → result string.

Lemma in_range_below b i0 i :
  in_range b i0 = Ok true → (i ≤ i0)%Z → in_range b i = Ok true.
Proof.
  unfold in_range. destruct (Js.min _ _) as [[m|]|]; try done.
  unfold num_lt. intros [= H] Hle. f_equal.
  apply Z.ltb_lt in H. apply Z.ltb_lt. lia.
Qed.

(** The loop is not left by its test: within any number of turns it has
    not ended, or a turn has thrown. *)
Lemma for_loop_diverges {A} b (body : Z → A → result A) :
  (step b < 0)%Z →
  in_range b (start b) = Ok true →
  ∀ fuel i acc, (i ≤ start b)%Z →
    for_loop fuel b body i acc = None
    ∨ ∃ e, for_loop fuel b body i acc = Some (Throw e).
Proof.
  intros Hstep Hstart. induction fuel as [|fuel IH]; intros i acc Hi.
  - left. cbn [for_loop]. by rewrite (in_range_below _ _ _ Hstart Hi).
  - cbn [for_loop]. rewrite (in_range_below _ _ _ Hstart Hi).
    destruct (body i acc) as [acc'|e]; [| right; by exists e].
    apply IH. lia.
Qed.

(** With turns that do not throw it goes on for ever. *)
Lemma for_loop_runs_on {A} b (body : Z → A → result A) :
  (step b < 0)%Z →
  in_range b (start b) = Ok true →
  (∀ i acc, is_ok (body i acc) = true) →
  ∀ fuel i acc, (i ≤ start b)%Z → for_loop fuel b body i acc = None.
Proof.
  intros Hstep Hstart Hbody fuel i acc Hi.
  destruct (for_loop_diverges b body Hstep Hstart fuel i acc Hi) as [Hnone|[e He]];
    [done |].
  exfalso. revert i acc Hi He.
  induction fuel as [|fuel IH]; intros i acc Hi; cbn [for_loop];
    rewrite (in_range_below _ _ _ Hstart Hi); [done |].
  specialize (Hbody i acc). destruct (body i acc) as [acc'|]; [| done].
  apply IH. lia.
Qed.

(** X14.  With a negative step the loop of a loop element is never left
    by its test.  When the element has its [loopid] and its template
    stored, the step read is negative and the start index is below
    [Math.min(end, array.length)], the index only moves away from the
    bound.  The turns that bind the values go on for ever; and a render
    either does not return or is ended by an exception of a turn (a
    variable name the host refuses as a pattern, an output that outgrows
    the host's strings), after which the content is the error message:
    it never is the rendered output. *)
Theorem negative_step_never_ends (this : element) b :
  present (getAttribute this "loopid") = true →
  present (_originalTemplate this) = true →
  read_bounds host watched this = Ok b →
  (step b < 0)%Z →
  in_range b (start b) = Ok true →
  ∀ fuel,
    bindings host watched fuel this = None
    ∧ (render host watched selector_error template_in replace_word fuel this = None
       ∨ ∃ e, render host watched selector_error template_in replace_word fuel this
              = Some (set_innerHTML ("❌ for-loop Error: " +:+ message e) this)).
Proof.
  intros Hid Htemplate Hb Hstep Hstart fuel. split.
  - unfold bindings. rewrite Hb. by apply for_loop_runs_on.
  - unfold render, render_try. rewrite Hid. cbn [negb].
    unfold _storeTemplate. rewrite (storeTemplate_captured _ _ _ _ Htemplate).
    rewrite Htemplate. cbn [negb]. rewrite Hb.
    destruct (for_loop_diverges b
                (λ i outputHtml,
                   match iteration host watched replace_word
                           (text (_originalTemplate this)) b i with
                   | Ok iterHtml => Ok (outputHtml +:+ iterHtml)
                   | Throw e => Throw e
                   end) Hstep Hstart fuel (start b) "" ltac:(lia)) as [->|[e ->]].
    + by left.
    + right. by exists e.
Qed.

End Diverging.

(** [<for-loop array="xs" step="-1" loopid="l">] with its template stored. *)
Definition backwards : element :=
  mkElement (list_to_map [("loopid", "l"); ("array", "xs"); ("step", "-1")])
            (Some "${value}") "".

Lemma negative_step_never_ends_example :
  read_bounds Demo.host letters_scope backwards
  = Ok (mkBounds (JArr 1 [JStr "a"; JStr "b"; JStr "c"]) 0 (-1) (JNum 3) "value" "index")
  ∧ ∀ fuel,
      bindings Demo.host letters_scope fuel backwards = None
      ∧ (render Demo.host letters_scope Demo.no_selector_error Demo.no_template
           Demo.replace_word fuel backwards = None
         ∨ ∃ e, render Demo.host letters_scope Demo.no_selector_error Demo.no_template
                  Demo.replace_word fuel backwards
                = Some (set_innerHTML ("❌ for-loop Error: " +:+ message e) backwards)).
Proof.
  assert (Hb : read_bounds Demo.host letters_scope backwards
               = Ok (mkBounds (JArr 1 [JStr "a"; JStr "b"; JStr "c"]) 0 (-1) (JNum 3)
                       "value" "index")) by reflexivity.
  split; [exact Hb |].
  apply (negative_step_never_ends Demo.host letters_scope Demo.no_selector_error
           Demo.no_template Demo.replace_word backwards _ eq_refl eq_refl Hb);
    [done | reflexivity].
Defined.

End LoopFacts.

(** ** Conditions on a value that is undefined *)

Module ConditionFacts.
Import Js Template Elements ConditionBlock ElementsTheory ConditionTheory.

(** X15.  A condition whose [value] expression evaluates to [undefined],
    be it because the expression throws or because the variable holds
    nothing, is false under [gt], [lt], [gte] and [lte], whatever the
    operand evaluates to (an operand that cannot be converted included),
    and false with no operand at all: when neither [eq] nor [neq] is
    present, the if branch is not taken. *)
Theorem undefined_value_fails_every_comparison host watched (ifEl : element) :
  unsafeEval host watched (text (getAttribute ifEl "value")) [] = JUndef →
  getAttribute ifEl "eq" = None →
  getAttribute ifEl "neq" = None →
  _evaluateCondition host watched ifEl = false.
Proof.
  intros Hvalue Heq Hneq.
  unfold _evaluateCondition, evaluateCondition_try.
  rewrite Heq, Hneq, Hvalue.
  destruct (getAttribute ifEl "gt") as [a|].
  { destruct (relational_undefined_l (unsafeEval host watched a []))
      as ([->|[? ->]] & _); done. }
  destruct (getAttribute ifEl "lt") as [a|].
  { destruct (relational_undefined_l (unsafeEval host watched a []))
      as (_ & [->|[? ->]] & _); done. }
  destruct (getAttribute ifEl "gte") as [a|].
  { destruct (relational_undefined_l (unsafeEval host watched a []))
      as (_ & _ & [->|[? ->]] & _); done. }
  destruct (getAttribute ifEl "lte") as [a|].
  { destruct (relational_undefined_l (unsafeEval host watched a []))
      as (_ & _ & _ & [->|[? ->]]); done. }
  done.
Qed.

(** [<if-condition value="user.age" lte="17">] on a page where [user] is
    an object with no [age]. *)
Definition minor_if : element :=
  mkElement (list_to_map [("value", "user.age"); ("lte", "17")]) None "".

Lemma undefined_value_fails_every_comparison_example :
  unsafeEval Demo.host [("user", JObj 1 [("name", JStr "Ann")])] "user.age" [] = JUndef
  ∧ _evaluateCondition Demo.host [("user", JObj 1 [("name", JStr "Ann")])] minor_if = false.
Proof.
  split; [reflexivity |].
  exact (undefined_value_fails_every_comparison Demo.host
           [("user", JObj 1 [("name", JStr "Ann")])] minor_if eq_refl eq_refl eq_refl).
Defined.

End ConditionFacts.

(** ** The state element *)

Module StateFacts.
Import Js Template Elements StateElement ElementsTheory.

(** X16.  Rendering a state element again changes nothing.  On a page
    whose "missing template" marker holds no template, a second [render]
    ends as the first did and leaves the element as the first left it,
    content and stored template alike.  A [render] that throws (no
    [stateId], or a selector the host refuses) has not touched the
    element: unlike the loop element and the conditional block, it shows
    no error message. *)
Theorem state_render_is_stable host watched selector_error template_in
    (this this1 : element) r :
  (∀ sel, template_in missing_state_template sel = None) →
  render host watched selector_error template_in this = (this1, r) →
  render host watched selector_error template_in this1 = (this1, r)
  ∧ (∀ e, r = Throw e → this1 = this).
Proof.
  intros Hmarker. unfold render.
  destruct (present (getAttribute this "stateId")) eqn:Hid; cbn [negb].
  2: { intros [= <- <-]. by rewrite Hid. }
  destruct (_storeTemplate _ _ this) as [this' [[]|e]] eqn:Hstore.
  2: { apply (storeTemplate_throws_again _ _ _ _ _ _ "") in Hstore as Hagain.
       destruct Hagain as [-> _]. intros [= <- <-]. rewrite Hid. cbn [negb].
       by rewrite Hstore. }
  destruct (storeTemplate_frame _ _ _ _ _ _ Hstore) as [Hattrs _].
  assert (Hid' : ∀ html, present (getAttribute (set_innerHTML html this') "stateId") = true).
  { intros html. unfold getAttribute. cbn [attributes set_innerHTML].
    by rewrite Hattrs. }
  destruct (present (_originalTemplate this')) eqn:Hpresent; cbn [negb].
  - intros [= <- <-]. split; [| done]. rewrite Hid'. cbn [negb].
    unfold _storeTemplate. rewrite storeTemplate_captured by done.
    rewrite originalTemplate_set_innerHTML, Hpresent. cbn [negb].
    rewrite getAttribute_set_innerHTML.
    replace (getAttribute this' "stateId") with (getAttribute this "stateId")
      by (unfold getAttribute; by rewrite Hattrs).
    done.
  - intros [= <- <-]. split; [| done]. rewrite Hid'. cbn [negb].
    unfold _storeTemplate.
    rewrite (storeTemplate_missing_again _ _ _ _ _ _ Hstore Hpresent Hmarker).
    by rewrite originalTemplate_set_innerHTML, Hpresent.
Qed.

(** [<state-element stateId="counter">] around the template
    [Count: {{ count }}], as the page gives it. *)
Definition counter : element :=
  mkElement {["stateId" := "counter"]} None
    ("<template stateId=" +:+ dq +:+ "counter" +:+ dq +:+ ">Count: {{ count }}</template>").

Definition counter_rendered : element :=
  mkElement {["stateId" := "counter"]} (Some "Count: {{ count }}")
    ("Count: 7<template stateId=" +:+ dq +:+ "counter" +:+ dq
     +:+ ">Count: {{ count }}</template>").

Lemma missing_state_template_holds_none sel :
  Demo.template_in missing_state_template sel = None.
Proof. reflexivity. Qed.

Lemma state_render_is_stable_example :
  let render := render Demo.host [("count", JNum 7)] Demo.no_selector_error Demo.template_in in
  render counter = (counter_rendered, Ok ())
  ∧ render counter_rendered = (counter_rendered, Ok ()).
Proof.
  cbv zeta.
  assert (Hfirst : render Demo.host [("count", JNum 7)] Demo.no_selector_error
                     Demo.template_in counter = (counter_rendered, Ok ()))
    by (vm_compute; reflexivity).
  split; [exact Hfirst |].
  exact (proj1 (state_render_is_stable _ _ _ _ _ _ _
                  missing_state_template_holds_none Hfirst)).
Defined.

End StateFacts.

(** ** The loader *)

Module LoaderFacts.
Import Template Elements Loader.

Local Open Scope list_scope.

Lemma step_overlays d c :
  (length (overlays d) ≤ 1)%nat → (length (overlays (step d c)) ≤ 1)%nat.
Proof.
  destruct c as [h|]; cbn [step]; unfold show, hide, _addStyles.
  - destruct (overlays d) as [|o rest] eqn:Ho; [| by rewrite Ho].
    intros _. destruct (styles d); cbn [overlays]; rewrite ?Ho; cbn; lia.
  - destruct (overlays d) as [|o rest] eqn:Ho; [by rewrite Ho |].
    cbn. lia.
Qed.

Lemma step_styles d c : styles d = true → styles (step d c) = true.
Proof.
  intros Hs. destruct c as [h|]; cbn [step]; unfold show, hide, _addStyles;
    destruct (overlays d); rewrite ?Hs; done.
Qed.

(** X17.  The loader shows one overlay at most and does not count its
    calls.  From a page without an overlay, any sequence of [show] and
    [hide] leaves at most one overlay; a [show] while one is showing does
    nothing, whatever custom markup it is given; so one [hide] removes the
    overlay however many [show]s came before it; and the style sheet,
    once in the page, stays. *)
Theorem loader_shows_one_overlay :
  (∀ calls b, (length (overlays (run calls (mkDocument [] b))) ≤ 1)%nat)
  ∧ (∀ calls d, styles d = true → styles (run calls d) = true)
  ∧ (∀ h1 h2 d, show h2 (show h1 d) = show h1 d)
  ∧ (∀ h1 h2 b, hide (show h2 (show h1 (mkDocument [] b))) = mkDocument [] true).
Proof.
  split; [| split; [| split]].
  - intros calls b. unfold run.
    assert (H : ∀ d, (length (overlays d) ≤ 1)%nat →
                     (length (overlays (foldl step d calls)) ≤ 1)%nat).
    { induction calls as [|c calls IH]; intros d Hd; [done |].
      cbn [foldl]. by apply IH, step_overlays. }
    apply H. cbn. lia.
  - intros calls. unfold run. induction calls as [|c calls IH]; intros d Hd; [done |].
    cbn [foldl]. by apply IH, step_styles.
  - intros h1 h2 d. unfold show at 2 3.
    destruct (overlays d) as [|o rest] eqn:Ho.
    + unfold show. cbn [overlays]. unfold _addStyles.
      destruct (styles d); cbn [overlays]; by rewrite Ho.
    + unfold show. by rewrite Ho.
  - intros h1 h2 b. by destruct b.
Qed.

End LoaderFacts.

(** ** The directory of a URL *)

Module UrlFacts.
Import Js Template Urls TemplateTheory.

Lemma lastIndexOf_bounds c s : (-1 ≤ lastIndexOf c s)%Z.
Proof.
  induction s as [|d s IH]; cbn [lastIndexOf]; [lia |].
  destruct (Z.leb_spec 0 (lastIndexOf c s)); [lia |].
  destruct (Ascii.eqb d c); lia.
Qed.

Lemma lastIndexOf_split c s :
  (0 ≤ lastIndexOf c s)%Z →
  ∃ rest, s = substring_to (lastIndexOf c s) s +:+ String c rest
          ∧ lastIndexOf c rest = (-1)%Z.
Proof.
  induction s as [|d s IH]; cbn [lastIndexOf]; [lia |].
  destruct (Z.leb_spec 0 (lastIndexOf c s)) as [Hfound|Hnone].
  - intros _. destruct (IH Hfound) as (rest & Hs & Hrest).
    exists rest. split; [| done]. unfold substring_to in *.
    replace (Z.to_nat (lastIndexOf c s + 1)) with (S (Z.to_nat (lastIndexOf c s))) by lia.
    cbn [take]. rewrite append_cons. by rewrite <- Hs.
  - destruct (Ascii.eqb_spec d c) as [->|Hne]; [| lia].
    intros _. exists s. split; [done |].
    pose proof (lastIndexOf_bounds c s). lia.
Qed.

(** X18.  [extractDirectory] cuts the path at its last slash.  Whatever
    path the host gives for the URL, the directory returned, a slash and a
    file name with no slash in it make up that path again; a path with no
    slash gives the empty directory. *)
Theorem extractDirectory_cuts_at_the_last_slash (pathname : string → string) relativeUrl :
  let p := pathname relativeUrl in
  let dir := extractDirectory pathname relativeUrl in
  (∃ file, p = dir +:+ "/" +:+ file ∧ lastIndexOf "/" file = (-1)%Z)
  ∨ (lastIndexOf "/" p = (-1)%Z ∧ dir = "").
Proof.
  cbv zeta. unfold extractDirectory.
  destruct (Z.leb_spec 0 (lastIndexOf "/" (pathname relativeUrl))) as [Hfound|Hnone].
  - left. destruct (lastIndexOf_split _ _ Hfound) as (file & Hp & Hfile).
    exists file. split; [| done]. rewrite append_cons, append_nil. exact Hp.
  - right. pose proof (lastIndexOf_bounds "/" (pathname relativeUrl)).
    assert (Hlast : lastIndexOf "/" (pathname relativeUrl) = (-1)%Z) by lia.
    split; [done |]. unfold substring_to. rewrite Hlast. cbn.
    by destruct (pathname relativeUrl).
Qed.

End UrlFacts.

(** ** The two copies of the dispatcher *)

Module DispatchFacts.
Import Template Dispatch DispatchTheory.

Local Open Scope list_scope.

Section Document.

Variable querySelectorAll : string → outcome unit (list nat).
Variable has_render : nat → bool.
Variable render_throws : nat → bool.

Lemma then_skip (a : run) : then_ skip a = a.
Proof. unfold then_, skip. cbn. by destruct a. Qed.

(** X19.  The two copies of [setState] differ on scoped calls only.  When
    no [loopid], [ifid] or [stateId] is given (or each is the empty
    string), the current [setState] does exactly what the older one does,
    action for action. *)
Theorem setState_copies_agree_unscoped (o : options) :
  given (loopid o) = false →
  given (ifid o) = false →
  given (stateId o) = false →
  setState querySelectorAll has_render render_throws o
  = setState_older querySelectorAll has_render render_throws o.
Proof.
  intros Hloop Hif Hstate. unfold setState, setState_older.
  rewrite Hloop, Hif, Hstate. unfold when. by rewrite !then_skip.
Qed.

(** X20.  The older [setState] keeps a scoped call to its scope.  Called
    with a [loopid], an [ifid] or a [stateId], it renders only nodes that
    the one selector built from the identifier matches (besides showing
    and hiding the loader and reporting an exception): no data-js,
    data-innerhtml or data-loop binding is touched and no other node is
    rendered. *)
Theorem setState_older_keeps_to_its_scope (o : options) (a : action) :
  given (loopid o) || given (ifid o) || given (stateId o) = true →
  a ∈ setState_older querySelectorAll has_render render_throws o →
  a ∈ [LoaderShow; LoaderHide; ConsoleError]
  ∨ ∃ el els, a = Render el ∧ el ∈ els ∧
      querySelectorAll
        (if given (loopid o) then by_id "for-loop" "loopid" (loopid o)
         else if given (ifid o) then by_id "condition-block" "ifid" (ifid o)
         else "state-element[stateId=" +:+ id_text (stateId o) +:+ "]") = Ok els.
Proof.
  intros Hgiven. unfold setState_older.
  destruct (given (loopid o)); [apply guarded_render_all_only |].
  destruct (given (ifid o)); [apply guarded_render_all_only |].
  destruct (given (stateId o)); [apply guarded_render_all_only | done].
Qed.

End Document.

Lemma setState_copies_agree_unscoped_example :
  setState page loops_render none_throws defaults
  = setState_older page loops_render none_throws defaults
  ∧ setState page loops_render none_throws defaults
    = [LoaderShow; DataJs 3; Render 1; Render 2; LoaderHide].
Proof.
  split; [| reflexivity].
  exact (setState_copies_agree_unscoped page loops_render none_throws defaults
           eq_refl eq_refl eq_refl).
Defined.

Lemma setState_older_keeps_to_its_scope_example :
  Render 1 ∈ setState_older page loops_render none_throws only_loop_a
  ∧ (Render 1 ∈ [LoaderShow; LoaderHide; ConsoleError]
     ∨ ∃ el els, Render 1 = Render el ∧ el ∈ els ∧
         page (by_id "for-loop" "loopid" (Some "a")) = Ok els).
Proof.
  assert (Hin : Render 1 ∈ setState_older page loops_render none_throws only_loop_a)
    by (apply elem_of_cons; by left).
  split; [exact Hin |].
  exact (setState_older_keeps_to_its_scope page loops_render none_throws only_loop_a
           (Render 1) eq_refl Hin).
Defined.

End DispatchFacts.

(** ** Data loops *)

Module DataLoopFacts.
Import Js Template Elements DataLoop ElementsTheory TemplateTheory.



Section Host.

Variable host : scope → string → result jsval.
Variable watched : scope.
Variable replace_word : string → string → string → result string.
Variable selector_error : string → option exn.
Variable document_template : string → option string.

Abbreviation render_container :=
  (render_container host watched replace_word selector_error document_template).
Abbreviation iteration := (iteration host watched replace_word).



(** X23.  What a data loop does when something is missing.  A container
    without [data-template], with a selector the host refuses, or with a
    selector that matches nothing keeps its content.  But when the
    template is found and the expression throws or evaluates to a falsy
    value, the container is emptied. *)
Theorem data_loop_keeps_or_empties (container : element) :
  (present (getAttribute container "data-template") = false →
   ∀ fuel, render_container fuel container = Some container)
  ∧ (∀ e, selector_error (text (getAttribute container "data-template")) = Some e →
     ∀ fuel, render_container fuel container = Some container)
  ∧ (document_template (text (getAttribute container "data-template")) = None →
     ∀ fuel, render_container fuel container = Some container)
  ∧ (∀ template,
       present (getAttribute container "data-template") = true →
       selector_error (text (getAttribute container "data-template")) = None →
       document_template (text (getAttribute container "data-template")) = Some template →
       truthy (unsafeEval host watched
                 (default "undefined" (getAttribute container "data-loop")) []) = false →
       ∀ fuel, render_container fuel container = Some (set_innerHTML "" container)).
Proof.
  unfold DataLoop.render_container. split; [| split; [| split]].
  - by intros ->.
  - intros e ->. by destruct (negb _).
  - intros ->. destruct (negb _); [done |]. by destruct (selector_error _).
  - intros template -> -> -> Hfalsy fuel. cbn [negb].
    unfold read_array. rewrite Hfalsy.
    by destruct fuel.
Qed.

End Host.

(** [<tbody data-loop="rows" data-template="#row" data-value="item">] on a
    page that holds [<template id="row"><tr><td>${item}</td></tr></template>]
    and where [rows] is [['a', 'b']]. *)
Definition tbody : element :=
  mkElement (list_to_map [("data-loop", "rows"); ("data-template", "#row");
                          ("data-value", "item")]) None "old rows".

Definition rows_scope : scope := [("rows", JArr 1 [JStr "a"; JStr "b"])].

Definition row_template (sel : string) : option string :=
  if String.eqb sel "#row" then Some "<tr><td>${item}</td></tr>" else None.



Lemma data_loop_keeps_or_empties_example :
  render_container Demo.host [] Demo.replace_word Demo.no_selector_error
    row_template 0 tbody
  = Some (set_innerHTML "" tbody)
  ∧ render_container Demo.host rows_scope Demo.replace_word Demo.no_selector_error
      (λ _, None) 0 tbody
    = Some tbody.
Proof.
  split.
  - exact (proj2 (proj2 (proj2 (data_loop_keeps_or_empties Demo.host [] Demo.replace_word
             Demo.no_selector_error row_template tbody)))
             "<tr><td>${item}</td></tr>" eq_refl eq_refl eq_refl eq_refl 0%nat).
  - exact (proj1 (proj2 (proj2 (data_loop_keeps_or_empties Demo.host rows_scope
             Demo.replace_word Demo.no_selector_error (λ _, None) tbody)))
             eq_refl 0%nat).
Defined.

End DataLoopFacts.

(** ** The processing of conditions in the DOM *)

Module ConditionDomFacts.
Import Js Template Elements ConditionDom DemoDom.

Local Open Scope list_scope.

(** Induction on nodes. *)
Lemma node_induction (P : node → Prop) :
  (∀ data, P (Text data)) →
  (∀ id tagName attributes childNodes,
     Forall P childNodes → P (Element id tagName attributes childNodes)) →
  ∀ n, P n.
Proof.
  intros Htext Helement.
  fix IH 1. intros [data|id tagName attributes childNodes]; [apply Htext |].
  apply Helement. induction childNodes as [|c cs IHcs]; constructor; [apply IH | apply IHcs].
Qed.

(** What is below an element of a tree is in the tree. *)
Lemma elements_closed m :
  ∀ n, In n (elements m) → ∀ x, In x (elements n) → In x (elements m).
Proof.
  induction m as [data|id t a cs IH] using node_induction; [done |].
  intros n Hn x Hx. cbn [elements] in Hn. destruct Hn as [<-|Hn]; [done |].
  cbn [elements]. right.
  apply in_flat_map in Hn as (c & Hc & Hn). apply in_flat_map. exists c. split; [done |].
  rewrite Forall_forall in IH.
  apply (IH c (proj2 (list_elem_of_In _ _) Hc) n Hn x Hx).
Qed.

Lemma elements_self id t a cs : In (Element id t a cs) (elements (Element id t a cs)).
Proof. cbn. by left. Qed.

(** *** Content with no if-node in it, and identities not used in it *)

(** No element of [ns], at any depth, has the tag name [tag]. *)
Definition without_tag (tag : string) (ns : list node) : bool :=
  forallb (λ n, negb (String.eqb (tagName_of n) tag)) (flat_map elements ns).

(** No element of [ns], at any depth, has the identity [i]. *)
Definition fresh (i : nat) (ns : list node) : bool :=
  forallb (λ n, negb (has_id i n)) (flat_map elements ns).

Lemma fresh_app i a b : fresh i (a ++ b) = fresh i a && fresh i b.
Proof. unfold fresh. by rewrite flat_map_app, forallb_app. Qed.

Lemma without_tag_app tag a b :
  without_tag tag (a ++ b) = without_tag tag a && without_tag tag b.
Proof. unfold without_tag. by rewrite flat_map_app, forallb_app. Qed.

Lemma fresh_existsb i ns : fresh i ns = true → existsb (has_id i) (flat_map elements ns) = false.
Proof.
  unfold fresh. intros H. apply not_true_is_false. intros Hex.
  apply existsb_exists in Hex as (n & Hn & Hid).
  rewrite forallb_forall in H. specialize (H n Hn). by rewrite Hid in H.
Qed.

Lemma fresh_child i ns c : fresh i ns = true → In c ns → has_id i c = false.
Proof.
  intros H Hc. destruct c as [data|id t a cs]; [done |].
  unfold fresh in H. rewrite forallb_forall in H.
  apply negb_true_iff, H, in_flat_map. eexists. split; [exact Hc | apply elements_self].
Qed.

Lemma fresh_below i ns n :
  fresh i ns = true → In n (flat_map elements ns) →
  existsb (has_id i) (descendants n) = false.
Proof.
  intros H Hn. apply not_true_is_false. intros Hex.
  apply existsb_exists in Hex as (x & Hx & Hid).
  unfold fresh in H. rewrite forallb_forall in H.
  assert (Hin : In x (flat_map elements ns)).
  { apply in_flat_map in Hn as (c & Hc & Hn). apply in_flat_map. exists c. split; [done |].
    apply (elements_closed c n Hn).
    destruct n as [data|id t a cs]; [done |]. cbn [elements]. by right. }
  specialize (H x Hin). by rewrite Hid in H.
Qed.

Lemma split_at_here i before x after :
  fresh i before = true → has_id i x = true →
  split_at i (before ++ x :: after) = Some (before, x, after).
Proof.
  intros Hfresh Hx. induction before as [|c before IH]; cbn [app split_at].
  - by rewrite Hx.
  - rewrite (fresh_child i (c :: before) c Hfresh) by (by left).
    rewrite IH; [done |].
    change (c :: before) with ([c] ++ before) in Hfresh.
    rewrite fresh_app in Hfresh. by apply andb_true_iff in Hfresh as [_ ?].
Qed.

Lemma find_here i before x after :
  fresh i before = true → has_id i x = true →
  List.find (has_id i) (flat_map elements (before ++ x :: after)) = Some x.
Proof.
  intros Hfresh Hx. rewrite flat_map_app.
  assert (Hnone : ∀ l rest, forallb (λ n, negb (has_id i n)) l = true →
                  List.find (has_id i) (l ++ rest) = List.find (has_id i) rest).
  { induction l as [|n l IH]; intros rest Hl; [done |].
    cbn in Hl. apply andb_true_iff in Hl as [Hn Hl].
    cbn. apply negb_true_iff in Hn. rewrite Hn. by apply IH. }
  rewrite Hnone by done. cbn [flat_map].
  destruct x as [data|id t a cs]; [done |]. cbn [elements app List.find]. by rewrite Hx.
Qed.


Lemma without_tag_cons tag id t a cs rest :
  without_tag tag (Element id t a cs :: rest)
  = negb (String.eqb t tag) && (without_tag tag cs && without_tag tag rest).
Proof.
  unfold without_tag. cbn [flat_map elements app forallb tagName_of].
  by rewrite forallb_app.
Qed.

(** An else-node with the given [elseid], as the search among the siblings
    tests it. *)
Definition is_else (elseid : string) (sibling : node) : bool :=
  String.eqb (tagName_of sibling) "ELSE-CONDITION"
  && bool_decide (attributes_of sibling !! "elseid" = Some elseid).

Lemma find_sibling elseid pre x post :
  forallb (λ n, negb (is_else elseid n)) pre = true →
  id_of x ≠ None →
  is_else elseid x = true →
  List.find (is_else elseid) (filter (λ c, is_Some (id_of c)) (pre ++ x :: post)) = Some x.
Proof.
  intros Hpre Hid Hx. induction pre as [|c pre IH]; cbn [app].
  - rewrite filter_cons_True by (by destruct (id_of x)).
    cbn [List.find]. by rewrite Hx.
  - cbn in Hpre. apply andb_true_iff in Hpre as [Hc Hpre].
    apply negb_true_iff in Hc.
    destruct (decide (is_Some (id_of c))).
    + rewrite filter_cons_True by done. cbn [List.find]. rewrite Hc. by apply IH.
    + rewrite filter_cons_False by done. by apply IH.
Qed.

Section Host.

Variable host : scope → string → result jsval.
Variable watched : scope.
Variable selector_error : string → option exn.
Variable matches : string → node → bool.
Variable parse : string → list node.
Variable serialize : list node → string.

(** The host takes the selectors [if-condition] and [else-condition] and
    selects the elements of these tag names with them. *)
Definition by_tag_name : Prop :=
  selector_error "if-condition" = None
  ∧ selector_error "else-condition" = None
  ∧ (∀ n, matches "if-condition" n = String.eqb (tagName_of n) "IF-CONDITION")
  ∧ (∀ n, matches "else-condition" n = String.eqb (tagName_of n) "ELSE-CONDITION").

Hypothesis engine : by_tag_name.

Abbreviation div := (Element 0 "DIV" ∅).

Lemma filter_tag_none sel tag l :
  (∀ n, matches sel n = String.eqb (tagName_of n) tag) →
  forallb (λ n, negb (String.eqb (tagName_of n) tag)) l = true →
  filter (λ n, matches sel n = true) l = [].
Proof.
  intros Hsel. induction l as [|n l IH]; intros Hl; [done |].
  cbn in Hl. apply andb_true_iff in Hl as [Hn Hl]. apply negb_true_iff in Hn.
  rewrite filter_cons_False by (rewrite Hsel, Hn; done). by apply IH.
Qed.

(** A container without if-nodes: the loop of passes is over. *)
Lemma querySelectorAll_none kids :
  without_tag "IF-CONDITION" kids = true →
  querySelectorAll selector_error matches "if-condition" (div kids) = Ok [].
Proof.
  intros Hkids. destruct engine as (Hif & _ & Hmatch & _).
  unfold querySelectorAll. rewrite Hif. f_equal.
  by apply (filter_tag_none _ "IF-CONDITION").
Qed.

Lemma passes_done kids detached m :
  without_tag "IF-CONDITION" kids = true →
  passes host watched selector_error matches m (mkDom (div kids) detached)
  = Ok (mkDom (div kids) detached).
Proof.
  intros Hkids.
  assert (Hq : querySelector selector_error matches "if-condition" (div kids) = Ok None).
  { unfold querySelector. by rewrite querySelectorAll_none. }
  destruct m; cbn [passes container]; by rewrite Hq.
Qed.

(** A container with one if-node, among its children. *)
Lemma querySelectorAll_one before i ai ki after :
  without_tag "IF-CONDITION" (before ++ ki ++ after) = true →
  querySelectorAll selector_error matches "if-condition"
    (div (before ++ Element i "IF-CONDITION" ai ki :: after))
  = Ok [Element i "IF-CONDITION" ai ki].
Proof.
  intros Hrest. destruct engine as (Hif & _ & Hmatch & _).
  rewrite !without_tag_app in Hrest.
  apply andb_true_iff in Hrest as [Hbefore Hrest].
  apply andb_true_iff in Hrest as [Hki Hafter].
  unfold querySelectorAll. rewrite Hif. f_equal.
  unfold descendants. cbn [childNodes_of].
  rewrite flat_map_app. cbn [flat_map elements].
  rewrite filter_app, (filter_tag_none _ "IF-CONDITION") by done.
  cbn [app]. rewrite filter_cons_True by (rewrite Hmatch; done).
  rewrite filter_app, !(filter_tag_none _ "IF-CONDITION") by done.
  done.
Qed.

Lemma contains_child i before x after :
  has_id i x = true → contains (div (before ++ x :: after)) i = true.
Proof.
  intros Hx. unfold contains. cbn [elements existsb].
  apply orb_true_iff. right. apply existsb_exists. exists x. split; [| done].
  apply in_flat_map. exists x. split; [apply in_elt |].
  destruct x as [data|id t a cs]; [done | apply elements_self].
Qed.

Lemma tree_of_container i before x after detached :
  has_id i x = true →
  tree_of i (trees (mkDom (div (before ++ x :: after)) detached))
  = Some ([], div (before ++ x :: after), detached).
Proof.
  intros Hx. unfold trees. cbn [container ConditionDom.detached tree_of].
  by rewrite contains_child.
Qed.

Lemma find_child i before x after :
  i ≠ 0 → fresh i before = true → has_id i x = true →
  find i (div (before ++ x :: after)) = Some x.
Proof.
  intros Hi Hfresh Hx. unfold find. cbn [elements List.find has_id].
  destruct (Nat.eqb_spec 0 i); [done |]. by apply find_here.
Qed.

Lemma edit_child i f before x after :
  fresh i before = true → has_id i x = true →
  edit i f (div (before ++ x :: after)) = Some (div (f before x after)).
Proof.
  intros Hfresh Hx. cbn [edit]. by rewrite split_at_here.
Qed.

Lemma remove_child i before x after detached :
  i ≠ 0 → fresh i before = true → has_id i x = true →
  remove i (mkDom (div (before ++ x :: after)) detached)
  = mkDom (div (before ++ after)) (detached ++ [x]).
Proof.
  intros Hi Hfresh Hx. unfold remove.
  rewrite tree_of_container, find_child, edit_child by done. done.
Qed.

Lemma unwrap_child i t a cs before after detached :
  i ≠ 0 → fresh i before = true →
  unwrap i (mkDom (div (before ++ Element i t a cs :: after)) detached)
  = Ok (mkDom (div (before ++ cs ++ after)) (detached ++ [Element i t a []])).
Proof.
  intros Hi Hfresh.
  assert (Hx : has_id i (Element i t a cs) = true) by (cbn; apply Nat.eqb_refl).
  unfold unwrap.
  rewrite tree_of_container, find_child, edit_child by done. done.
Qed.

Lemma filter_none {A} (P : A → bool) (l : list A) :
  forallb (λ x, negb (P x)) l = true → filter (λ x, P x) l = [].
Proof.
  induction l as [|x l IH]; intros Hl; [done |].
  cbn in Hl. apply andb_true_iff in Hl as [Hx Hl]. apply negb_true_iff in Hx.
  rewrite filter_cons_False by (rewrite Hx; exact id). by apply IH.
Qed.

(** A child of the container has the container above it and nothing
    else. *)
Lemma ancestors_child i before t a cs after :
  i ≠ 0 →
  fresh i (before ++ cs ++ after) = true →
  ancestors i (div (before ++ Element i t a cs :: after))
  = [div (before ++ Element i t a cs :: after)].
Proof.
  intros Hi Hfresh.
  set (x := Element i t a cs). set (kids := before ++ x :: after).
  assert (Hx : has_id i x = true) by (cbn; apply Nat.eqb_refl).
  unfold ancestors. cbn [elements].
  rewrite filter_cons_True.
  2: { cbn [has_id]. destruct (Nat.eqb_spec 0 i); [done |]. cbn [negb andb].
       apply Is_true_true. unfold descendants. cbn [childNodes_of].
       apply existsb_exists. exists x. split; [| done].
       apply in_flat_map. exists x. split; [apply in_elt | apply elements_self]. }
  rewrite filter_none; [done |].
  apply forallb_forall. intros n Hn. apply negb_true_iff.
  subst kids. rewrite flat_map_app in Hn. cbn [flat_map] in Hn.
  rewrite !fresh_app in Hfresh.
  apply andb_true_iff in Hfresh as [Hbefore Hfresh].
  apply andb_true_iff in Hfresh as [Hcs Hafter].
  apply in_app_or in Hn as [Hn|Hn];
    [by rewrite (fresh_below i before n), andb_false_r |].
  apply in_app_or in Hn as [Hn|Hn];
    [| by rewrite (fresh_below i after n), andb_false_r].
  subst x. cbn [elements] in Hn. destruct Hn as [<-|Hn].
  - cbn [has_id]. by rewrite Nat.eqb_refl.
  - by rewrite (fresh_below i cs n), andb_false_r.
Qed.

(** An if-node that is a child of the container is not left for later. *)
Lemma left_for_later_child i before t a cs after detached :
  i ≠ 0 →
  fresh i (before ++ cs ++ after) = true →
  left_for_later selector_error matches i
    (mkDom (div (before ++ Element i t a cs :: after)) detached)
  = Ok false.
Proof.
  intros Hi Hfresh. destruct engine as (_ & Helse & _ & Hmatch).
  unfold left_for_later, closest. rewrite Helse.
  rewrite tree_of_container by (cbn; apply Nat.eqb_refl).
  rewrite ancestors_child by done.
  by rewrite filter_cons_False by (rewrite Hmatch; done).
Qed.


Lemma node_of_child i before x after detached :
  i ≠ 0 → fresh i before = true → has_id i x = true →
  node_of i (mkDom (div (before ++ x :: after)) detached) = Some x.
Proof.
  intros Hi Hfresh Hx. unfold node_of.
  rewrite tree_of_container by done. by apply find_child.
Qed.

Lemma parentNode_child i before x after :
  has_id i x = true →
  parentNode i (div (before ++ x :: after)) = Some (div (before ++ x :: after)).
Proof.
  intros Hx. unfold parentNode. cbn [elements List.find childNodes_of].
  assert (Hin : existsb (has_id i) (before ++ x :: after) = true).
  { apply existsb_exists. exists x. split; [apply in_elt | done]. }
  by rewrite Hin.
Qed.

Lemma passes_step m d first ifElements :
  querySelector selector_error matches "if-condition" (container d) = Ok (Some first) →
  querySelectorAll selector_error matches "if-condition" (container d) = Ok ifElements →
  ConditionDom.passes host watched selector_error matches (S m) d
  = match for_each host watched selector_error matches (omap id_of ifElements) d with
    | Ok d' => ConditionDom.passes host watched selector_error matches m d'
    | Throw e => Throw e
    end.
Proof. intros Hq Hall. cbn [ConditionDom.passes]. by rewrite Hq, Hall. Qed.

Abbreviation _processConditionsRecursive :=
  (_processConditionsRecursive host watched selector_error matches parse serialize).
Abbreviation passes := (passes host watched selector_error matches).

(** X24.  A pair of an if-node and its else-node among the top-level
    nodes of a template is resolved as its condition says.  When the host
    selects by tag name, the if-node has a [value] and an [elseid], the
    first else-node among its siblings with that [elseid] comes after it,
    no other if-node stands anywhere in the markup, and the identities of
    the two nodes are theirs alone: if the condition holds the children of
    the if-node take its place and the else-node is gone with its content,
    otherwise the if-node is gone and the children of the else-node take
    the place of the else-node; every other node stays where it was. *)
Theorem if_else_pair_is_resolved html before middle after i ai ki j aj kj elseid :
  let ifEl := Element i "IF-CONDITION" ai ki in
  let elseEl := Element j "ELSE-CONDITION" aj kj in
  parse html = before ++ ifEl :: middle ++ elseEl :: after →
  present (ai !! "value") = true →
  ai !! "elseid" = Some elseid →
  elseid ≠ "" →
  aj !! "elseid" = Some elseid →
  i ≠ 0 → j ≠ 0 →
  fresh i (before ++ ki ++ middle ++ elseEl :: after) = true →
  fresh j (before ++ ifEl :: middle) = true →
  without_tag "IF-CONDITION" (before ++ ki ++ middle ++ elseEl :: after) = true →
  forallb (λ n, negb (is_else elseid n)) (before ++ middle) = true →
  _processConditionsRecursive html
  = Ok (serialize
          (if ConditionBlock._evaluateCondition host watched (mkElement ai None "")
           then before ++ ki ++ middle ++ after
           else before ++ middle ++ kj ++ after)).
Proof.
  intros ifEl elseEl Hparse Hvalue Helseid Hnonempty Helseid' Hi Hj Hfi Hfj Hplain Hsiblings.
  assert (Hif : has_id i ifEl = true) by (cbn; apply Nat.eqb_refl).
  assert (Helse : has_id j elseEl = true) by (cbn; apply Nat.eqb_refl).
  assert (Hfi' := Hfi). assert (Hplain' := Hplain).
  rewrite !fresh_app in Hfi'.
  apply andb_true_iff in Hfi' as [Hfi_before Hfi'].
  apply andb_true_iff in Hfi' as [Hfi_ki Hfi'].
  apply andb_true_iff in Hfi' as [Hfi_middle Hfi_rest].
  unfold elseEl in Hplain'.
  rewrite !without_tag_app, without_tag_cons in Hplain'.
  apply andb_true_iff in Hplain' as [Hp_before Hplain'].
  apply andb_true_iff in Hplain' as [Hp_ki Hplain'].
  apply andb_true_iff in Hplain' as [Hp_middle Hplain'].
  apply andb_true_iff in Hplain' as [_ Hplain'].
  apply andb_true_iff in Hplain' as [Hp_kj Hp_after].
  assert (Hfj' := Hfj).
  change (before ++ ifEl :: middle) with (before ++ [ifEl] ++ middle) in Hfj'.
  rewrite !fresh_app in Hfj'.
  apply andb_true_iff in Hfj' as [Hfj_before Hfj'].
  apply andb_true_iff in Hfj' as [_ Hfj_middle].
  unfold ConditionDom._processConditionsRecursive. rewrite Hparse.
  set (kids := before ++ ifEl :: middle ++ elseEl :: after).
  assert (Hkids : kids = (before ++ ifEl :: middle) ++ elseEl :: after)
    by (subst kids; by rewrite <- app_assoc).
  set (d0 := mkDom (div kids) []).
  (* the one pass *)
  assert (Hall : querySelectorAll selector_error matches "if-condition" (div kids)
                 = Ok [ifEl]) by (by apply querySelectorAll_one).
  assert (Hlater : left_for_later selector_error matches i d0 = Ok false)
    by (by apply left_for_later_child).
  assert (Hnode : node_of i d0 = Some ifEl) by (by apply node_of_child).
  assert (Hfound : else_of selector_error matches i elseid d0 = Ok (Some elseEl)).
  { unfold else_of, d0, kids. rewrite (tree_of_container i before ifEl) by done.
    rewrite parentNode_child by done. cbn [childNodes_of].
    fold kids. rewrite Hkids.
    assert (Hf := find_sibling elseid (before ++ ifEl :: middle) elseEl after).
    unfold is_else at 2 3 in Hf. unfold getAttribute. rewrite Hf; [done | | done |].
    - change (before ++ ifEl :: middle) with (before ++ [ifEl] ++ middle).
      rewrite !forallb_app in *. apply andb_true_iff in Hsiblings as [H1 H2].
      rewrite H1, H2. done.
    - cbn [elseEl tagName_of attributes_of]. rewrite Helseid'.
      by rewrite bool_decide_eq_true_2. }
  assert (Hsingle :
            _processSingleIfElse host watched selector_error matches i d0
            = Ok (if ConditionBlock._evaluateCondition host watched (mkElement ai None "")
                  then mkDom (div (before ++ ki ++ middle ++ after))
                         [elseEl; Element i "IF-CONDITION" ai []]
                  else mkDom (div (before ++ middle ++ kj ++ after))
                         [ifEl; Element j "ELSE-CONDITION" aj []])).
  { unfold _processSingleIfElse. rewrite Hnode.
    unfold getAttribute. cbn [attributes_of ifEl]. rewrite Hvalue, Helseid. cbn [negb].
    assert (Hor : CustomForLoop.or_text (Some elseid) "" = elseid).
    { unfold CustomForLoop.or_text. cbn.
      by destruct (String.eqb_spec elseid ""). }
    rewrite Hor.
    assert (Hne : String.eqb elseid "" = false) by (by apply String.eqb_neq).
    rewrite Hne. cbn [negb]. rewrite Hfound. cbn [mbind option_bind id_of elseEl].
    destruct (ConditionBlock._evaluateCondition _ _ _).
    - unfold d0. rewrite Hkids.
      rewrite (remove_child j _ elseEl after []) by done.
      rewrite <- app_assoc. cbn [app].
      by rewrite (unwrap_child i "IF-CONDITION" ai ki before (middle ++ after)).
    - unfold d0, kids.
      rewrite (remove_child i before ifEl (middle ++ elseEl :: after) []) by done.
      rewrite (app_assoc before middle (elseEl :: after)).
      rewrite (unwrap_child j "ELSE-CONDITION" aj kj (before ++ middle) after); [| done |].
      + by rewrite <- !app_assoc.
      + by rewrite fresh_app, Hfj_before, Hfj_middle. }
  assert (Hq : querySelector selector_error matches "if-condition" (div kids)
               = Ok (Some ifEl)).
  { unfold querySelector. by rewrite Hall. }
  assert (Heach : for_each host watched selector_error matches [i] d0
                  = _processSingleIfElse host watched selector_error matches i d0).
  { cbn [for_each]. rewrite Hlater. by destruct (_processSingleIfElse _ _ _ _ _ _). }
  rewrite (passes_step 99 d0 ifEl [ifEl] Hq Hall).
  change (omap id_of [ifEl]) with [i]. rewrite Heach, Hsingle.
  destruct (ConditionBlock._evaluateCondition _ _ _).
  - rewrite passes_done; [done |].
    by rewrite !without_tag_app, Hp_before, Hp_ki, Hp_middle, Hp_after.
  - rewrite passes_done; [done |].
    by rewrite !without_tag_app, Hp_before, Hp_kj, Hp_middle, Hp_after.
Qed.

(** X25.  An if-node without a [value] is dropped.  When the host selects
    by tag name and an if-node among the top-level nodes of a template
    has no [value] attribute (or an empty one), it is taken out with all
    its content and nothing else is touched: an else-node that goes with
    it stays in the markup as it is, so its content shows. *)
Theorem if_without_value_is_dropped html before after i ai ki :
  parse html = before ++ Element i "IF-CONDITION" ai ki :: after →
  present (ai !! "value") = false →
  i ≠ 0 →
  fresh i (before ++ ki ++ after) = true →
  without_tag "IF-CONDITION" (before ++ ki ++ after) = true →
  _processConditionsRecursive html = Ok (serialize (before ++ after)).
Proof.
  intros Hparse Hvalue Hi Hfresh Hplain.
  set (ifEl := Element i "IF-CONDITION" ai ki) in *.
  assert (Hif : has_id i ifEl = true) by (cbn; apply Nat.eqb_refl).
  assert (Hfresh' := Hfresh). rewrite !fresh_app in Hfresh'.
  apply andb_true_iff in Hfresh' as [Hf_before _].
  assert (Hplain' := Hplain). rewrite !without_tag_app in Hplain'.
  apply andb_true_iff in Hplain' as [Hp_before Hplain'].
  apply andb_true_iff in Hplain' as [_ Hp_after].
  unfold ConditionDom._processConditionsRecursive. rewrite Hparse.
  set (kids := before ++ ifEl :: after).
  set (d0 := mkDom (div kids) []).
  assert (Hall : querySelectorAll selector_error matches "if-condition" (div kids)
                 = Ok [ifEl]) by (by apply querySelectorAll_one).
  assert (Hq : querySelector selector_error matches "if-condition" (div kids)
               = Ok (Some ifEl)).
  { unfold querySelector. by rewrite Hall. }
  assert (Hlater : left_for_later selector_error matches i d0 = Ok false)
    by (by apply left_for_later_child).
  assert (Hsingle : _processSingleIfElse host watched selector_error matches i d0
                    = Ok (mkDom (div (before ++ after)) [ifEl])).
  { unfold _processSingleIfElse. subst d0 kids.
    rewrite node_of_child by done.
    unfold getAttribute. cbn [attributes_of ifEl]. rewrite Hvalue. cbn [negb].
    by rewrite remove_child. }
  assert (Heach : for_each host watched selector_error matches [i] d0
                  = _processSingleIfElse host watched selector_error matches i d0).
  { cbn [for_each]. rewrite Hlater. by destruct (_processSingleIfElse _ _ _ _ _ _). }
  rewrite (passes_step 99 d0 ifEl [ifEl] Hq Hall).
  change (omap id_of [ifEl]) with [i]. rewrite Heach, Hsingle.
  rewrite passes_done; [done |].
  by rewrite without_tag_app, Hp_before, Hp_after.
Qed.

(** X26.  An if-node on its own is resolved by its condition alone.  When
    the host selects by tag name and an if-node among the top-level nodes
    of a template has a [value] but no [elseid] (or an empty one), no
    else-node is looked for: if the condition holds the children of the
    if-node take its place, otherwise the if-node is gone with its
    content; the nodes around it, else-nodes among them, stay as they
    are. *)
Theorem lone_if_is_resolved html before after i ai ki :
  parse html = before ++ Element i "IF-CONDITION" ai ki :: after →
  present (ai !! "value") = true →
  present (ai !! "elseid") = false →
  i ≠ 0 →
  fresh i (before ++ ki ++ after) = true →
  without_tag "IF-CONDITION" (before ++ ki ++ after) = true →
  _processConditionsRecursive html
  = Ok (serialize
          (if ConditionBlock._evaluateCondition host watched (mkElement ai None "")
           then before ++ ki ++ after
           else before ++ after)).
Proof.
  intros Hparse Hvalue Helseid Hi Hfresh Hplain.
  set (ifEl := Element i "IF-CONDITION" ai ki) in *.
  assert (Hif : has_id i ifEl = true) by (cbn; apply Nat.eqb_refl).
  assert (Hfresh' := Hfresh). rewrite !fresh_app in Hfresh'.
  apply andb_true_iff in Hfresh' as [Hf_before _].
  assert (Hplain' := Hplain). rewrite !without_tag_app in Hplain'.
  apply andb_true_iff in Hplain' as [Hp_before Hplain'].
  apply andb_true_iff in Hplain' as [_ Hp_after].
  unfold ConditionDom._processConditionsRecursive. rewrite Hparse.
  set (kids := before ++ ifEl :: after).
  set (d0 := mkDom (div kids) []).
  assert (Hall : querySelectorAll selector_error matches "if-condition" (div kids)
                 = Ok [ifEl]) by (by apply querySelectorAll_one).
  assert (Hq : querySelector selector_error matches "if-condition" (div kids)
               = Ok (Some ifEl)).
  { unfold querySelector. by rewrite Hall. }
  assert (Hlater : left_for_later selector_error matches i d0 = Ok false)
    by (by apply left_for_later_child).
  assert (Hsingle :
            _processSingleIfElse host watched selector_error matches i d0
            = Ok (if ConditionBlock._evaluateCondition host watched (mkElement ai None "")
                  then mkDom (div (before ++ ki ++ after)) [Element i "IF-CONDITION" ai []]
                  else mkDom (div (before ++ after)) [ifEl])).
  { unfold _processSingleIfElse, d0, kids.
    rewrite node_of_child by done.
    unfold getAttribute. cbn [attributes_of ifEl]. rewrite Hvalue. cbn [negb].
    unfold CustomForLoop.or_text. rewrite Helseid.
    cbn [String.eqb negb mbind option_bind].
    destruct (ConditionBlock._evaluateCondition _ _ _).
    - by rewrite (unwrap_child i "IF-CONDITION" ai ki before after).
    - by rewrite remove_child. }
  assert (Heach : for_each host watched selector_error matches [i] d0
                  = _processSingleIfElse host watched selector_error matches i d0).
  { cbn [for_each]. rewrite Hlater. by destruct (_processSingleIfElse _ _ _ _ _ _). }
  rewrite (passes_step 99 d0 ifEl [ifEl] Hq Hall).
  change (omap id_of [ifEl]) with [i]. rewrite Heach, Hsingle.
  destruct (ConditionBlock._evaluateCondition _ _ _).
  - by rewrite passes_done.
  - rewrite passes_done; [done |].
    by rewrite without_tag_app, Hp_before, Hp_after.
Qed.

End Host.

(** *** Examples

    With the selector engine and the serialiser of [DemoDom]: a page
    whose greeting depends on [user]. *)

Definition greeting : list node :=
  [Element 1 "H1" ∅ [Text "Shop"];
   Element 2 "IF-CONDITION" (list_to_map [("value", "user"); ("elseid", "g")])
     [Text "Hello "; Element 3 "B" ∅ [Text "Ann"]];
   Text " ";
   Element 4 "ELSE-CONDITION" (list_to_map [("elseid", "g")]) [Text "Sign in"];
   Element 5 "P" ∅ [Text "footer"]].

Definition unconditional : list node :=
  [Element 1 "IF-CONDITION" (list_to_map [("elseid", "g")]) [Text "Hello"];
   Element 2 "ELSE-CONDITION" (list_to_map [("elseid", "g")]) [Text "Sign in"]].

Definition banner : list node :=
  [Element 1 "IF-CONDITION" (list_to_map [("value", "sale")]) [Text "Sale!"];
   Element 2 "ELSE-CONDITION" (list_to_map [("elseid", "g")]) [Text "Sign in"]].

Lemma demo_by_tag_name : by_tag_name Demo.no_selector_error demo_matches.
Proof. repeat split; intros n; reflexivity. Defined.

Lemma if_else_pair_is_resolved_example :
  _processConditionsRecursive Demo.host [("user", JStr "Ann")]
    Demo.no_selector_error demo_matches (λ _, greeting) markup "page"
  = Ok "<H1>Shop</H1>Hello <B>Ann</B> <P>footer</P>"
  ∧ _processConditionsRecursive Demo.host [("user", JStr "")]
      Demo.no_selector_error demo_matches (λ _, greeting) markup "page"
    = Ok "<H1>Shop</H1> Sign in<P>footer</P>".
Proof.
  split.
  - refine (if_else_pair_is_resolved Demo.host [("user", JStr "Ann")]
              Demo.no_selector_error demo_matches (λ _, greeting) markup
              demo_by_tag_name "page"
              [Element 1 "H1" ∅ [Text "Shop"]] [Text " "] [Element 5 "P" ∅ [Text "footer"]]
              2 _ _ 4 _ _ "g" eq_refl eq_refl eq_refl _ eq_refl _ _ eq_refl eq_refl
              eq_refl eq_refl); done.
  - refine (if_else_pair_is_resolved Demo.host [("user", JStr "")]
              Demo.no_selector_error demo_matches (λ _, greeting) markup
              demo_by_tag_name "page"
              [Element 1 "H1" ∅ [Text "Shop"]] [Text " "] [Element 5 "P" ∅ [Text "footer"]]
              2 _ _ 4 _ _ "g" eq_refl eq_refl eq_refl _ eq_refl _ _ eq_refl eq_refl
              eq_refl eq_refl); done.
Defined.

Lemma if_without_value_is_dropped_example :
  _processConditionsRecursive Demo.host []
    Demo.no_selector_error demo_matches (λ _, unconditional) markup "page"
  = Ok "<ELSE-CONDITION>Sign in</ELSE-CONDITION>".
Proof.
  refine (if_without_value_is_dropped Demo.host []
            Demo.no_selector_error demo_matches (λ _, unconditional) markup
            demo_by_tag_name "page" []
            [Element 2 "ELSE-CONDITION" (list_to_map [("elseid", "g")]) [Text "Sign in"]]
            1 _ _ eq_refl eq_refl _ eq_refl eq_refl); done.
Defined.

Lemma lone_if_is_resolved_example :
  _processConditionsRecursive Demo.host [("sale", JBool true)]
    Demo.no_selector_error demo_matches (λ _, banner) markup "page"
  = Ok "Sale!<ELSE-CONDITION>Sign in</ELSE-CONDITION>"
  ∧ _processConditionsRecursive Demo.host [("sale", JBool false)]
      Demo.no_selector_error demo_matches (λ _, banner) markup "page"
    = Ok "<ELSE-CONDITION>Sign in</ELSE-CONDITION>".
Proof.
  split.
  - refine (lone_if_is_resolved Demo.host [("sale", JBool true)]
              Demo.no_selector_error demo_matches (λ _, banner) markup
              demo_by_tag_name "page" []
              [Element 2 "ELSE-CONDITION" (list_to_map [("elseid", "g")]) [Text "Sign in"]]
              1 _ _ eq_refl eq_refl eq_refl _ eq_refl eq_refl); done.
  - refine (lone_if_is_resolved Demo.host [("sale", JBool false)]
              Demo.no_selector_error demo_matches (λ _, banner) markup
              demo_by_tag_name "page" []
              [Element 2 "ELSE-CONDITION" (list_to_map [("elseid", "g")]) [Text "Sign in"]]
              1 _ _ eq_refl eq_refl eq_refl _ eq_refl eq_refl); done.
Defined.

End ConditionDomFacts.

(** ** Relative links *)

Module LinkFacts.
Import Js Template Urls Links TemplateTheory.

(** Whether a quote stands somewhere in [s], whether a dollar does, and
    whether a quote with a dot right after it does. *)
Definition quotes_free (s : string) : bool :=
  forallb (λ c, negb (is_quote c)) (list_ascii_of_string s).

Definition dollar_free (s : string) : bool :=
  forallb (λ c, negb (Ascii.eqb c "$")) (list_ascii_of_string s).

Fixpoint dotted_quote_free (s : string) : bool :=
  match s with
  | String c (String d _ as s') =>
      negb (is_quote c && Ascii.eqb d ".") && dotted_quote_free s'
  | _ => true
  end.

(** Both sides of an equation of strings, written as one chain of
    appends. *)
Ltac flatten := repeat (rewrite ?append_assoc, ?append_cons, ?append_nil).

(** *** What a match is made of *)

Lemma strip_split p s rest : strip p s = Some rest → s = p +:+ rest.
Proof.
  revert s. induction p as [|a p IH]; intros s; cbn [strip].
  - by intros [= ->].
  - destruct s as [|b s]; [done |].
    destruct (Ascii.eqb_spec a b) as [->|]; [| done].
    intros H. rewrite append_cons. f_equal. by apply IH.
Qed.

Lemma strip_here p rest : strip p (p +:+ rest) = Some rest.
Proof.
  induction p as [|a p IH]; [done |].
  rewrite append_cons. cbn [strip]. by rewrite Ascii.eqb_refl.
Qed.

Lemma run_then_quote_split s run q rest :
  run_then_quote s = Some (run, q, rest) → s = run +:+ String q rest.
Proof.
  revert run. induction s as [|c s IH]; intros run; cbn [run_then_quote]; [done |].
  destruct (is_quote c); [done |].
  destruct (run_then_quote s) as [[[run' q'] rest']|].
  - intros [= <- <- <-]. rewrite append_cons. f_equal. by apply IH.
  - destruct s as [|d s]; [done |].
    destruct (is_quote d); [| done].
    by intros [= <- <- <-].
Qed.

Lemma url_then_quote_split s url q rest :
  url_then_quote s = Some (url, q, rest) →
  ∃ tail, url = String "." tail ∧ s = url +:+ String q rest.
Proof.
  unfold url_then_quote. destruct s as [|dot s1]; [done |].
  destruct (Ascii.eqb_spec dot ".") as [->|]; [| done].
  assert (Hwithout :
            match run_then_quote s1 with
            | Some (run, q0, rest0) => Some (String "."%char run, q0, rest0)
            | None => None
            end = Some (url, q, rest) →
            ∃ tail, url = String "." tail ∧ String "." s1 = url +:+ String q rest).
  { destruct (run_then_quote s1) as [[[run q0] rest0]|] eqn:Hrun; [| done].
    intros [= <- <- <-]. exists run. split; [done |].
    rewrite append_cons. f_equal. by apply run_then_quote_split. }
  destruct s1 as [|slash s2]; [exact Hwithout |].
  destruct (Ascii.eqb_spec slash "/") as [->|]; [| exact Hwithout].
  destruct (run_then_quote s2) as [[[run q0] rest0]|] eqn:Hrun; [| exact Hwithout].
  intros [= <- <- <-]. exists (String "/" run). split; [done |].
  rewrite !append_cons. do 2 f_equal. by apply run_then_quote_split.
Qed.

Lemma attribute_here_split name s m url rest :
  attribute_here name s = Some (m, url, rest) →
  s = m +:+ rest
  ∧ ∃ q tail, is_quote q = true ∧ s = (name +:+ "=") +:+ String q (String "." tail).
Proof.
  unfold attribute_here.
  destruct (strip (name +:+ "=") s) as [[|q s1]|] eqn:Hname; [done | | done].
  destruct (is_quote q) eqn:Hq; [| done].
  destruct (url_then_quote s1) as [[[url' q'] rest']|] eqn:Hurl; [| done].
  intros [= <- <- <-].
  apply strip_split in Hname.
  destruct (url_then_quote_split _ _ _ _ Hurl) as (tail & -> & Hs1).
  split.
  - rewrite Hname, Hs1. by flatten.
  - exists q, (tail +:+ String q' rest'). split; [done |].
    by rewrite Hname, Hs1, append_cons.
Qed.

Lemma match_here_split s m url rest :
  match_here s = Some (m, url, rest) →
  s = m +:+ rest
  ∧ ∃ name q tail, is_quote q = true ∧ s = name +:+ String q (String "." tail).
Proof.
  unfold match_here.
  destruct (attribute_here "src" s) as [[[m' url'] rest']|] eqn:Hsrc.
  - intros [= <- <- <-].
    destruct (attribute_here_split _ _ _ _ _ Hsrc) as (Hs & q & tail & Hq & Hs').
    split; [done |]. by exists "src=", q, tail.
  - intros Hhref.
    destruct (attribute_here_split _ _ _ _ _ Hhref) as (Hs & q & tail & Hq & Hs').
    split; [done |]. by exists "href=", q, tail.
Qed.

Lemma dotted_quote_free_tail c s :
  dotted_quote_free (String c s) = true → dotted_quote_free s = true.
Proof.
  destruct s as [|d s]; [done |]. cbn [dotted_quote_free].
  by intros [_ H]%andb_true_iff.
Qed.

Lemma dotted_quote_found a q t :
  is_quote q = true → dotted_quote_free (a +:+ String q (String "." t)) = false.
Proof.
  intros Hq. induction a as [|c a IH].
  - rewrite append_nil. cbn [dotted_quote_free]. by rewrite Hq.
  - rewrite append_cons.
    destruct (dotted_quote_free (String c (a +:+ String q (String "." t)))) eqn:H; [| done].
    apply dotted_quote_free_tail in H. congruence.
Qed.

Lemma match_here_dotted_quote s :
  dotted_quote_free s = true → match_here s = None.
Proof.
  intros Hfree. destruct (match_here s) as [[[m url] rest]|] eqn:Hm; [| done].
  destruct (match_here_split _ _ _ _ Hm) as (_ & name & q & tail & Hq & ->).
  by rewrite dotted_quote_found in Hfree.
Qed.

(** *** A match where there is one *)

Lemma is_quote_inv q : is_quote q = true → q = ascii_of_nat 34 ∨ q = ascii_of_nat 39.
Proof.
  unfold is_quote. intros [H|H]%orb_true_iff; apply Ascii.eqb_eq in H; auto.
Qed.

Lemma run_then_quote_run run q rest :
  run ≠ "" → quotes_free run = true → is_quote q = true →
  run_then_quote (run +:+ String q rest) = Some (run, q, rest).
Proof.
  intros Hrun Hfree Hq. induction run as [|c run IH]; [done |].
  cbn in Hfree. apply andb_true_iff in Hfree as [Hc Hfree].
  apply negb_true_iff in Hc.
  rewrite append_cons. cbn [run_then_quote]. rewrite Hc.
  destruct run as [|d run].
  - rewrite append_nil. cbn [run_then_quote]. by rewrite Hq.
  - by rewrite IH.
Qed.

Lemma run_then_quote_none q rest :
  is_quote q = true → run_then_quote (String q rest) = None.
Proof. intros Hq. cbn [run_then_quote]. by rewrite Hq. Qed.

Lemma url_then_quote_url tail q rest :
  tail ≠ "" → quotes_free tail = true → is_quote q = true →
  url_then_quote (String "." tail +:+ String q rest) = Some (String "." tail, q, rest).
Proof.
  intros Htail Hfree Hq. rewrite append_cons. unfold url_then_quote.
  rewrite Ascii.eqb_refl. rewrite (run_then_quote_run tail q rest) by done.
  destruct tail as [|slash t2]; [done |]. rewrite append_cons.
  destruct (Ascii.eqb_spec slash "/") as [->|]; [| done].
  destruct t2 as [|c t2].
  - rewrite append_nil. by rewrite run_then_quote_none.
  - rewrite (run_then_quote_run (String c t2) q rest); [done | done | | done].
    cbn in Hfree. by apply andb_true_iff in Hfree as [_ Hfree].
Qed.

Lemma attribute_here_url name tail q q' rest :
  tail ≠ "" → quotes_free tail = true → is_quote q = true → is_quote q' = true →
  attribute_here name (name +:+ "=" +:+ String q (String "." tail) +:+ String q' rest)
  = Some (name +:+ "=" +:+ String q (String "." tail) +:+ String q' "",
          String "." tail, rest).
Proof.
  intros Htail Hfree Hq Hq'. unfold attribute_here.
  replace (name +:+ "=" +:+ String q (String "." tail) +:+ String q' rest)
    with ((name +:+ "=") +:+ String q (String "." tail +:+ String q' rest))
    by (by flatten).
  rewrite strip_here, Hq. by rewrite url_then_quote_url.
Qed.

Lemma match_here_url name tail q q' rest :
  name = "src" ∨ name = "href" →
  tail ≠ "" → quotes_free tail = true → is_quote q = true → is_quote q' = true →
  match_here (name +:+ "=" +:+ String q (String "." tail) +:+ String q' rest)
  = Some (name +:+ "=" +:+ String q (String "." tail) +:+ String q' "",
          String "." tail, rest).
Proof.
  intros Hname Htail Hfree Hq Hq'. unfold match_here.
  destruct Hname as [-> | ->].
  - by rewrite attribute_here_url.
  - replace (attribute_here "src" _) with (@None (string * string * string)) by done.
    by rewrite attribute_here_url.
Qed.

(** *** The inner [replace] *)

Definition free_of (c : ascii) (s : string) : bool :=
  forallb (λ d, negb (Ascii.eqb c d)) (list_ascii_of_string s).

Lemma cut_first_here c t before after :
  free_of c before = true →
  cut_first (String c t) (before +:+ String c t +:+ after) = Some (before, after).
Proof.
  intros Hfree. induction before as [|d before IH].
  - rewrite append_nil, append_cons. cbn [cut_first strip].
    by rewrite Ascii.eqb_refl, strip_here.
  - cbn in Hfree. apply andb_true_iff in Hfree as [Hd Hfree].
    apply negb_true_iff in Hd.
    rewrite append_cons. cbn [cut_first strip]. rewrite Hd. by rewrite IH.
Qed.

Lemma expand_plain matched before after replacement :
  dollar_free replacement = true →
  expand matched before after replacement = replacement.
Proof.
  induction replacement as [|c r IH]; [done |].
  cbn. intros [Hc Hr]%andb_true_iff. apply negb_true_iff in Hc.
  rewrite Hc. f_equal. by apply IH.
Qed.

Lemma expand_matched matched before after a b :
  dollar_free a = true → dollar_free b = true →
  expand matched before after (a +:+ "$&" +:+ b) = a +:+ matched +:+ b.
Proof.
  intros Ha Hb. induction a as [|c a IH].
  - rewrite !append_nil.
    change ("$&" +:+ b) with (String "$" (String "&" b)).
    cbn [expand Ascii.eqb Bool.eqb andb]. by rewrite expand_plain.
  - cbn in Ha. apply andb_true_iff in Ha as [Hc Ha]. apply negb_true_iff in Hc.
    rewrite !append_cons. cbn [expand]. rewrite Hc. f_equal. by apply IH.
Qed.

Lemma replace_url name q q' url href :
  name = "src" ∨ name = "href" → is_quote q = true →
  replace (String "." url) href
    (name +:+ "=" +:+ String q (String "." url) +:+ String q' "")
  = name +:+ "=" +:+ String q
      (expand (String "." url) (name +:+ "=" +:+ String q "") (String q' "") href)
    +:+ String q' "".
Proof.
  intros Hname Hq. unfold replace.
  replace (name +:+ "=" +:+ String q (String "." url) +:+ String q' "")
    with ((name +:+ "=" +:+ String q "") +:+ String "." url +:+ String q' "")
    by (by flatten).
  rewrite cut_first_here; [by flatten |].
  destruct Hname as [-> | ->]; destruct (is_quote_inv q Hq) as [-> | ->]; reflexivity.
Qed.

Lemma length_append (a b : string) :
  String.length (a +:+ b) = String.length a + String.length b.
Proof. induction a as [|c a IH]; [done |]. rewrite append_cons. cbn. by rewrite IH. Qed.

Section Host.

Variable resolve : string → string → result string.

Abbreviation replace_matches := (replace_matches resolve).
Abbreviation convertRelativeToAbsolute := (convertRelativeToAbsolute resolve).

(** The characters of a match are passed over. *)
Lemma replace_matches_inside baseUrl m rest :
  replace_matches baseUrl (String.length m) (m +:+ rest) = replace_matches baseUrl 0 rest.
Proof.
  induction m as [|c m IH]; [by destruct rest |].
  rewrite append_cons. cbn [String.length Links.replace_matches]. exact IH.
Qed.

Lemma replace_matches_here baseUrl s m url rest :
  match_here s = Some (m, url, rest) →
  replace_matches baseUrl 0 s = absolute resolve baseUrl m url +:+ replace_matches baseUrl 0 rest.
Proof.
  intros Hm. destruct (match_here_split _ _ _ _ Hm) as (Hs & _).
  destruct s as [|c s']; [by destruct m |].
  cbn [Links.replace_matches]. rewrite Hm. f_equal.
  destruct m as [|c' m'].
  { (* a match is never empty *)
    unfold match_here, attribute_here in Hm. cbn in Hm.
    repeat case_match; simplify_eq. }
  rewrite append_cons in Hs. injection Hs as -> ->.
  replace (String.length (String c' m') - 1) with (String.length m') by (cbn; lia).
  apply replace_matches_inside.
Qed.

(** X27.  A page whose links cannot be resolved comes back as it was.
    When the host's URL constructor throws for every address against the
    base (an invalid base, say), [convertRelativeToAbsolute] returns the
    markup character for character, however many links match. *)
Theorem unresolvable_links_are_kept htmlString baseUrl :
  (∀ url, ∃ e, resolve url baseUrl = Throw e) →
  convertRelativeToAbsolute htmlString baseUrl = htmlString.
Proof.
  intros Hthrows. unfold Links.convertRelativeToAbsolute.
  remember (String.length htmlString) as n eqn:Hn.
  revert htmlString Hn. induction (lt_wf n) as [n _ IH]. intros s ->.
  destruct s as [|c s']; [done |].
  destruct (match_here (String c s')) as [[[m url] rest]|] eqn:Hm.
  - rewrite (replace_matches_here _ _ _ _ _ Hm).
    destruct (match_here_split _ _ _ _ Hm) as (Hs & _).
    unfold absolute. destruct (Hthrows url) as [e ->].
    rewrite (IH (String.length rest)); [by rewrite Hs | | done].
    rewrite Hs, length_append.
    destruct m as [|c' m']; [| cbn; lia].
    unfold match_here, attribute_here in Hm. cbn in Hm.
    repeat case_match; simplify_eq.
  - cbn [Links.replace_matches]. rewrite Hm. f_equal.
    apply (IH (String.length s')); [cbn; lia | done].
Qed.

(** X28.  Only addresses that begin with a dot are touched.  Markup in
    which no quote is followed at once by a dot comes back as it was,
    whatever the host makes of URLs: [src='img/a.png'] is as relative as
    [src='./img/a.png'], but only the second is rewritten. *)
Theorem undotted_links_are_kept htmlString baseUrl :
  dotted_quote_free htmlString = true →
  convertRelativeToAbsolute htmlString baseUrl = htmlString.
Proof.
  unfold Links.convertRelativeToAbsolute.
  induction htmlString as [|c s IH]; [done |]. intros Hfree.
  cbn [Links.replace_matches]. rewrite (match_here_dotted_quote _ Hfree).
  f_equal. apply IH. by apply (dotted_quote_free_tail c).
Qed.

Lemma convert_link name q tail q' rest baseUrl href :
  name = "src" ∨ name = "href" →
  is_quote q = true → is_quote q' = true →
  tail ≠ "" → quotes_free tail = true →
  resolve (String "." tail) baseUrl = Ok href →
  convertRelativeToAbsolute
    (name +:+ "=" +:+ String q (String "." tail) +:+ String q' rest) baseUrl
  = name +:+ "=" +:+ String q
      (expand (String "." tail) (name +:+ "=" +:+ String q "") (String q' "") href)
    +:+ String q' (convertRelativeToAbsolute rest baseUrl).
Proof.
  intros Hname Hq Hq' Htail Hfree Hhref. unfold Links.convertRelativeToAbsolute.
  rewrite (replace_matches_here _ _ _ _ _ (match_here_url name tail q q' rest
                                           Hname Htail Hfree Hq Hq')).
  unfold absolute. rewrite Hhref, replace_url by done. by flatten.
Qed.

(** X29.  A dotted address in a [src] or [href] is replaced by what the
    host resolves it to.  Where the markup starts with [src=] or [href=],
    a quote, an address made of a dot and at least one more character
    with no quote among them, and a quote again (of either kind, the two
    need not be the same), and the host resolves the address against the
    base to a text without a dollar, the address is replaced by that text
    inside the same quotes, and the markup after the attribute is treated
    in the same way. *)
Theorem dotted_link_is_resolved name q tail q' rest baseUrl href :
  name = "src" ∨ name = "href" →
  is_quote q = true → is_quote q' = true →
  tail ≠ "" → quotes_free tail = true →
  resolve (String "." tail) baseUrl = Ok href →
  dollar_free href = true →
  convertRelativeToAbsolute
    (name +:+ "=" +:+ String q (String "." tail) +:+ String q' rest) baseUrl
  = name +:+ "=" +:+ String q href
    +:+ String q' (convertRelativeToAbsolute rest baseUrl).
Proof.
  intros Hname Hq Hq' Htail Hfree Hhref Hdollar.
  rewrite (convert_link name q tail q' rest baseUrl href) by done.
  by rewrite expand_plain.
Qed.

(** X30.  A dollar in the resolved address is read as a replacement
    pattern.  In the situation of the last theorem, when the host
    resolves the address to a text with one [$&] in it and no other
    dollar, what is written in the place of the address is not that text:
    its [$&] is replaced by the address as it stood in the markup. *)
Theorem dollar_in_link_is_expanded name q tail q' rest baseUrl a b :
  name = "src" ∨ name = "href" →
  is_quote q = true → is_quote q' = true →
  tail ≠ "" → quotes_free tail = true →
  resolve (String "." tail) baseUrl = Ok (a +:+ "$&" +:+ b) →
  dollar_free a = true → dollar_free b = true →
  convertRelativeToAbsolute
    (name +:+ "=" +:+ String q (String "." tail) +:+ String q' rest) baseUrl
  = name +:+ "=" +:+ String q (a +:+ String "." tail +:+ b)
    +:+ String q' (convertRelativeToAbsolute rest baseUrl).
Proof.
  intros Hname Hq Hq' Htail Hfree Hhref Ha Hb.
  rewrite (convert_link name q tail q' rest baseUrl (a +:+ "$&" +:+ b)) by done.
  by rewrite expand_matched.
Qed.

End Host.

(** *** Examples

    A host for the examples: it refuses the empty base, and joins any
    other base and the address without its first two characters. *)
Definition demo_resolve (url baseUrl : string) : result string :=
  if String.eqb baseUrl "" then Throw (Exn "Invalid URL")
  else Ok (baseUrl +:+ Demo.drop 2 url).

Lemma unresolvable_links_are_kept_example :
  convertRelativeToAbsolute demo_resolve "<img src='./a.png'><a href='./b.html'>b</a>" ""
  = "<img src='./a.png'><a href='./b.html'>b</a>".
Proof.
  exact (unresolvable_links_are_kept demo_resolve
           "<img src='./a.png'><a href='./b.html'>b</a>" ""
           (λ url, ex_intro _ (Exn "Invalid URL") eq_refl)).
Defined.

Lemma undotted_links_are_kept_example :
  dotted_quote_free "<img src='img/a.png'><a href='/b.html'>b</a>" = true
  ∧ convertRelativeToAbsolute demo_resolve
      "<img src='img/a.png'><a href='/b.html'>b</a>" "http://h/t/"
    = "<img src='img/a.png'><a href='/b.html'>b</a>".
Proof.
  split; [reflexivity |].
  exact (undotted_links_are_kept demo_resolve
           "<img src='img/a.png'><a href='/b.html'>b</a>" "http://h/t/" eq_refl).
Defined.

Lemma dotted_link_is_resolved_example :
  convertRelativeToAbsolute demo_resolve "src='./a.png'><a href='./b.html'>b</a>"
    "http://h/t/"
  = "src='http://h/t/a.png'><a href='http://h/t/b.html'>b</a>".
Proof.
  refine (dotted_link_is_resolved demo_resolve "src" "'" "/a.png" "'"
            "><a href='./b.html'>b</a>" "http://h/t/" "http://h/t/a.png"
            (or_introl eq_refl) eq_refl eq_refl _ eq_refl eq_refl eq_refl).
  done.
Defined.

Lemma dollar_in_link_is_expanded_example :
  convertRelativeToAbsolute demo_resolve "href='./a$&b'>" "http://h/t/"
  = "href='http://h/t/a./a$&bb'>".
Proof.
  refine (dollar_in_link_is_expanded demo_resolve "href" "'" "/a$&b" "'"
            ">" "http://h/t/" "http://h/t/a" "b"
            (or_intror eq_refl) eq_refl eq_refl _ eq_refl eq_refl eq_refl eq_refl).
  done.
Defined.

End LinkFacts.
